(** * batch-learn: the model command (src/commands/model.cpp)

    A shallow embedding of the batch planner, the mask generator, the
    three batch runners and the epoch orchestrator, followed by the
    properties the specification states about them.

    Conventions.
    - [uint64_t], [uint32_t], [int] and [uint] values are integers in [Z];
      every operation that can wrap has its reduction written out.
    - [float] and [double] values are real numbers: rounding is not
      modelled.
    - A [std::vector] that is only indexed is a function from the index;
      one that is built or permuted is a [list].
    - Memory reached through a [uint64_t *] is a function from the word
      index, counted from the pointer.  An array of [c] words is the
      words below [c] of the memory behind its first word; a call that
      writes at [c] or beyond has left the array, which C++ leaves
      undefined, and the state records it ([w_overrun]).
    - The collaborators that live outside the file (the model, the
      dataset reader, the pseudo-random engine, the hardware entropy
      instruction, the OpenMP scheduler) are parameters, gathered in
      the classes [Model] and [Platform].
    - What the program does to the outside (console lines, calls to the
      reader and to the model, the prediction file) is appended to a
      log, in program order. *)

From Stdlib Require Import ZArith Reals Lra Lia String.
From stdpp Require Import base list.

Open Scope Z_scope.

(** ** Machine integers *)

Definition wrap64 (x : Z) : Z := x mod 2 ^ 64.
Definition wrap32 (x : Z) : Z := x mod 2 ^ 32.

(** Conversion to a 32-bit [int] (two's complement). *)
Definition to_int32 (x : Z) : Z := (x + 2 ^ 31) mod 2 ^ 32 - 2 ^ 31.

(** [1 << k] on [int].  The shift is defined by the language for
    [k <= 30] only. *)
Definition shl_int (k : Z) : Z := to_int32 (Z.shiftl 1 k).

(** ** Configuration constants (lines 15-19) *)

Definition batch_size : Z := 20000.
Definition mini_batch_size : Z := 24.
Definition dropout_mask_max_size : Z := 4000.

(** [template <typename T> T min(T a, T b)] *)
Definition min (a b : Z) : Z := if a <? b then a else b.

(** ** Data model *)

(** One entry of a sparse feature vector. *)
Record feature := { f_index : Z; f_value : R }.

(** [batch_learn::file_index], as far as this file reads it.  The two
    vectors are only indexed, never resized. *)
Record file_index := {
  n_examples : Z;
  n_fields : Z;
  n_indices : Z;
  n_index_bits : Z;
  labels : Z -> R;
  offsets : Z -> Z
}.

Record batch_learn_dataset := {
  index : file_index;
  data_file_name : string
}.

(** Words behind a [uint64_t *]. *)
Definition mem : Type := nat -> Z.

Definition store (m : mem) (p : nat) (w : Z) : mem :=
  fun q => if Nat.eqb q p then w else m q.

(** The options of the command that [run] reads. *)
Record model_command := {
  train_file_name : string;
  val_file_name : string;
  test_file_name : string;
  pred_file_name : string;
  n_epochs : Z;
  n_threads : Z;
  seed : Z
}.

(** ** The log

    The console lines carry what the properties read; the elapsed
    seconds of a report are left out. *)

Inductive console :=
| Loading (file_name : string)
| Loaded (n : Z)
| Epoch (epoch : Z)
| Training
| Evaluating
| Predicting
| Report (cnt : Z) (mean_loss : R)
| Processed (cnt : Z).

Inductive event :=
| EvConsole (line : console)
| EvReadIndex (file_name : string)
| EvCreateModel (fields indices index_bits : Z)
| EvReadBatch (file_name : string) (from to : Z)
| EvPredict (ei : Z) (norm : R) (mask : mem) (mult : R) (t : R)
| EvUpdate (ei : Z) (norm : R) (kappa : R) (mask : mem) (mult : R)
| EvOpen (file_name : string)
| EvWrite (p : R).

(** ** Programs: state and fatal errors

    [Fatal] is a thrown [std::runtime_error]; nothing in the file
    catches it.  [Unfinished] stands for a planner loop that has not
    ended within its fuel. *)

Inductive outcome (A : Type) :=
| Ok (a : A)
| Fatal (msg : string)
| Unfinished.
Arguments Ok {A} a.
Arguments Fatal {A} msg.
Arguments Unfinished {A}.

Definition prog (S A : Type) : Type := S -> outcome A * S.

Definition ret {S A} (a : A) : prog S A := fun s => (Ok a, s).

Definition bind {S A B} (c : prog S A) (k : A -> prog S B) : prog S B :=
  fun s =>
    match c s with
    | (Ok a, s') => k a s'
    | (Fatal msg, s') => (Fatal msg, s')
    | (Unfinished, s') => (Unfinished, s')
    end.

Definition throw {S A} (msg : string) : prog S A := fun s => (Fatal msg, s).

Definition get {S} : prog S S := fun s => (Ok s, s).
Definition modify {S} (f : S -> S) : prog S unit := fun s => (Ok tt, f s).

Notation "'let*' x ':=' c 'in' k" := (bind c (fun x => k))
  (at level 10, x name, c at level 100, k at level 200).
Notation "'let*' ' p ':=' c 'in' k" := (bind c (fun x => match x with p => k end))
  (at level 10, p pattern, c at level 100, k at level 200).
Notation "c ';;' k" := (bind c (fun _ => k))
  (at level 100, k at level 200, right associativity).

(** A planner result as a program. *)
Definition finished {S A} (o : option A) : prog S A :=
  fun s => match o with Some a => (Ok a, s) | None => (Unfinished, s) end.

(** A program on the first component of a pair of states. *)
Definition on_fst {S X A} (c : prog S A) : prog (S * X) A :=
  fun '(s, x) => let '(o, s') := c s in (o, (s', x)).

(** [for (x : l) st = body x st] *)
Fixpoint foreach {S A St} (body : A -> St -> prog S St) (l : list A) (st : St)
  : prog S St :=
  match l with
  | [] => ret st
  | x :: l' => let* st' := body x st in foreach body l' st'
  end.

(** [for (i = from; n times; ++ i) st = body i st] *)
Fixpoint for_range {S St} (n : nat) (from : Z) (body : Z -> St -> prog S St) (st : St)
  : prog S St :=
  match n with
  | O => ret st
  | S n' => let* st' := body from st in for_range n' (from + 1) body st'
  end.

(** ** Collaborators *)

(** The abstract class [model] (model.hpp).  [predict] only reads the
    weights; [update] returns them after its step.
    [mask_size_modulus] is the number of values of the unsigned type
    that [get_dropout_mask_size] returns: the arithmetic on the result
    is done in that type. *)
Class Model (M : Type) := {
  create_model : Z -> Z -> Z -> M;
  mask_size_modulus : Z;
  get_dropout_mask_size : M -> list feature -> Z;
  predict : M -> list feature -> R -> mem -> R -> R;
  update : M -> list feature -> R -> R -> mem -> R -> M
}.

(** Everything else the file calls.
    - [seed_rnd], [uniform_int]: [std::default_random_engine] and the
      positions [std::shuffle] draws from it.
    - [rdrand h]: the [h]-th execution of [_rdrand64_step], [None] when
      the instruction reports no value.
    - [read_index], [read_batch]: the dataset reader.
    - [omp_schedule l t n]: for the [l]-th parallel loop of the process,
      run by a team of [t] threads over [n] iterations, the iterations
      in the order they are claimed, each with the thread that claims
      it.
    - [uninit]: the content of an array before it is first written. *)
Class Platform := {
  rng : Type;
  seed_rnd : Z -> rng;
  uniform_int : rng -> nat -> nat * rng;
  rdrand : nat -> option Z;
  read_index : string -> file_index;
  read_batch : string -> Z -> Z -> list feature;
  omp_schedule : nat -> nat -> nat -> list (nat * nat);
  uninit : mem
}.

(** The state of the process.  [w_overrun] tells that a call has written
    beyond the end of a [dropout_mask] array.  C++ gives such a write no
    meaning; from there on the state is what an implementation leaves
    for which the bytes behind the array are ordinary memory of the
    thread. *)
Record world {M : Type} `{Platform} := {
  w_model : M;
  w_rnd : rng;
  w_hw : nat;
  w_threads : nat;
  w_loops : nat;
  w_log : list event;
  w_overrun : bool
}.
Arguments world M {_}.

(** ** Batch planner *)

(** The loop shared by [generate_batches] and [generate_mini_batches]:
    [for (s = start; s < stop; s += step) push_back (s, min (s + step, stop))]
    on [uint64_t].  [None] means that the loop has not ended after [fuel]
    iterations. *)
Fixpoint range_loop (fuel : nat) (step start stop : Z) : option (list (Z * Z)) :=
  if start <? stop then
    match fuel with
    | O => None
    | S fuel' =>
        let next := wrap64 (start + step) in
        match range_loop fuel' step next stop with
        | Some rest => Some ((start, min next stop) :: rest)
        | None => None
        end
    end
  else Some [].

(** Iterations granted to a planner loop over [[start, stop)]. *)
Definition planner_fuel (step start stop : Z) : nat :=
  Z.to_nat ((stop - start) / step + 1).

Definition generate_mini_batches (begin end_ : Z) : option (list (Z * Z)) :=
  range_loop (planner_fuel mini_batch_size begin end_) mini_batch_size begin end_.

(** *** [std::shuffle]

    The exchange loop of the library: position [i], from the second one
    on, is exchanged with a position the engine draws in [[0, i]]. *)

Definition iter_swap {A} (l : list A) (i j : nat) : list A :=
  match l !! i, l !! j with
  | Some a, Some b => <[i := b]> (<[j := a]> l)
  | _, _ => l
  end.

Fixpoint shuffle_from `{Platform} {A} (n i : nat) (l : list A) (g : rng)
  : list A * rng :=
  match n with
  | O => (l, g)
  | S n' =>
      let '(j, g') := uniform_int g i in
      shuffle_from n' (S i) (iter_swap l i j) g'
  end.

Definition shuffle `{Platform} {A} (l : list A) (g : rng) : list A * rng :=
  shuffle_from (length l - 1) 1 l g.

(** [batch_learn_dataset::generate_batches], with the global engine
    [rnd] passed in and out. *)
Definition generate_batches `{Platform} (ds : batch_learn_dataset) (shuffle_ : bool)
    (g : rng) : option (list (Z * Z) * rng) :=
  let n := n_examples (index ds) in
  match range_loop (planner_fuel batch_size 0 n) batch_size 0 n with
  | Some batches => Some (if shuffle_ then shuffle batches g else (batches, g))
  | None => None
  end.

(** ** Entropy-backed mask generator *)

(** The 64-bit word whose eight bytes all equal the byte [c]. *)
Definition splat (c : Z) : Z := (c mod 256) * 72340172838076673.

(** [memset (mask, c, size * sizeof (uint64_t))] with [size] an [int]:
    the byte count is computed in [size_t], and the bytes written make
    up the first [count / 8] words. *)
Definition memset_words (mask : mem) (c : Z) (size : Z) : mem :=
  let count := wrap64 (size * 8) in
  fun p => if Z.of_nat p <? count / 8 then splat c else mask p.

(** [_rdrand64_step (&v)]: the value, when there is one, and one more
    execution of the instruction. *)
Definition rdrand64_step `{Platform} : prog (mem * nat) (option Z) :=
  fun '(mask, h) => (Ok (option_map wrap64 (rdrand h)), (mask, S h)).

(** [mask[p] |= v] *)
Definition or_into (p : nat) (v : Z) : prog (mem * nat) unit :=
  modify (fun '(mask, h) => (store mask p (Z.lor (mask p) v), h)).

Definition rdrand_error : string := "Error generating random number!".

(** The state is the memory behind [mask] and the number of executions
    of the entropy instruction so far. *)
Definition fill_mask_rand `{Platform} (size zero_prob_log : Z) : prog (mem * nat) unit :=
  modify (fun '(mask, h) => (memset_words mask 0 size, h));;
  for_range (Z.to_nat size) 0 (fun p _ =>
    for_range (Z.to_nat zero_prob_log) 0 (fun _ _ =>
      let* v := rdrand64_step in
      match v with
      | None => throw rdrand_error
      | Some v => or_into (Z.to_nat p) v
      end) tt) tt.

Definition fill_mask_ones (mask : mem) (size : Z) : mem :=
  memset_words mask 255 size.

Definition compute_norm (fs : list feature) : R :=
  fold_left (fun norm f => (norm + f_value f * f_value f)%R) fs 0%R.

(** ** Parallel batch runner *)

Section Runner.
Context {M : Type} `{Model M} `{Platform}.

Definition log (e : event) : prog (world M) unit :=
  modify (fun w => {| w_model := w_model w; w_rnd := w_rnd w; w_hw := w_hw w;
                      w_threads := w_threads w; w_loops := w_loops w;
                      w_log := w_log w ++ [e]; w_overrun := w_overrun w |}).

Definition set_model (m : M) : prog (world M) unit :=
  modify (fun w => {| w_model := m; w_rnd := w_rnd w; w_hw := w_hw w;
                      w_threads := w_threads w; w_loops := w_loops w;
                      w_log := w_log w; w_overrun := w_overrun w |}).

Definition set_rnd (g : rng) : prog (world M) unit :=
  modify (fun w => {| w_model := w_model w; w_rnd := g; w_hw := w_hw w;
                      w_threads := w_threads w; w_loops := w_loops w;
                      w_log := w_log w; w_overrun := w_overrun w |}).

(** The state after a call that has executed the entropy instruction
    up to [h]; [past] tells that the call has written beyond its
    array. *)
Definition set_hw (h : nat) (past : bool) : prog (world M) unit :=
  modify (fun w => {| w_model := w_model w; w_rnd := w_rnd w; w_hw := h;
                      w_threads := w_threads w; w_loops := w_loops w;
                      w_log := w_log w; w_overrun := w_overrun w || past |}).

Definition set_threads (t : nat) : prog (world M) unit :=
  modify (fun w => {| w_model := w_model w; w_rnd := w_rnd w; w_hw := w_hw w;
                      w_threads := t; w_loops := w_loops w;
                      w_log := w_log w; w_overrun := w_overrun w |}).

Definition next_loop : prog (world M) nat :=
  fun w => (Ok (w_loops w),
            {| w_model := w_model w; w_rnd := w_rnd w; w_hw := w_hw w;
               w_threads := w_threads w; w_loops := S (w_loops w);
               w_log := w_log w; w_overrun := w_overrun w |}).

(** [fill_mask_rand (mask, size, _)] begins by clearing
    [size * sizeof (uint64_t)] bytes from [mask] on, the byte count in
    [size_t].  The array [uint64_t dropout_mask[dropout_mask_max_size]]
    of line 125 holds [dropout_mask_max_size] words: [past_array size]
    tells that the bytes cleared go beyond it. *)
Definition past_array (size : Z) : bool :=
  dropout_mask_max_size <? wrap64 (size * 8) / 8.

(** A call on a mask array: the memory behind the pointer comes back
    changed, the entropy count moves on, and [past] is recorded, whatever
    the outcome of the call.  A throw leaves the scope of the array. *)
Definition on_mask (past : bool) (mask : mem) (c : prog (mem * nat) unit)
  : prog (world M) mem :=
  let* w := get in
  match c (mask, w_hw w) with
  | (Ok _, (mask', h)) => set_hw h past;; ret mask'
  | (Fatal msg, (_, h)) => set_hw h past;; throw msg
  | (Unfinished, (_, h)) => set_hw h past;; finished None
  end.

(** [std::shuffle (v.begin (), v.end (), rnd)] on the global engine. *)
Definition shuffle_rnd {A} (v : list A) : prog (world M) (list A) :=
  let* w := get in
  let '(v', g) := shuffle v (w_rnd w) in
  set_rnd g;; ret v'.

Definition dataset_batches (ds : batch_learn_dataset) (shuffle_ : bool)
  : prog (world M) (list (Z * Z)) :=
  let* w := get in
  let* '(batches, g) := finished (generate_batches ds shuffle_ (w_rnd w)) in
  set_rnd g;; ret batches.

(** The features in [[data + a, data + b)]. *)
Definition slice (data : list feature) (a b : Z) : list feature :=
  take (Z.to_nat (b - a)) (drop (Z.to_nat a) data).

(** [#pragma omp parallel for schedule (dynamic, 1) reduction (+: loss)
    reduction (+: cnt)]: every thread of the team starts from a private
    [(0, 0)]; an iteration works on the private pair of the thread that
    claims it.  The result lists the private pairs, thread by thread.
    The team of a parallel region has at least one thread, also when
    the number asked for is 0.  A claim by a thread that is not in the
    team changes nothing. *)
Definition parallel_for {S} (threads : nat) (claims : list (nat * nat))
    (body : nat -> R * Z -> prog S (R * Z)) : prog S (list (R * Z)) :=
  foreach (fun '(t, bi) privates =>
             match privates !! t with
             | Some acc => let* acc' := body bi acc in ret (<[t := acc']> privates)
             | None => ret privates
             end)
          claims (replicate (Nat.max 1 threads) (0%R, 0)).

(** The reduction at the end of the loop, onto the initial [0.0] and [0];
    [wrap] is the reduction of the type of [cnt]. *)
Definition reduce_loss (privates : list (R * Z)) : R :=
  fold_left (fun loss acc => (loss + acc.1)%R) privates 0%R.

Definition reduce_cnt (wrap : Z -> Z) (privates : list (R * Z)) : Z :=
  fold_left (fun cnt acc => wrap (cnt + acc.2)) privates 0.

(** [(dropout_mask_size + 63) / 64], passed as an [int]. *)
Definition mask_words (dropout_mask_size : Z) : Z :=
  to_int32 (((dropout_mask_size + 63) mod mask_size_modulus) / 64).

(** [(1 << k) / ((1 << k) - 1.0f)] *)
Definition dropout_multiplier (dropout_prob_log : Z) : R :=
  (IZR (shl_int dropout_prob_log) / (IZR (shl_int dropout_prob_log) - 1))%R.

(** *** Training *)

(** Lines 131-147, for the example [ei] of a batch whose features are
    [batch_features] and start at [batch_start_offset].  The state of
    the loop is the mask array and the private [loss]. *)
Definition train_example (ds : batch_learn_dataset) (dropout_prob_log : Z)
    (dropout_mult : R) (batch_features : list feature) (batch_start_offset : Z)
    (ei : Z) (st : mem * R) : prog (world M) (mem * R) :=
  let '(dropout_mask, loss) := st in
  let y := labels (index ds) ei in
  let start_offset := wrap64 (offsets (index ds) ei - batch_start_offset) in
  let end_offset := wrap64 (offsets (index ds) (ei + 1) - batch_start_offset) in
  let fs := slice batch_features start_offset end_offset in
  let* w := get in
  let dropout_mask_size := get_dropout_mask_size (w_model w) fs in
  let* dropout_mask :=
    on_mask (past_array (mask_words dropout_mask_size)) dropout_mask
      (fill_mask_rand (mask_words dropout_mask_size) (to_int32 dropout_prob_log)) in
  let norm := compute_norm fs in
  let t := predict (w_model w) fs norm dropout_mask dropout_mult in
  log (EvPredict ei norm dropout_mask dropout_mult t);;
  let expnyt := exp (- y * t) in
  let kappa := (- y * expnyt / (1 + expnyt))%R in
  set_model (update (w_model w) fs norm kappa dropout_mask dropout_mult);;
  log (EvUpdate ei norm kappa dropout_mask dropout_mult);;
  ret (dropout_mask, (loss + ln (1 + exp (- y * t)))%R).

(** The body of the parallel loop, lines 114-151, on the private
    [(loss, cnt)] of the thread that runs it.  The array
    [uint64_t dropout_mask[dropout_mask_max_size]] of line 125 starts as
    [uninit]; its words are those below [dropout_mask_max_size]. *)
Definition train_batch (ds : batch_learn_dataset) (dropout_prob_log : Z)
    (dropout_mult : R) (batches : list (Z * Z)) (bi : nat) (acc : R * Z)
  : prog (world M) (R * Z) :=
  match batches !! bi with
  | None => ret acc
  | Some (batch_start_index, batch_end_index) =>
      let batch_start_offset := offsets (index ds) batch_start_index in
      let batch_end_offset := offsets (index ds) batch_end_index in
      let* mini_batches :=
        finished (generate_mini_batches batch_start_index batch_end_index) in
      log (EvReadBatch (data_file_name ds) batch_start_offset batch_end_offset);;
      let batch_features :=
        read_batch (data_file_name ds) batch_start_offset batch_end_offset in
      let* mini_batches := shuffle_rnd mini_batches in
      let* '(_, loss) :=
        foreach (fun mb st =>
                   for_range (Z.to_nat (mb.2 - mb.1)) mb.1
                     (train_example ds dropout_prob_log dropout_mult
                        batch_features batch_start_offset) st)
                mini_batches (uninit, acc.1) in
      ret (loss, wrap64 (acc.2 + (batch_end_index - batch_start_index)))
  end.

(** Returns [loss], as the function does, and with it the [cnt] it
    prints. *)
Definition train_on_dataset (ds : batch_learn_dataset) (dropout_prob_log : Z)
  : prog (world M) (R * Z) :=
  let dropout_mult := dropout_multiplier dropout_prob_log in
  log (EvConsole Training);;
  let* batches := dataset_batches ds true in
  let* w := get in
  let* l := next_loop in
  let* privates :=
    parallel_for (w_threads w) (omp_schedule l (w_threads w) (length batches))
      (train_batch ds dropout_prob_log dropout_mult batches) in
  let loss := reduce_loss privates in
  let cnt := reduce_cnt wrap64 privates in
  log (EvConsole (Report cnt (loss / IZR cnt)));;
  ret (loss, cnt).

(** *** Evaluation *)

(** Lines 189-198.  The state is the private [loss]; the shared vector
    [predictions] is the second component of the program state. *)
Definition evaluate_example (ds : batch_learn_dataset) (dropout_mask : mem)
    (batch_features : list feature) (batch_start_offset : Z) (ei : Z) (loss : R)
  : prog (world M * (Z -> R)) R :=
  let y := labels (index ds) ei in
  let start_offset := wrap64 (offsets (index ds) ei - batch_start_offset) in
  let end_offset := wrap64 (offsets (index ds) (ei + 1) - batch_start_offset) in
  let fs := slice batch_features start_offset end_offset in
  let norm := compute_norm fs in
  let* '(w, _) := get in
  let t := predict (w_model w) fs norm dropout_mask 1 in
  on_fst (log (EvPredict ei norm dropout_mask 1 t));;
  modify (fun '(w, predictions) =>
            (w, fun i => if i =? ei then (1 / (1 + exp (- t)))%R else predictions i));;
  ret (loss + ln (1 + exp (- y * t)))%R.

(** Lines 179-201; [cnt] is a [uint32_t] here. *)
Definition evaluate_batch (ds : batch_learn_dataset) (dropout_mask : mem)
    (batches : list (Z * Z)) (bi : nat) (acc : R * Z)
  : prog (world M * (Z -> R)) (R * Z) :=
  match batches !! bi with
  | None => ret acc
  | Some (batch_start_index, batch_end_index) =>
      let batch_start_offset := offsets (index ds) batch_start_index in
      let batch_end_offset := offsets (index ds) batch_end_index in
      on_fst (log (EvReadBatch (data_file_name ds) batch_start_offset batch_end_offset));;
      let batch_features :=
        read_batch (data_file_name ds) batch_start_offset batch_end_offset in
      let* loss :=
        for_range (Z.to_nat (batch_end_index - batch_start_index)) batch_start_index
          (evaluate_example ds dropout_mask batch_features batch_start_offset)
          acc.1 in
      ret (loss, wrap32 (acc.2 + (batch_end_index - batch_start_index)))
  end.

(** A program with a local shared vector, which is returned with the
    result. *)
Definition with_local {A X} (x : X) (c : prog (world M * X) A)
  : prog (world M) (A * X) :=
  fun w =>
    match c (w, x) with
    | (Ok a, (w', x')) => (Ok (a, x'), w')
    | (Fatal msg, (w', _)) => (Fatal msg, w')
    | (Unfinished, (w', _)) => (Unfinished, w')
    end.

(** Returns [loss], as the function does, and with it the [cnt] it
    prints and the final content of its local vector [predictions]. *)
Definition evaluate_on_dataset (ds : batch_learn_dataset)
  : prog (world M) (R * Z * (Z -> R)) :=
  log (EvConsole Evaluating);;
  let* batches := dataset_batches ds false in
  let dropout_mask := fill_mask_ones uninit dropout_mask_max_size in
  let* w := get in
  let* l := next_loop in
  let* '(privates, predictions) :=
    with_local (fun _ => 0%R)
      (parallel_for (w_threads w) (omp_schedule l (w_threads w) (length batches))
         (evaluate_batch ds dropout_mask batches)) in
  let loss := reduce_loss privates in
  let cnt := reduce_cnt wrap32 privates in
  log (EvConsole (Report cnt (loss / IZR cnt)));;
  ret (loss, cnt, predictions).

(** *** Prediction *)

Definition predict_example (ds : batch_learn_dataset) (dropout_mask : mem)
    (batch_features : list feature) (batch_start_offset : Z) (ei : Z) (_ : unit)
  : prog (world M) unit :=
  let start_offset := wrap64 (offsets (index ds) ei - batch_start_offset) in
  let end_offset := wrap64 (offsets (index ds) (ei + 1) - batch_start_offset) in
  let fs := slice batch_features start_offset end_offset in
  let norm := compute_norm fs in
  let* w := get in
  let t := predict (w_model w) fs norm dropout_mask 1 in
  log (EvPredict ei norm dropout_mask 1 t);;
  log (EvWrite (1 / (1 + exp (- t)))).

Definition predict_batch (ds : batch_learn_dataset) (dropout_mask : mem)
    (b : Z * Z) (cnt : Z) : prog (world M) Z :=
  let '(batch_start_index, batch_end_index) := b in
  let batch_start_offset := offsets (index ds) batch_start_index in
  let batch_end_offset := offsets (index ds) batch_end_index in
  log (EvReadBatch (data_file_name ds) batch_start_offset batch_end_offset);;
  let batch_features :=
    read_batch (data_file_name ds) batch_start_offset batch_end_offset in
  for_range (Z.to_nat (batch_end_index - batch_start_index)) batch_start_index
    (predict_example ds dropout_mask batch_features batch_start_offset) tt;;
  ret (wrap64 (cnt + (batch_end_index - batch_start_index))).

(** The stream [out] is the file the caller has opened; its lines are
    the [EvWrite] events. *)
Definition predict_on_dataset (ds : batch_learn_dataset) : prog (world M) unit :=
  log (EvConsole Predicting);;
  let* batches := dataset_batches ds false in
  let dropout_mask := fill_mask_ones uninit dropout_mask_max_size in
  let* cnt := foreach (predict_batch ds dropout_mask) batches 0 in
  log (EvConsole (Processed cnt)).

(** ** Epoch orchestrator *)

(** The constructor of [batch_learn_dataset]. *)
Definition load_dataset (file_name : string) : prog (world M) batch_learn_dataset :=
  log (EvConsole (Loading file_name));;
  log (EvReadIndex (file_name ++ ".index"));;
  let index := read_index (file_name ++ ".index") in
  log (EvConsole (Loaded (n_examples index)));;
  ret {| index := index; data_file_name := file_name ++ ".data" |}.

Definition empty (s : string) : bool := if string_dec s "" then true else false.

Definition val_mismatch : string := "Mismatching index bits in train and val".
Definition test_mismatch : string := "Mismatching index bits in train and test".

(** [model_command::run] *)
Definition run (cmd : model_command) : prog (world M) Z :=
  set_threads (Z.to_nat (n_threads cmd));;
  set_rnd (seed_rnd (seed cmd));;
  let dropout_prob_log := 1 in
  let* ds_train := load_dataset (train_file_name cmd) in
  log (EvCreateModel (n_fields (index ds_train)) (n_indices (index ds_train))
         (n_index_bits (index ds_train)));;
  set_model (create_model (n_fields (index ds_train)) (n_indices (index ds_train))
               (n_index_bits (index ds_train)));;
  (if empty (val_file_name cmd) then
     for_range (Z.to_nat (n_epochs cmd)) 0 (fun epoch _ =>
       log (EvConsole (Epoch epoch));;
       train_on_dataset ds_train dropout_prob_log;;
       ret tt) tt
   else
     let* ds_val := load_dataset (val_file_name cmd) in
     (if n_index_bits (index ds_val) =? n_index_bits (index ds_train)
      then ret tt else throw val_mismatch);;
     for_range (Z.to_nat (n_epochs cmd)) 0 (fun epoch _ =>
       log (EvConsole (Epoch epoch));;
       train_on_dataset ds_train dropout_prob_log;;
       evaluate_on_dataset ds_val;;
       ret tt) tt);;
  (if negb (empty (test_file_name cmd)) && negb (empty (pred_file_name cmd)) then
     let* ds_test := load_dataset (test_file_name cmd) in
     (if n_index_bits (index ds_test) =? n_index_bits (index ds_train)
      then ret tt else throw test_mismatch);;
     log (EvOpen (pred_file_name cmd));;
     predict_on_dataset ds_test
   else ret tt);;
  ret 0.

End Runner.

(** * Specification

    The vocabulary of the properties: what a plan, a mask, a log and a
    frame are. *)

(** [tiles a l b]: the ranges of [l], in order, are non-empty, each starts
    where the previous one ends, the first starts at [a] and the last
    ends at [b]. *)
Inductive tiles : Z -> list (Z * Z) -> Z -> Prop :=
| tiles_nil a : tiles a [] a
| tiles_cons a e l b : a < e -> tiles e l b -> tiles a ((a, e) :: l) b.

(** Every range has at most [cap] elements, and all but the last have
    exactly [cap]. *)
Fixpoint full_but_last (cap : Z) (l : list (Z * Z)) : Prop :=
  match l with
  | [] => True
  | [r] => 0 < r.2 - r.1 <= cap
  | r :: l' => r.2 - r.1 = cap /\ full_but_last cap l'
  end.

(** What the specification says a filled word is: the bitwise OR of the
    [k] values drawn by the executions [h], ..., [h + k - 1] of the
    entropy instruction. *)
Definition or_of_draws `{Platform} (h k : nat) : Z :=
  fold_left Z.lor (map (fun i => wrap64 (default 0 (rdrand i))) (seq h k)) 0.

(** The 64-bit word with every bit set. *)
Definition all_ones : Z := 2 ^ 64 - 1.

(** A mask whose array, all [dropout_mask_max_size] words of it, has
    every bit set. *)
Definition ones_mask (mask : mem) : Prop :=
  forall p, (p < Z.to_nat dropout_mask_max_size)%nat -> mask p = all_ones.

(** What evaluation may append to the log: console lines, batch reads,
    and calls of [predict] with the all-ones mask and multiplier 1.  No
    call of [update]. *)
Definition eval_event (e : event) : Prop :=
  match e with
  | EvConsole Evaluating | EvConsole (Report _ _) | EvReadBatch _ _ _ => True
  | EvPredict _ _ mask mult _ => mult = 1%R /\ ones_mask mask
  | _ => False
  end.

(** The frame of evaluation: the model, the engine, the entropy count
    and the team are what they were, and the log has grown by evaluation
    events. *)
Definition eval_frame {M} `{Platform} (w w' : world M) : Prop :=
  w_model w' = w_model w
  /\ w_rnd w' = w_rnd w
  /\ w_hw w' = w_hw w
  /\ w_threads w' = w_threads w
  /\ exists evs, w_log w' = w_log w ++ evs /\ Forall eval_event evs.

(** A relation on the first component of a paired state. *)
Definition lifted {S X} (Rel : S -> S -> Prop) (s s' : S * X) : Prop :=
  Rel s.1 s'.1.

(** The features of the example [ei] inside the batch [b], as the
    runners slice them out of what [read_batch] returns. *)
Definition example_features `{Platform} (ds : batch_learn_dataset) (b : Z * Z) (ei : Z)
  : list feature :=
  let batch_start_offset := offsets (index ds) b.1 in
  slice (read_batch (data_file_name ds) batch_start_offset (offsets (index ds) b.2))
        (wrap64 (offsets (index ds) ei - batch_start_offset))
        (wrap64 (offsets (index ds) (ei + 1) - batch_start_offset)).

(** A claim order that runs every iteration below [n] exactly once, on
    threads of a team of [t]. *)
Definition valid_schedule (t n : nat) (claims : list (nat * nat)) : Prop :=
  claims.*2 ≡ₚ seq 0 n /\ Forall (fun c => (c.1 < t)%nat) claims.

(** Sums, for the reductions. *)
Definition sumR (l : list R) : R := foldr Rplus 0%R l.
Definition sumZ (l : list Z) : Z := foldr Z.add 0 l.

(** The number of positions in a range. *)
Definition range_size (r : Z * Z) : Z := r.2 - r.1.

(** The score evaluation and prediction obtain for the example [ei] of
    the batch [b] from the model [m]. *)
Definition eval_score {M} `{Model M} `{Platform} (m : M) (ds : batch_learn_dataset)
    (b : Z * Z) (ei : Z) : R :=
  let fs := example_features ds b ei in
  predict m fs (compute_norm fs) (fill_mask_ones uninit dropout_mask_max_size) 1.

(** The logistic gradient scale of the specification. *)
Definition gradient_scale (y t : R) : R :=
  (- y * exp (- y * t) / (1 + exp (- y * t)))%R.

(** The logistic loss of the specification. *)
Definition logistic_loss (y t : R) : R := ln (1 + exp (- y * t)).

(** What training may append to the log: its two console lines, batch
    reads, and steps.  A step is a call of [predict] followed at once by
    a call of [update] for the same example, with the same norm, mask
    and multiplier [mult], and with the gradient scale computed from the
    label of the example and the score [t] that [predict] returned. *)
Inductive train_trace {M} `{Model M} (y : Z -> R) (mult : R) : list event -> Prop :=
| tt_nil : train_trace y mult []
| tt_banner evs :
    train_trace y mult evs -> train_trace y mult (EvConsole Training :: evs)
| tt_report cnt mean evs :
    train_trace y mult evs -> train_trace y mult (EvConsole (Report cnt mean) :: evs)
| tt_read file a b evs :
    train_trace y mult evs -> train_trace y mult (EvReadBatch file a b :: evs)
| tt_step (m : M) fs ei mask evs :
    train_trace y mult evs ->
    let norm := compute_norm fs in
    let t := predict m fs norm mask mult in
    train_trace y mult
      (EvPredict ei norm mask mult t
       :: EvUpdate ei norm (gradient_scale (y ei) t) mask mult :: evs).

(** A mask whose first [n] words have been filled with [z] draws each,
    from the execution [h] of the entropy instruction on: the draws of
    the word [p] are the executions [h + p z], ..., [h + p z + z - 1],
    each of them has given a value, and the word is the bitwise OR of
    these values. *)
Definition drawn_mask `{Platform} (z n h : nat) (mask : mem) : Prop :=
  forall p, (p < n)%nat ->
    (forall i, (i < z)%nat -> rdrand (h + p * z + i) <> None)
    /\ mask p = or_of_draws (h + p * z) z.

(** A training trace under the zero-probability-log [k]: the steps
    carry the multiplier [dropout_multiplier k], and the mask of a step
    has as many words as the model asks for the features of the step,
    each filled with [k] draws of its own. *)
Inductive dropout_trace {M} `{Model M} `{Platform} (y : Z -> R) (k : Z)
  : list event -> Prop :=
| dt_nil : dropout_trace y k []
| dt_banner evs :
    dropout_trace y k evs -> dropout_trace y k (EvConsole Training :: evs)
| dt_report cnt mean evs :
    dropout_trace y k evs -> dropout_trace y k (EvConsole (Report cnt mean) :: evs)
| dt_read file a b evs :
    dropout_trace y k evs -> dropout_trace y k (EvReadBatch file a b :: evs)
| dt_step (m : M) fs ei mask h evs :
    drawn_mask (Z.to_nat (to_int32 k))
               (Z.to_nat (mask_words (get_dropout_mask_size m fs))) h mask ->
    dropout_trace y k evs ->
    let norm := compute_norm fs in
    let mult := dropout_multiplier k in
    let t := predict m fs norm mask mult in
    dropout_trace y k
      (EvPredict ei norm mask mult t
       :: EvUpdate ei norm (gradient_scale (y ei) t) mask mult :: evs).

(** The loss and the number of examples the calls of [predict] in a log
    account for. *)
Fixpoint logged_loss (y : Z -> R) (evs : list event) : R :=
  match evs with
  | [] => 0
  | EvPredict ei _ _ _ t :: evs' => logistic_loss (y ei) t + logged_loss y evs'
  | _ :: evs' => logged_loss y evs'
  end.

Fixpoint predict_calls (evs : list event) : Z :=
  match evs with
  | [] => 0
  | EvPredict _ _ _ _ _ :: evs' => 1 + predict_calls evs'
  | _ :: evs' => predict_calls evs'
  end.

(** The frame of training: the team is what it was and the log has
    grown by a training trace. *)
Definition train_frame {M} `{Model M} `{Platform} (y : Z -> R) (mult : R)
    (w w' : world M) : Prop :=
  w_threads w' = w_threads w
  /\ exists evs, w_log w' = w_log w ++ evs /\ train_trace y mult evs.

(** The same with a trace that tells how the masks were drawn. *)
Definition dropout_frame {M} `{Model M} `{Platform} (y : Z -> R) (k : Z)
    (w w' : world M) : Prop :=
  w_threads w' = w_threads w
  /\ exists evs, w_log w' = w_log w ++ evs /\ dropout_trace y k evs.

(** A frame on the log alone: it has grown by events that satisfy [P]. *)
Definition log_frame {M} `{Platform} (P : list event -> Prop) (w w' : world M) : Prop :=
  exists evs, w_log w' = w_log w ++ evs /\ P evs.

(** An event that is no part of a training step: anything but a call of
    [update], and a call of [predict] only with multiplier 1 and the
    all-ones mask. *)
Definition quiet_event (e : event) : Prop :=
  match e with
  | EvUpdate _ _ _ _ _ => False
  | EvPredict _ _ mask mult _ => mult = 1%R /\ ones_mask mask
  | _ => True
  end.

(** What a run may append to the log: training traces under the
    zero-probability-log 1, and quiet events. *)
Inductive run_trace {M} `{Model M} `{Platform} (y : Z -> R) : list event -> Prop :=
| rt_nil : run_trace y []
| rt_train seg evs :
    dropout_trace y 1 seg -> run_trace y evs -> run_trace y (seg ++ evs)
| rt_quiet e evs : quiet_event e -> run_trace y evs -> run_trace y (e :: evs).

(** An event that is not about the prediction file. *)
Definition no_output (e : event) : Prop :=
  match e with
  | EvOpen _ | EvWrite _ => False
  | _ => True
  end.

(** An event that is not about a batch: no read, no call of the model. *)
Definition no_batch (e : event) : Prop :=
  match e with
  | EvReadBatch _ _ _ | EvPredict _ _ _ _ _ | EvUpdate _ _ _ _ _ => False
  | _ => True
  end.

Fixpoint update_calls (evs : list event) : Z :=
  match evs with
  | [] => 0
  | EvUpdate _ _ _ _ _ :: evs' => 1 + update_calls evs'
  | _ :: evs' => update_calls evs'
  end.

(** [throws c Q s]: from [s], [c] ends with a fatal error, and the
    message and the final state satisfy [Q]. *)
Definition throws {S A} (c : prog S A) (Q : string -> S -> Prop) (s : S) : Prop :=
  match c s with
  | (Fatal msg, s') => Q msg s'
  | _ => False
  end.

(** [never_returns Rel c]: [c] never returns a value, and the state it
    leaves is related by [Rel] to the state it started from. *)
Definition never_returns {S A} (Rel : S -> S -> Prop) (c : prog S A) : Prop :=
  forall s, Rel s (c s).2 /\ forall a, (c s).1 <> Ok a.

(** The dataset that the constructor builds from a file name. *)
Definition dataset_of `{Platform} (file_name : string) : batch_learn_dataset :=
  {| index := read_index (file_name ++ ".index");
     data_file_name := file_name ++ ".data" |}.

(** [preserves Rel c]: whatever the outcome of [c], the state it leaves
    is related by [Rel] to the state it started from. *)
Definition preserves {S} (Rel : S -> S -> Prop) {A} (c : prog S A) : Prop :=
  forall s, Rel s (c s).2.

(** [wp c Q s]: from [s], [c] returns a value, and the value and the
    final state satisfy [Q]. *)
Definition wp {S A} (c : prog S A) (Q : A -> S -> Prop) (s : S) : Prop :=
  match c s with
  | (Ok a, s') => Q a s'
  | _ => False
  end.

(** [ends c Q s]: whatever the outcome of [c] from [s], the state it
    leaves satisfies [Q]. *)
Definition ends {S A} (c : prog S A) (Q : S -> Prop) (s : S) : Prop := Q (c s).2.

(** The inner loop of [fill_mask_rand], for the word [p]. *)
Definition rand_word `{Platform} (p : Z) : Z -> unit -> prog (mem * nat) unit :=
  fun _ _ =>
    let* v := rdrand64_step in
    match v with
    | None => throw rdrand_error
    | Some v => or_into (Z.to_nat p) v
    end.

(** The features and the word count of the training step for the
    example [ei]. *)
Definition step_features (ds : batch_learn_dataset) (bf : list feature) (bso ei : Z)
  : list feature :=
  slice bf (wrap64 (offsets (index ds) ei - bso))
        (wrap64 (offsets (index ds) (ei + 1) - bso)).

Definition step_words {M} `{Model M} (ds : batch_learn_dataset) (bf : list feature)
    (bso ei : Z) (m : M) : Z :=
  mask_words (get_dropout_mask_size m (step_features ds bf bso ei)).

(** The outcomes of a fill: it returns, or it throws the entropy
    error. *)
Definition entropy_outcome (o : outcome unit) : Prop :=
  o = Ok tt \/ o = Fatal rdrand_error.

(** The two phases of [run]: the epochs, and the prediction pass. *)
Definition epochs_of_run {M} `{Model M} `{Platform} (cmd : model_command)
    (ds_train : batch_learn_dataset) : prog (world M) unit :=
  if empty (val_file_name cmd) then
    for_range (Z.to_nat (n_epochs cmd)) 0 (fun epoch _ =>
      log (EvConsole (Epoch epoch));;
      train_on_dataset ds_train 1;;
      ret tt) tt
  else
    let* ds_val := load_dataset (val_file_name cmd) in
    (if n_index_bits (index ds_val) =? n_index_bits (index ds_train)
     then ret tt else throw val_mismatch);;
    for_range (Z.to_nat (n_epochs cmd)) 0 (fun epoch _ =>
      log (EvConsole (Epoch epoch));;
      train_on_dataset ds_train 1;;
      evaluate_on_dataset ds_val;;
      ret tt) tt.

Definition prediction_of_run {M} `{Model M} `{Platform} (cmd : model_command)
    (ds_train : batch_learn_dataset) : prog (world M) unit :=
  if negb (empty (test_file_name cmd)) && negb (empty (pred_file_name cmd)) then
    let* ds_test := load_dataset (test_file_name cmd) in
    (if n_index_bits (index ds_test) =? n_index_bits (index ds_train)
     then ret tt else throw test_mismatch);;
    log (EvOpen (pred_file_name cmd));;
    predict_on_dataset ds_test
  else ret tt.

(** Sets of logs that a frame can be built on. *)
Class Closed (P : list event -> Prop) := {
  closed_nil : P [];
  closed_app evs evs' : P evs -> P evs' -> P (evs ++ evs')
}.

(** ** A small platform and model, for concrete runs *)

Module Demo.

(** Features numbered from [a] to [b], each of value 1. *)
Definition unit_features (a b : Z) : list feature :=
  map (fun i => {| f_index := Z.of_nat i; f_value := 1%R |})
      (seq (Z.to_nat a) (Z.to_nat (b - a))).

(** Iteration [bi] goes to thread [bi mod t]. *)
Definition round_robin (t n : nat) : list (nat * nat) :=
  map (fun bi => ((bi mod t)%nat, bi)) (seq 0 n).

(** [n] examples of one feature each, with labels +1, -1, +1, ... *)
Definition demo_index (n bits : Z) : file_index :=
  {| n_examples := n; n_fields := 1; n_indices := 1; n_index_bits := bits;
     labels := fun ei => if Z.even ei then 1%R else (-1)%R;
     offsets := fun i => i |}.

Definition demo_dataset (n bits : Z) : batch_learn_dataset :=
  {| index := demo_index n bits; data_file_name := "train.data" |}.

(** The engine is a counter; the entropy instruction and the index files
    are given. *)
Definition platform (draw : nat -> option Z) (files : string -> file_index) : Platform :=
  {| rng := nat;
     seed_rnd := Z.to_nat;
     uniform_int := fun g i => ((g mod S i)%nat, S g);
     rdrand := draw;
     read_index := files;
     read_batch := fun _ => unit_features;
     omp_schedule := fun _ => round_robin;
     uninit := fun _ => 0 |}.

(** Draws that always give a value. *)
Definition steady (h : nat) : option Z := Some (Z.of_nat h + 1).

(** Draws that fail at the execution [k]. *)
Definition failing_at (k : nat) (h : nat) : option Z :=
  if Nat.eqb h k then None else Some (Z.of_nat h + 1).

(** Three examples behind every name, with 20 index bits for the
    training file and 18 for every other file. *)
Definition files (name : string) : file_index :=
  if string_dec name "train.index" then demo_index 3 20 else demo_index 3 18.

(** A model that scores 0 whatever it is given, counts its updates and
    asks for masks of [mask_bits] bits. *)
Definition constant_model (mask_bits : Z) : Model nat :=
  {| create_model := fun _ _ _ => O;
     mask_size_modulus := 2 ^ 32;
     get_dropout_mask_size := fun _ _ => mask_bits;
     predict := fun _ _ _ _ _ => 0%R;
     update := fun m _ _ _ _ _ => S m |}.

Definition start (PF : Platform) (g : @rng PF) (threads : nat) : world nat :=
  {| w_model := O; w_rnd := g; w_hw := O; w_threads := threads; w_loops := O;
     w_log := []; w_overrun := false |}.

End Demo.

Definition demo_platform : Platform := Demo.platform Demo.steady Demo.files.

(** A command that trains on "train" for one epoch and predicts on
    "test" into "out.txt", without validation. *)
Definition test_command : model_command :=
  {| train_file_name := "train"; val_file_name := ""; test_file_name := "test";
     pred_file_name := "out.txt"; n_epochs := 1; n_threads := 1; seed := 0 |}.

(** The same with validation on "val". *)
Definition val_command : model_command :=
  {| train_file_name := "train"; val_file_name := "val"; test_file_name := "test";
     pred_file_name := "out.txt"; n_epochs := 1; n_threads := 1; seed := 0 |}.

(** ** More vocabulary: closed forms and what a log shows *)

(** The [i]-th range of a planner loop from [start] to [stop]. *)
Definition nth_range (step start stop : Z) (i : nat) : Z * Z :=
  (start + step * Z.of_nat i, Z.min (start + step * (Z.of_nat i + 1)) stop).

(** The number of ranges of a planner loop from [start] to [stop]. *)
Definition range_count (step start stop : Z) : nat :=
  Z.to_nat ((stop - start + step - 1) / step).

(** The ordinals from [a], [n] of them. *)
Definition zrange (a : Z) (n : nat) : list Z := (fun i => a + Z.of_nat i) <$> seq 0 n.

(** The ordinals of a range. *)
Definition ordinals (r : Z * Z) : list Z := zrange r.1 (Z.to_nat (r.2 - r.1)).

(** The probability the runners derive from a score. *)
Definition sigmoid (t : R) : R := (1 / (1 + exp (- t)))%R.

(** The lines written to the prediction file, the ordinals [predict] is
    called for and the files opened, each in the order of the log. *)
Fixpoint written (evs : list event) : list R :=
  match evs with
  | [] => []
  | EvWrite p :: evs' => p :: written evs'
  | _ :: evs' => written evs'
  end.

Fixpoint predicted (evs : list event) : list Z :=
  match evs with
  | [] => []
  | EvPredict ei _ _ _ _ :: evs' => ei :: predicted evs'
  | _ :: evs' => predicted evs'
  end.

Fixpoint updated (evs : list event) : list Z :=
  match evs with
  | [] => []
  | EvUpdate ei _ _ _ _ :: evs' => ei :: updated evs'
  | _ :: evs' => updated evs'
  end.

(** A log that visits the examples [seen]: [predict] is called for them,
    once each, in some order, and [update] for the same examples in the
    same order. *)
Definition visits (seen : list Z) (evs : list event) : Prop :=
  predicted evs ≡ₚ seen /\ updated evs = predicted evs.

Fixpoint opened (evs : list event) : list string :=
  match evs with
  | [] => []
  | EvOpen file :: evs' => file :: opened evs'
  | _ :: evs' => opened evs'
  end.

(** [fails_only P c]: every fatal error of [c] carries a message that
    satisfies [P]. *)
Definition fails_only {S A} (P : string -> Prop) (c : prog S A) : Prop :=
  forall s msg, (c s).1 = Fatal msg -> P msg.

(** [returns c]: [c] returns a value from every state. *)
Definition returns {S A} (c : prog S A) : Prop :=
  forall s, exists a, (c s).1 = Ok a.

(** Sets of messages. *)
Definition no_error (msg : string) : Prop := False.
Definition entropy_error (msg : string) : Prop := msg = rdrand_error.

(** The fatal errors of a run: the entropy error; the train/validation
    error, with a validation file whose index bits differ; the
    train/test error, with a test file and a prediction file name and
    index bits that differ. *)
Definition run_error `{Platform} (cmd : model_command) (msg : string) : Prop :=
  msg = rdrand_error
  \/ (msg = val_mismatch
      /\ empty (val_file_name cmd) = false
      /\ n_index_bits (index (dataset_of (val_file_name cmd)))
         <> n_index_bits (index (dataset_of (train_file_name cmd))))
  \/ (msg = test_mismatch
      /\ empty (test_file_name cmd) = false
      /\ empty (pred_file_name cmd) = false
      /\ n_index_bits (index (dataset_of (test_file_name cmd)))
         <> n_index_bits (index (dataset_of (train_file_name cmd)))).


(** A platform on which every index file has 20 index bits. *)
Definition uniform_platform : Platform :=
  Demo.platform Demo.steady (fun _ => Demo.demo_index 3 20).

(** Whether [run] has a prediction pass: it needs both names. *)
Definition predicting (cmd : model_command) : bool :=
  negb (empty (test_file_name cmd)) && negb (empty (pred_file_name cmd)).

(** What the prediction pass may append to the log: console lines, reads
    of a batch, calls of [predict] with multiplier 1 and the all-ones
    mask, and lines of the prediction file. *)
Definition prediction_event (e : event) : Prop :=
  match e with
  | EvConsole _ | EvReadBatch _ _ _ | EvWrite _ => True
  | EvPredict _ _ mask mult _ => mult = 1%R /\ ones_mask mask
  | _ => False
  end.

(** The discipline of [run] on its prediction file, between two states:
    the log has grown by events that are not about the file, and then
    either by nothing, or by the opening of the file the command names
    and events that open nothing and call [update] no more. *)
Definition output_discipline {M} `{Platform} (cmd : model_command) (w w' : world M)
  : Prop :=
  exists before after,
    w_log w' = w_log w ++ before ++ after
    /\ Forall no_output before
    /\ (after = []
        \/ (predicting cmd = true
            /\ exists evs, after = EvOpen (pred_file_name cmd) :: evs
                           /\ Forall prediction_event evs)).

(** What a log of prediction events shows for the batches [bs]: one call
    of [predict] and one line for each ordinal, in order, the line being
    the probability of the score. *)
Definition prediction_log {M} `{Model M} `{Platform} (m : M) (ds : batch_learn_dataset)
    (bs : list (Z * Z)) (evs : list event) : Prop :=
  predicted evs = concat (ordinals <$> bs)
  /\ written evs
     = concat ((fun b => (fun ei => sigmoid (eval_score m ds b ei)) <$> ordinals b)
                 <$> bs)
  /\ update_calls evs = 0
  /\ opened evs = [].

(** The state but the log. *)
Definition same_state {M} `{Platform} (w w' : world M) : Prop :=
  w_model w' = w_model w /\ w_rnd w' = w_rnd w /\ w_hw w' = w_hw w
  /\ w_threads w' = w_threads w.

(** The log of the epoch [epoch] of a run that trains on [n] examples
    with labels [y]: the line of the epoch, a training trace under the
    zero-probability-log 1 that visits every example once, and the
    events of an evaluation, if there is one. *)
Definition epoch_log {M} `{Model M} `{Platform} (y : Z -> R) (n : Z) (epoch : Z)
    (seg : list event) : Prop :=
  exists tr ev,
    seg = EvConsole (Epoch epoch) :: tr ++ ev
    /\ dropout_trace y 1 tr
    /\ visits (zrange 0 (Z.to_nat n)) tr
    /\ Forall eval_event ev.

(** ** Reasoning about programs *)

Lemma bind_ok {S A B} (c : prog S A) (k : A -> prog S B) s a s' :
  c s = (Ok a, s') -> bind c k s = k a s'.
Proof. unfold bind. by intros ->. Qed.

Lemma bind_fatal {S A B} (c : prog S A) (k : A -> prog S B) s msg s' :
  c s = (Fatal msg, s') -> bind c k s = (Fatal msg, s').
Proof. unfold bind. by intros ->. Qed.

Section Logic.
Context {S : Type}.

Context (Rel : S -> S -> Prop) `{!PreOrder Rel}.

Lemma preserves_ret {A} (a : A) : preserves Rel (ret a).
Proof. intros s. simpl. reflexivity. Qed.

Lemma preserves_throw {A} msg : preserves Rel (@throw S A msg).
Proof. intros s. simpl. reflexivity. Qed.

Lemma preserves_finished {A} (o : option A) : preserves Rel (finished o).
Proof. intros s. unfold finished. destruct o; simpl; reflexivity. Qed.

Lemma preserves_get : preserves Rel get.
Proof. intros s. simpl. reflexivity. Qed.

Lemma preserves_modify (f : S -> S) : (forall s, Rel s (f s)) -> preserves Rel (modify f).
Proof. intros Hf s. apply Hf. Qed.

Lemma preserves_bind {A B} (c : prog S A) (k : A -> prog S B) :
  preserves Rel c -> (forall a, preserves Rel (k a)) -> preserves Rel (bind c k).
Proof.
  intros Hc Hk s. unfold bind. specialize (Hc s).
  destruct (c s) as [[a|msg|] s']; simpl in *; try done.
  etransitivity; [exact Hc|apply Hk].
Qed.

Lemma preserves_foreach {A St} (body : A -> St -> prog S St) l st :
  (forall x st, preserves Rel (body x st)) -> preserves Rel (foreach body l st).
Proof.
  intros Hb. revert st. induction l as [|x l IH]; intros st; simpl.
  - apply preserves_ret.
  - apply preserves_bind; [apply Hb|apply IH].
Qed.

Lemma preserves_for_range {St} n from (body : Z -> St -> prog S St) st :
  (forall i st, preserves Rel (body i st)) -> preserves Rel (for_range n from body st).
Proof.
  intros Hb. revert from st. induction n as [|n IH]; intros from st; simpl.
  - apply preserves_ret.
  - apply preserves_bind; [apply Hb|intros; apply IH].
Qed.

End Logic.

Section Wp.
Context {S : Type}.

Lemma wp_ret {A} (a : A) (Q : A -> S -> Prop) s : Q a s -> wp (ret a) Q s.
Proof. done. Qed.

Lemma wp_get (Q : S -> S -> Prop) s : Q s s -> wp get Q s.
Proof. done. Qed.

Lemma wp_modify (f : S -> S) (Q : unit -> S -> Prop) s : Q tt (f s) -> wp (modify f) Q s.
Proof. done. Qed.

Lemma wp_finished {A} (a : A) (Q : A -> S -> Prop) s : Q a s -> wp (finished (Some a)) Q s.
Proof. done. Qed.

Lemma wp_bind {A B} (c : prog S A) (k : A -> prog S B) (Q : B -> S -> Prop) s :
  wp c (fun a s' => wp (k a) Q s') s -> wp (bind c k) Q s.
Proof. unfold wp, bind. by destruct (c s) as [[a|msg|] s']. Qed.

Lemma wp_mono {A} (c : prog S A) (Q Q' : A -> S -> Prop) s :
  (forall a s', Q a s' -> Q' a s') -> wp c Q s -> wp c Q' s.
Proof. unfold wp. intros HQ. destruct (c s) as [[a|msg|] s']; auto. Qed.

Lemma wp_elim {A} (c : prog S A) (Q : A -> S -> Prop) s :
  wp c Q s -> exists a s', c s = (Ok a, s') /\ Q a s'.
Proof. unfold wp. destruct (c s) as [[a|msg|] s']; [eauto|done..]. Qed.

Lemma wp_intro {A} (c : prog S A) (Q : A -> S -> Prop) s a s' :
  c s = (Ok a, s') -> Q a s' -> wp c Q s.
Proof. unfold wp. by intros ->. Qed.

(** Loops, with an invariant on what has been visited so far. *)
Lemma wp_foreach {A St} (Inv : list A -> St -> S -> Prop)
    (body : A -> St -> prog S St) (l : list A) st s :
  Inv [] st s ->
  (forall seen x rest st s, l = seen ++ x :: rest -> Inv seen st s ->
     wp (body x st) (Inv (seen ++ [x])) s) ->
  wp (foreach body l st) (Inv l) s.
Proof.
  intros H0 Hstep.
  assert (forall rest seen st s, l = seen ++ rest -> Inv seen st s ->
            wp (foreach body rest st) (Inv l) s) as Hgen.
  { induction rest as [|x rest IH]; intros seen st' s' El Hi; simpl.
    - rewrite app_nil_r in El. subst seen. by apply wp_ret.
    - apply wp_bind. eapply wp_mono; [|by eapply Hstep].
      intros st'' s'' Hi'. simpl in Hi'. eapply IH; [|done].
      by rewrite <- app_assoc. }
  by apply (Hgen l []).
Qed.

Lemma wp_for_range {St} (Inv : nat -> St -> S -> Prop) n from
    (body : Z -> St -> prog S St) st s :
  Inv O st s ->
  (forall i st s, (i < n)%nat -> Inv i st s ->
     wp (body (from + Z.of_nat i) st) (Inv (Datatypes.S i)) s) ->
  wp (for_range n from body st) (Inv n) s.
Proof.
  intros H0 Hstep.
  assert (forall m i from' st s, (i + m = n)%nat -> from' = from + Z.of_nat i ->
            Inv i st s -> wp (for_range m from' body st) (Inv n) s) as Hgen.
  { induction m as [|m IH]; intros i from' st' s' Hn Hfrom Hi; simpl.
    - replace n with i by lia. by apply wp_ret.
    - apply wp_bind. subst from'. eapply wp_mono; [|apply Hstep; [lia|done]].
      intros st'' s'' Hi'. simpl in Hi'. apply (IH (Datatypes.S i)); [lia|lia|done]. }
  apply (Hgen n O); [lia|lia|done].
Qed.

End Wp.

Ltac pres_ret := apply preserves_ret; apply _.
(** * Properties

    ** The planner *)

Lemma min_spec a b : min a b = Z.min a b.
Proof. unfold min. destruct (Z.ltb_spec a b); lia. Qed.

Lemma wrap64_small x : 0 <= x < 2 ^ 64 -> wrap64 x = x.
Proof. intros. unfold wrap64. by apply Z.mod_small. Qed.

Lemma tiles_le a l b : tiles a l b -> a <= b.
Proof. induction 1; lia. Qed.

Lemma tiles_bounds a l b r : tiles a l b -> r ∈ l -> a <= r.1 /\ r.1 < r.2 /\ r.2 <= b.
Proof.
  induction 1 as [|a e l b Hlt Ht IH]; intros Hin.
  - by apply elem_of_nil in Hin.
  - apply elem_of_cons in Hin as [->|Hin]; simpl.
    + apply tiles_le in Ht. lia.
    + specialize (IH Hin). lia.
Qed.

(** Coverage: a position lies in some range exactly when it lies in
    [[a, b)]. *)
Lemma tiles_cover a l b x :
  tiles a l b -> (a <= x < b <-> exists r, r ∈ l /\ r.1 <= x < r.2).
Proof.
  induction 1 as [a|a e l b Hlt Ht IH].
  - split; [lia|]. intros (r & Hin & _). by apply elem_of_nil in Hin.
  - split.
    + intros Hx. destruct (Z_lt_ge_dec x e) as [H1|H1].
      * exists (a, e). split; [left|simpl; lia].
      * destruct IH as [IH _]. destruct IH as (r & Hin & Hr); [lia|].
        exists r. split; [by right|done].
    + intros (r & Hin & Hr). apply elem_of_cons in Hin as [->|Hin].
      * simpl in Hr. apply tiles_le in Ht. lia.
      * pose proof (tiles_bounds _ _ _ _ Ht Hin). apply tiles_le in Ht. lia.
Qed.

(** Order and disjointness: an earlier range ends before a later one
    starts. *)
Lemma tiles_ordered a l b i j r s :
  tiles a l b -> (i < j)%nat -> l !! i = Some r -> l !! j = Some s -> r.2 <= s.1.
Proof.
  intros Ht. revert i j. induction Ht as [a|a e l b Hlt Ht IH]; intros i j Hij Hi Hj.
  - done.
  - destruct j as [|j]; [lia|]. simpl in Hj. destruct i as [|i].
    + simpl in Hi. injection Hi as <-. simpl.
      apply list_elem_of_lookup_2 in Hj.
      pose proof (tiles_bounds _ _ _ _ Ht Hj). lia.
    + simpl in Hi. apply (IH i j); [lia|done..].
Qed.

Lemma tiles_same a l : tiles a l a -> l = [].
Proof. inversion 1 as [|? e ? ? Hlt Ht]; subst; [done|]. apply tiles_le in Ht. lia. Qed.

(** The loop, away from the wrap-around of its counter. *)
Lemma planner_fuel_step step start stop :
  0 < step -> start < stop ->
  (stop - start) / step + 1 = ((stop - (start + step)) / step + 1) + 1
  /\ 0 <= (stop - (start + step)) / step + 1.
Proof.
  intros Hstep Hlt.
  replace (stop - start) with ((stop - (start + step)) + 1 * step) by lia.
  rewrite Z.div_add by lia. split; [lia|].
  assert (- step <= stop - (start + step)) as H by lia.
  apply (Z.div_le_mono _ _ step) in H; [|lia].
  replace (- step) with (-1 * step) in H by lia.
  rewrite Z.div_mul in H by lia. lia.
Qed.

(** The loop, away from the wrap-around of its counter. *)
Lemma range_loop_tiles step stop fuel start :
  0 < step -> 0 <= start -> stop + step <= 2 ^ 64 ->
  (Z.to_nat ((stop - start) / step + 1) <= fuel)%nat ->
  exists l, range_loop fuel step start stop = Some l
            /\ tiles start l (Z.max start stop)
            /\ full_but_last step l.
Proof.
  intros Hstep. revert start.
  induction fuel as [|fuel IH]; intros start Hs Hstop Hfuel.
  - assert (stop <= start) as Hle.
    { destruct (Z_lt_ge_dec start stop) as [Hlt|]; [|lia].
      destruct (planner_fuel_step step start stop) as [E Hpos]; lia. }
    simpl. destruct (Z.ltb_spec start stop); [lia|].
    exists []. rewrite Z.max_l by lia. split_and!; [done|constructor|done].
  - simpl. destruct (Z.ltb_spec start stop) as [Hlt|Hge].
    + rewrite wrap64_small by lia.
      destruct (planner_fuel_step step start stop) as [E Hpos]; [done..|].
      assert (Z.to_nat ((stop - (start + step)) / step + 1) <= fuel)%nat as Hfuel' by lia.
      destruct (IH (start + step) ltac:(lia) Hstop Hfuel') as (l & -> & Ht & Hf).
      eexists. split; [done|]. rewrite min_spec.
      rewrite Z.max_r by lia.
      destruct (Z_lt_ge_dec (start + step) stop) as [H1|H1].
      * rewrite Z.min_l by lia. rewrite Z.max_r in Ht by lia.
        split; [constructor; [lia|done]|].
        destruct l as [|r l]; [inversion Ht; lia|].
        destruct r as [r1 r2]. inversion Ht; subst. simpl. split; [lia|done].
      * rewrite Z.min_r by lia. rewrite Z.max_l in Ht by lia.
        apply tiles_same in Ht as ->.
        split; [|simpl; lia].
        constructor; [lia|constructor].
    + exists []. rewrite Z.max_l by lia. split_and!; [done|constructor|done].
Qed.

Lemma full_but_last_sizes cap l :
  full_but_last cap l -> Forall (fun r : Z * Z => 0 < r.2 - r.1 <= cap) l \/ cap <= 0.
Proof.
  destruct (Z_lt_ge_dec 0 cap) as [Hcap|]; [left|right; lia].
  induction l as [|r [|r' l] IH]; simpl in *.
  - constructor.
  - repeat constructor; lia.
  - destruct H as [E Hf]. constructor; [lia|]. by apply IH.
Qed.

(** All ranges but the last hold exactly [cap] positions. *)
Lemma full_but_last_lookup cap l i r :
  full_but_last cap l -> l !! i = Some r -> (S i < length l)%nat -> r.2 - r.1 = cap.
Proof.
  revert i. induction l as [|r0 [|r1 l] IH]; intros i Hf Hi Hlen; simpl in *.
  - done.
  - lia.
  - destruct Hf as [E Hf]. destruct i as [|i]; simpl in Hi.
    + by injection Hi as <-.
    + apply (IH i); [done..|lia].
Qed.

(** *** Exchanges permute *)

Lemma insert_swap_head {A} (l : list A) j a b :
  l !! j = Some b -> b :: <[j := a]> l ≡ₚ a :: l.
Proof.
  revert j. induction l as [|c l IH]; intros [|j] Hj; simpl in *; try done.
  - injection Hj as ->. apply perm_swap.
  - rewrite (perm_swap c b), (IH j Hj). apply perm_swap.
Qed.

Lemma iter_swap_perm {A} (l : list A) i j : iter_swap l i j ≡ₚ l.
Proof.
  unfold iter_swap.
  destruct (l !! i) as [a|] eqn:Hi; [|done].
  destruct (l !! j) as [b|] eqn:Hj; [|done].
  revert i j Hi Hj. induction l as [|c l IH]; intros [|i] [|j] Hi Hj; simpl in *; try done.
  - by injection Hi as ->; injection Hj as ->.
  - injection Hi as ->. by apply insert_swap_head.
  - injection Hj as ->. by apply insert_swap_head.
  - f_equiv. by apply IH.
Qed.

Lemma shuffle_from_perm `{PF : Platform} {A} n i (l : list A) g :
  (shuffle_from n i l g).1 ≡ₚ l.
Proof.
  revert i l g. induction n as [|n IH]; intros i l g; simpl; [done|].
  destruct (uniform_int g i) as [j g']. rewrite IH. apply iter_swap_perm.
Qed.

Lemma shuffle_perm `{PF : Platform} {A} (l : list A) g :
  (shuffle l g).1 ≡ₚ l.
Proof. apply shuffle_from_perm. Qed.

(** *** The two planners *)

Lemma planner_partition step start stop :
  0 < step -> 0 <= start <= stop -> stop + step <= 2 ^ 64 ->
  exists l, range_loop (planner_fuel step start stop) step start stop = Some l
    /\ tiles start l stop
    /\ full_but_last step l.
Proof.
  intros Hstep Hs Hstop.
  destruct (range_loop_tiles step stop (planner_fuel step start stop) start)
    as (l & Hl & Ht & Hf); [lia|lia|done|done|].
  rewrite Z.max_r in Ht by lia. eauto.
Qed.

Lemma generate_mini_batches_plan (begin end_ : Z) :
  0 <= begin <= end_ -> end_ + mini_batch_size <= 2 ^ 64 ->
  exists l, generate_mini_batches begin end_ = Some l
            /\ tiles begin l end_
            /\ Forall (fun r : Z * Z => 0 < r.2 - r.1) l.
Proof.
  intros Hb He.
  destruct (planner_partition mini_batch_size begin end_) as (l & Hl & Ht & Hf);
    [done..|].
  exists l. split_and!; [done..|].
  apply Forall_forall. intros r Hr. pose proof (tiles_bounds _ _ _ _ Ht Hr). lia.
Qed.

(** C4: for [begin <= end], with [end + 24] inside the range of
    [uint64_t], [generate_mini_batches] returns ranges that are
    contiguous and in ascending order from [begin] to [end], do not
    overlap, cover exactly [[begin, end)], and hold 24 positions each,
    except the last, which may hold fewer. *)
Theorem generate_mini_batches_partition (begin end_ : Z) :
  0 <= begin <= end_ -> end_ + mini_batch_size <= 2 ^ 64 ->
  exists l,
    generate_mini_batches begin end_ = Some l
    /\ tiles begin l end_
    /\ full_but_last mini_batch_size l
    /\ Forall (fun r : Z * Z => 0 < r.2 - r.1 <= mini_batch_size) l
    /\ (forall i r, l !! i = Some r -> (S i < length l)%nat ->
          r.2 - r.1 = mini_batch_size)
    /\ (forall x, begin <= x < end_ <-> exists r, r ∈ l /\ r.1 <= x < r.2)
    /\ (forall i j r s, (i < j)%nat -> l !! i = Some r -> l !! j = Some s ->
          r.2 <= s.1).
Proof.
  intros Hb He.
  destruct (planner_partition mini_batch_size begin end_) as (l & Hl & Ht & Hf);
    [done..|].
  exists l. split_and!; try done.
  - destruct (full_but_last_sizes _ _ Hf) as [H|H]; [done|by compute in H].
  - intros i r. by apply full_but_last_lookup.
  - intros x. by apply tiles_cover.
  - intros i j r s. by eapply tiles_ordered.
Qed.

Lemma generate_mini_batches_partition_witness :
  exists l,
    generate_mini_batches 20000 20050 = Some l
    /\ tiles 20000 l 20050
    /\ full_but_last mini_batch_size l
    /\ Forall (fun r : Z * Z => 0 < r.2 - r.1 <= mini_batch_size) l
    /\ (forall i r, l !! i = Some r -> (S i < length l)%nat ->
          r.2 - r.1 = mini_batch_size)
    /\ (forall x, 20000 <= x < 20050 <-> exists r, r ∈ l /\ r.1 <= x < r.2)
    /\ (forall i j r s, (i < j)%nat -> l !! i = Some r -> l !! j = Some s ->
          r.2 <= s.1).
Proof.
  apply (generate_mini_batches_partition 20000 20050); [lia|].
  unfold mini_batch_size. lia.
Defined.

Example generate_mini_batches_50 :
  generate_mini_batches 20000 20050
  = Some [(20000, 20024); (20024, 20048); (20048, 20050)].
Proof. reflexivity. Qed.

Lemma generate_batches_plan `{PF : Platform} (ds : batch_learn_dataset) (g : rng) :
  0 <= n_examples (index ds) -> n_examples (index ds) + batch_size <= 2 ^ 64 ->
  exists batches,
    generate_batches ds false g = Some (batches, g)
    /\ tiles 0 batches (n_examples (index ds))
    /\ full_but_last batch_size batches
    /\ Forall (fun r : Z * Z => 0 < r.2 - r.1) batches
    /\ exists shuffled g',
         generate_batches ds true g = Some (shuffled, g')
         /\ shuffled ≡ₚ batches.
Proof.
  intros Hn Hmax.
  destruct (planner_partition batch_size 0 (n_examples (index ds)))
    as (l & Hl & Ht & Hf); [done|lia|done|].
  exists l. unfold generate_batches. rewrite Hl. split_and!; try done.
  - apply Forall_forall. intros r Hr. pose proof (tiles_bounds _ _ _ _ Ht Hr). lia.
  - destruct (shuffle l g) as [sh g'] eqn:E.
    exists sh, g'. split; [done|].
    change sh with (sh, g').1. rewrite <- E. apply shuffle_perm.
Qed.

(** C3: for [n_examples] with [n_examples + 20000] inside the range of
    [uint64_t], [generate_batches] without shuffling returns ranges that
    are contiguous and in ascending order from 0 to [n_examples], do not
    overlap, cover exactly [[0, n_examples)] and hold 20000 positions
    each, except the last, which may hold fewer; it leaves the engine
    untouched.  With shuffling it returns a permutation of those
    ranges. *)
Theorem generate_batches_partition `{PF : Platform} (ds : batch_learn_dataset) (g : rng) :
  0 <= n_examples (index ds) -> n_examples (index ds) + batch_size <= 2 ^ 64 ->
  exists batches,
    generate_batches ds false g = Some (batches, g)
    /\ tiles 0 batches (n_examples (index ds))
    /\ full_but_last batch_size batches
    /\ Forall (fun r : Z * Z => 0 < r.2 - r.1 <= batch_size) batches
    /\ (forall i r, batches !! i = Some r -> (S i < length batches)%nat ->
          r.2 - r.1 = batch_size)
    /\ (forall x, 0 <= x < n_examples (index ds) <->
          exists r, r ∈ batches /\ r.1 <= x < r.2)
    /\ (forall i j r s, (i < j)%nat -> batches !! i = Some r ->
          batches !! j = Some s -> r.2 <= s.1)
    /\ exists shuffled g',
         generate_batches ds true g = Some (shuffled, g')
         /\ shuffled ≡ₚ batches.
Proof.
  intros Hn Hmax.
  destruct (generate_batches_plan ds g Hn Hmax)
    as (l & Hgen & Ht & Hf & _ & Hshuffled).
  exists l. split_and!; try done.
  - destruct (full_but_last_sizes _ _ Hf) as [H|H]; [done|by compute in H].
  - intros i r. by apply full_but_last_lookup.
  - intros x. by apply tiles_cover.
  - intros i j r s. by eapply tiles_ordered.
Qed.

Lemma generate_batches_partition_witness :
  exists batches,
    @generate_batches demo_platform (Demo.demo_dataset 50000 20) false 7%nat
    = Some (batches, 7%nat)
    /\ tiles 0 batches 50000
    /\ full_but_last batch_size batches
    /\ Forall (fun r : Z * Z => 0 < r.2 - r.1 <= batch_size) batches
    /\ (forall i r, batches !! i = Some r -> (S i < length batches)%nat ->
          r.2 - r.1 = batch_size)
    /\ (forall x, 0 <= x < 50000 <-> exists r, r ∈ batches /\ r.1 <= x < r.2)
    /\ (forall i j r s, (i < j)%nat -> batches !! i = Some r ->
          batches !! j = Some s -> r.2 <= s.1)
    /\ exists shuffled g',
         @generate_batches demo_platform (Demo.demo_dataset 50000 20) true 7%nat
         = Some (shuffled, g')
         /\ shuffled ≡ₚ batches.
Proof.
  apply (@generate_batches_partition demo_platform (Demo.demo_dataset 50000 20) 7%nat).
  - simpl. lia.
  - simpl. unfold batch_size. lia.
Defined.

Example generate_batches_50000 :
  @generate_batches demo_platform (Demo.demo_dataset 50000 20) false 7%nat
  = Some ([(0, 20000); (20000, 40000); (40000, 50000)], 7%nat).
Proof. reflexivity. Qed.

Example generate_batches_50000_shuffled :
  @generate_batches demo_platform (Demo.demo_dataset 50000 20) true 3%nat
  = Some ([(0, 20000); (40000, 50000); (20000, 40000)], 5%nat).
Proof. reflexivity. Qed.

Example generate_batches_none :
  @generate_batches demo_platform (Demo.demo_dataset 0 20) false 7%nat
  = Some ([], 7%nat).
Proof. reflexivity. Qed.

(** Beyond that range the counter wraps: from [2 ^ 64 - 10] to
    [2 ^ 64 - 1] the first mini-batch ends at 14, and the loop goes on
    from there. *)
Remark range_loop_wraps fuel :
  range_loop (S fuel) mini_batch_size (2 ^ 64 - 10) (2 ^ 64 - 1)
  = match range_loop fuel mini_batch_size 14 (2 ^ 64 - 1) with
    | Some rest => Some ((2 ^ 64 - 10, 14) :: rest)
    | None => None
    end.
Proof. reflexivity. Qed.

(** ** Properties of the mask generator *)

Section MaskProps.
Context `{PF : Platform}.

Lemma store_eq (m : mem) p w : store m p w p = w.
Proof. unfold store. by rewrite Nat.eqb_refl. Qed.

Lemma store_ne (m : mem) p q w : q <> p -> store m p w q = m q.
Proof. unfold store. intros Hq. by destruct (Nat.eqb_spec q p). Qed.

Lemma fold_lor_draws (l : list nat) (w : Z) :
  fold_left Z.lor (map (fun i => wrap64 (default 0 (rdrand i))) l) w
  = Z.lor w (fold_left Z.lor (map (fun i => wrap64 (default 0 (rdrand i))) l) 0).
Proof.
  revert w. induction l as [|i l IH]; intros w; cbn [fold_left map].
  - by rewrite Z.lor_0_r.
  - rewrite IH, (IH (Z.lor 0 _)). by rewrite Z.lor_assoc.
Qed.

Lemma rand_word_ok p z from (m : mem) h :
  (forall i, (i < z)%nat -> rdrand (h + i) <> None) ->
  exists m',
    for_range z from (rand_word p) tt (m, h) = (Ok tt, (m', (h + z)%nat))
    /\ m' (Z.to_nat p) = Z.lor (m (Z.to_nat p)) (or_of_draws h z)
    /\ forall q, q <> Z.to_nat p -> m' q = m q.
Proof.
  revert from m h. induction z as [|z IH]; intros from m h Hok.
  - exists m. simpl. rewrite Nat.add_0_r. unfold or_of_draws. simpl.
    by rewrite Z.lor_0_r.
  - simpl. unfold rand_word at 1.
    destruct (rdrand h) as [v|] eqn:Hv.
    2:{ exfalso. apply (Hok 0%nat); [lia|]. by rewrite Nat.add_0_r. }
    unfold bind at 1 2. simpl. rewrite Hv. simpl.
    destruct (IH (from + 1) (store m (Z.to_nat p) (Z.lor (m (Z.to_nat p)) (wrap64 v))) (S h))
      as (m' & -> & Hp & Hq).
    { intros i Hi. replace (S h + i)%nat with (h + S i)%nat by lia. apply Hok. lia. }
    exists m'. split; [f_equal; f_equal; lia|]. split.
    + rewrite Hp, store_eq. unfold or_of_draws. simpl. rewrite Hv. simpl.
      rewrite (fold_lor_draws _ (wrap64 v)). by rewrite Z.lor_assoc.
    + intros q Hne. rewrite Hq by done. by apply store_ne.
Qed.

Lemma rand_word_fail p z from (m : mem) h j :
  (j < z)%nat -> rdrand (h + j) = None ->
  (forall i, (i < j)%nat -> rdrand (h + i) <> None) ->
  exists m',
    for_range z from (rand_word p) tt (m, h) = (Fatal rdrand_error, (m', S (h + j)))
    /\ forall q, q <> Z.to_nat p -> m' q = m q.
Proof.
  revert from m h j. induction z as [|z IH]; intros from m h j Hj Hnone Hok; [lia|].
  simpl. unfold rand_word at 1. destruct j as [|j].
  - rewrite Nat.add_0_r in Hnone. unfold bind at 1 2. simpl. rewrite Hnone. simpl.
    exists m. by rewrite Nat.add_0_r.
  - destruct (rdrand h) as [v|] eqn:Hv.
    2:{ exfalso. apply (Hok 0%nat); [lia|]. by rewrite Nat.add_0_r. }
    unfold bind at 1 2. simpl. rewrite Hv. simpl.
    destruct (IH (from + 1) (store m (Z.to_nat p) (Z.lor (m (Z.to_nat p)) (wrap64 v)))
                (S h) j) as (m' & -> & Hq).
    + lia.
    + by replace (S h + j)%nat with (h + S j)%nat by lia.
    + intros i Hi. replace (S h + i)%nat with (h + S i)%nat by lia. apply Hok. lia.
    + exists m'. split; [f_equal; f_equal; lia|].
      intros q Hne. rewrite Hq by done. by apply store_ne.
Qed.

(** The outer loop, from the word [p]. *)
Lemma rand_words_ok z n p (m : mem) h :
  (forall i, (i < n * z)%nat -> rdrand (h + i) <> None) ->
  exists m',
    for_range n (Z.of_nat p) (fun p _ => for_range z 0 (rand_word p) tt) tt (m, h)
    = (Ok tt, (m', (h + n * z)%nat))
    /\ forall q, m' q = if decide (p <= q < p + n)%nat
                        then Z.lor (m q) (or_of_draws (h + (q - p) * z) z)
                        else m q.
Proof.
  revert p m h. induction n as [|n IH]; intros p m h Hok.
  - exists m. simpl. rewrite Nat.add_0_r. split; [done|].
    intros q. destruct (decide _); [lia|done].
  - simpl.
    destruct (rand_word_ok (Z.of_nat p) z 0 m h) as (m1 & E1 & Hp & Hq).
    { intros i Hi. apply Hok. lia. }
    rewrite Nat2Z.id in Hp, Hq.
    rewrite (bind_ok _ _ _ _ _ E1).
    replace (Z.of_nat p + 1) with (Z.of_nat (S p)) by lia.
    destruct (IH (S p) m1 (h + z)%nat) as (m' & -> & Hm').
    { intros i Hi. replace (h + z + i)%nat with (h + (z + i))%nat by lia.
      apply Hok. lia. }
    exists m'. split; [f_equal; f_equal; lia|].
    intros q. rewrite Hm'.
    destruct (decide (S p <= q < S p + n)%nat) as [H1|H1].
    + rewrite decide_True by lia. rewrite Hq by lia.
      do 2 f_equal. replace (q - p)%nat with (S (q - S p)) by lia. lia.
    + destruct (decide (q = p)) as [->|Hne].
      * rewrite decide_True by lia. rewrite Hp.
        by rewrite Nat.sub_diag, Nat.mul_0_l, Nat.add_0_r.
      * rewrite decide_False by lia. by apply Hq.
Qed.

Lemma rand_words_fail z n p (m : mem) h j :
  (j < n * z)%nat -> rdrand (h + j) = None ->
  (forall i, (i < j)%nat -> rdrand (h + i) <> None) ->
  exists m',
    for_range n (Z.of_nat p) (fun p _ => for_range z 0 (rand_word p) tt) tt (m, h)
    = (Fatal rdrand_error, (m', S (h + j)))
    /\ forall q, (q < p \/ p + n <= q)%nat -> m' q = m q.
Proof.
  revert p m h j. induction n as [|n IH]; intros p m h j Hj Hnone Hok; [lia|].
  simpl. destruct (decide (j < z)%nat) as [Hjz|Hjz].
  - destruct (rand_word_fail (Z.of_nat p) z 0 m h j) as (m' & E & Hq); [done..|].
    rewrite Nat2Z.id in Hq.
    rewrite (bind_fatal _ _ _ _ _ E). exists m'. split; [done|].
    intros q Hr. apply Hq. lia.
  - destruct (rand_word_ok (Z.of_nat p) z 0 m h) as (m1 & E1 & Hp & Hq).
    { intros i Hi. apply Hok. lia. }
    rewrite Nat2Z.id in Hp, Hq.
    rewrite (bind_ok _ _ _ _ _ E1).
    replace (Z.of_nat p + 1) with (Z.of_nat (S p)) by lia.
    destruct (IH (S p) m1 (h + z)%nat (j - z)%nat) as (m' & -> & Hm').
    + simpl in Hj. lia.
    + by replace (h + z + (j - z))%nat with (h + j)%nat by lia.
    + intros i Hi. replace (h + z + i)%nat with (h + (z + i))%nat by lia.
      apply Hok. lia.
    + exists m'. split; [f_equal; f_equal; lia|].
      intros q Hr. rewrite Hm' by lia. apply Hq. lia.
Qed.

Lemma memset_words_spec (m : mem) c size p :
  0 <= size < 2 ^ 61 ->
  memset_words m c size p = if decide (p < Z.to_nat size)%nat then splat c else m p.
Proof.
  intros Hs. unfold memset_words. rewrite wrap64_small by lia.
  replace (size * 8 / 8) with size by (by rewrite Z.div_mul).
  destruct (Z.ltb_spec (Z.of_nat p) size); destruct (decide _); try done; lia.
Qed.

Lemma fill_mask_rand_fills (mask : mem) (size zero_prob_log : Z) (h : nat) :
  0 <= size < 2 ^ 31 ->
  let n := Z.to_nat size in
  let z := Z.to_nat zero_prob_log in
  (forall i, (i < n * z)%nat -> rdrand (h + i) <> None) ->
  exists mask',
    fill_mask_rand size zero_prob_log (mask, h) = (Ok tt, (mask', (h + n * z)%nat))
    /\ forall p, mask' p = if decide (p < n)%nat
                          then or_of_draws (h + p * z) z
                          else mask p.
Proof.
  intros Hsize n z Hok. unfold fill_mask_rand.
  destruct (rand_words_ok z n 0 (memset_words mask 0 size) h Hok) as (m' & E & Hm').
  exists m'. split.
  - unfold bind at 1. simpl. exact E.
  - intros p. rewrite Hm', memset_words_spec by lia. fold n.
    destruct (decide (p < n)%nat); [|by rewrite decide_False by lia].
    rewrite decide_True by lia. simpl. by rewrite Nat.sub_0_r.
Qed.

Lemma fill_mask_rand_throws (mask : mem) (size zero_prob_log : Z) (h j : nat) :
  0 <= size < 2 ^ 31 ->
  let n := Z.to_nat size in
  let z := Z.to_nat zero_prob_log in
  (j < n * z)%nat -> rdrand (h + j) = None ->
  (forall i, (i < j)%nat -> rdrand (h + i) <> None) ->
  exists mask',
    fill_mask_rand size zero_prob_log (mask, h)
    = (Fatal rdrand_error, (mask', S (h + j)))
    /\ forall p, (n <= p)%nat -> mask' p = mask p.
Proof.
  intros Hsize n z Hj Hnone Hok. unfold fill_mask_rand.
  destruct (rand_words_fail z n 0 (memset_words mask 0 size) h j Hj Hnone Hok)
    as (m' & E & Hm').
  exists m'. split.
  - unfold bind at 1. simpl. exact E.
  - intros p Hp. rewrite Hm' by lia. rewrite memset_words_spec by lia. fold n.
    by rewrite decide_False by lia.
Qed.

(** C8: [fill_mask_rand] on [size] words with [zero_prob_log] draws a
    word.  When every one of the [size * zero_prob_log] executions of the
    entropy instruction gives a value, the call returns after exactly
    that many executions, and each of the [size] words is the OR of its
    own [zero_prob_log] consecutive draws and of nothing else (the words
    were cleared first); the memory beyond is untouched.  When one of
    them gives no value, the call throws at the first such execution:
    no further execution follows, and nothing outside the [size] words
    has been written. *)
Theorem fill_mask_rand_spec (mask : mem) (size zero_prob_log : Z) (h : nat) :
  0 <= size < 2 ^ 31 -> 0 <= zero_prob_log ->
  let n := Z.to_nat size in
  let z := Z.to_nat zero_prob_log in
  ((forall i, (i < n * z)%nat -> rdrand (h + i) <> None) ->
   exists mask',
     fill_mask_rand size zero_prob_log (mask, h) = (Ok tt, (mask', (h + n * z)%nat))
     /\ forall p, mask' p = if decide (p < n)%nat
                           then or_of_draws (h + p * z) z
                           else mask p)
  /\ (forall j, (j < n * z)%nat -> rdrand (h + j) = None ->
      (forall i, (i < j)%nat -> rdrand (h + i) <> None) ->
      exists mask',
        fill_mask_rand size zero_prob_log (mask, h)
        = (Fatal rdrand_error, (mask', S (h + j)))
        /\ forall p, (n <= p)%nat -> mask' p = mask p).
Proof.
  intros Hsize Hz n z. split.
  - by apply fill_mask_rand_fills.
  - intros j. by apply fill_mask_rand_throws.
Qed.

End MaskProps.

Lemma fill_mask_rand_spec_witness :
  let n := Z.to_nat 2 in
  let z := Z.to_nat 3 in
  ((forall i, (i < n * z)%nat -> @rdrand demo_platform (0 + i) <> None) ->
   exists mask',
     @fill_mask_rand demo_platform 2 3 (fun _ => 5, O) = (Ok tt, (mask', (0 + n * z)%nat))
     /\ forall p, mask' p = if decide (p < n)%nat
                           then @or_of_draws demo_platform (0 + p * z) z
                           else 5)
  /\ (forall j, (j < n * z)%nat -> @rdrand demo_platform (0 + j) = None ->
      (forall i, (i < j)%nat -> @rdrand demo_platform (0 + i) <> None) ->
      exists mask',
        @fill_mask_rand demo_platform 2 3 (fun _ => 5, O)
        = (Fatal rdrand_error, (mask', S (0 + j)))
        /\ forall p, (n <= p)%nat -> mask' p = 5).
Proof.
  apply (@fill_mask_rand_spec demo_platform (fun _ => 5) 2 3 O); lia.
Defined.

(** With the draws 1, 2, ..., two words of three draws each are
    [1 | 2 | 3] and [4 | 5 | 6]. *)
Example fill_mask_rand_steady :
  let r := @fill_mask_rand demo_platform 2 3 (fun _ => 5, O) in
  r.1 = Ok tt /\ r.2.2 = 6%nat
  /\ r.2.1 0%nat = 3 /\ r.2.1 1%nat = 7 /\ r.2.1 2%nat = 5.
Proof. by vm_compute. Qed.

(** When the fifth execution fails, the call throws there. *)
Example fill_mask_rand_failing :
  let r := @fill_mask_rand (Demo.platform (Demo.failing_at 4) Demo.files) 2 3
             (fun _ => 5, O) in
  r.1 = Fatal rdrand_error /\ r.2.2 = 5%nat
  /\ r.2.1 0%nat = 3 /\ r.2.1 1%nat = 4 /\ r.2.1 2%nat = 5.
Proof. by vm_compute. Qed.

(** *** A fill that has returned *)

Lemma to_int32_range (x : Z) : - 2 ^ 31 <= to_int32 x < 2 ^ 31.
Proof.
  unfold to_int32. pose proof (Z.mod_pos_bound (x + 2 ^ 31) (2 ^ 32)). lia.
Qed.

(** Of the draws from [h] on, either the first [n] all give a value or
    there is a first one that fails. *)
Lemma draws_cases `{PF : Platform} (h n : nat) :
  (forall i, (i < n)%nat -> rdrand (h + i) <> None)
  \/ exists j, (j < n)%nat /\ rdrand (h + j) = None
               /\ forall i, (i < j)%nat -> rdrand (h + i) <> None.
Proof.
  induction n as [|n [Hall|(j & Hj & Hnone & Hbefore)]].
  - left. lia.
  - destruct (rdrand (h + n)) as [v|] eqn:E.
    + left. intros i Hi. destruct (decide (i = n)) as [->|Hne]; [by rewrite E|].
      apply Hall. lia.
    + right. exists n. split_and!; [lia|done|done].
  - right. exists j. split_and!; [lia|done|done].
Qed.

(** When a fill with an [int] size has returned, every draw it made has
    given a value and every word is the OR of its own draws. *)
Lemma fill_mask_rand_ok_inv `{PF : Platform} (mask : mem) (size zero_prob_log : Z)
    (h : nat) mask' h' :
  - 2 ^ 31 <= size < 2 ^ 31 ->
  fill_mask_rand size zero_prob_log (mask, h) = (Ok tt, (mask', h')) ->
  drawn_mask (Z.to_nat zero_prob_log) (Z.to_nat size) h mask'.
Proof.
  intros Hsize E p Hp. assert (0 <= size < 2 ^ 31) as Hs by lia.
  destruct (draws_cases h (Z.to_nat size * Z.to_nat zero_prob_log))
    as [Hall|(j & Hj & Hnone & Hbefore)].
  - destruct (fill_mask_rand_fills mask size zero_prob_log h Hs Hall)
      as (mask'' & E' & Hmask).
    rewrite E' in E. injection E as <- _. split.
    + intros i Hi.
      replace (h + p * Z.to_nat zero_prob_log + i)%nat
        with (h + (p * Z.to_nat zero_prob_log + i))%nat by lia.
      apply Hall. nia.
    + rewrite Hmask. by apply decide_True.
  - destruct (fill_mask_rand_throws mask size zero_prob_log h j Hs Hj Hnone Hbefore)
      as (mask'' & E' & _).
    rewrite E' in E. discriminate E.
Qed.

(** ** The parallel loop and its reduction *)

Lemma sumR_cons x l : sumR (x :: l) = (x + sumR l)%R.
Proof. done. Qed.

Lemma sumZ_cons x l : sumZ (x :: l) = x + sumZ l.
Proof. done. Qed.

Lemma sumZ_perm (l l' : list Z) : l ≡ₚ l' -> sumZ l = sumZ l'.
Proof. induction 1; rewrite ?sumZ_cons; lia. Qed.

Lemma sumZ_app (l l' : list Z) : sumZ (l ++ l') = sumZ l + sumZ l'.
Proof. induction l as [|x l IH]; [done|]. rewrite <- app_comm_cons, !sumZ_cons. lia. Qed.

Lemma sumR_app (l l' : list R) : sumR (l ++ l') = (sumR l + sumR l')%R.
Proof.
  induction l as [|x l IH]; [unfold sumR at 2; simpl; lra|].
  rewrite <- app_comm_cons, !sumR_cons, IH. lra.
Qed.

Lemma reduce_loss_sum (privates : list (R * Z)) :
  reduce_loss privates = sumR privates.*1.
Proof.
  unfold reduce_loss.
  assert (forall a, fold_left (fun loss acc => (loss + acc.1)%R) privates a
                    = (a + sumR privates.*1)%R) as Hgen.
  { induction privates as [|x l IH]; intros a.
    - unfold sumR. simpl. lra.
    - cbn [fold_left]. rewrite IH, fmap_cons, sumR_cons. lra. }
  rewrite Hgen. lra.
Qed.

Lemma reduce_cnt_sum (m : Z) (wrap : Z -> Z) (privates : list (R * Z)) :
  (forall x, wrap x = x mod m) ->
  reduce_cnt wrap privates = sumZ privates.*2 mod m \/ privates = [].
Proof.
  intros Hw. unfold reduce_cnt. destruct privates as [|x0 l0]; [by right|left].
  assert (forall (l : list (R * Z)) a, l <> [] ->
            fold_left (fun cnt acc => wrap (cnt + acc.2)) l a
            = (a + sumZ l.*2) mod m) as Hgen.
  { induction l as [|x l IH]; intros a Hne; [done|]. cbn [fold_left].
    rewrite fmap_cons, sumZ_cons. destruct l as [|y l].
    - simpl. rewrite Hw. f_equal. unfold sumZ. simpl. lia.
    - rewrite IH by done. rewrite Hw.
      rewrite Zplus_mod_idemp_l. f_equal. lia. }
  by rewrite Hgen.
Qed.

Lemma sumR_insert (l : list (R * Z)) t a a' :
  l !! t = Some a -> sumR (<[t := a']> l).*1 = (sumR l.*1 - a.1 + a'.1)%R.
Proof.
  revert t. induction l as [|x l IH]; intros [|t] Ht; try done.
  - injection Ht as ->. cbn [insert list_insert]. rewrite !fmap_cons, !sumR_cons. lra.
  - cbn [insert list_insert]. rewrite !fmap_cons, !sumR_cons.
    setoid_rewrite (IH t Ht). lra.
Qed.

Lemma sumZ_insert (l : list (R * Z)) t a a' :
  l !! t = Some a -> sumZ (<[t := a']> l).*2 = sumZ l.*2 - a.2 + a'.2.
Proof.
  revert t. induction l as [|x l IH]; intros [|t] Ht; try done.
  - injection Ht as ->. cbn [insert list_insert]. rewrite !fmap_cons, !sumZ_cons. lia.
  - cbn [insert list_insert]. rewrite !fmap_cons, !sumZ_cons.
    setoid_rewrite (IH t Ht). lia.
Qed.

Lemma sum_replicate_zero n :
  sumR (replicate n (0%R, 0)).*1 = 0%R /\ sumZ (replicate n (0%R, 0)).*2 = 0.
Proof.
  induction n as [|n [IH1 IH2]]; [done|]. cbn [replicate].
  rewrite !fmap_cons, sumR_cons, sumZ_cons, IH1, IH2. simpl. split; [lra|lia].
Qed.

(** The loop with a team of at least one thread, a claim order that
    names threads of the team only, and a body that adds its own share
    of loss and [dc bi] to the private pair it is given: the reduced
    loss is the total the invariant has followed, and the reduced count
    is the sum of the shares of the claimed iterations, reduced in the
    type of [cnt]. *)
Lemma wp_parallel_for {S} (m : Z) (wrap : Z -> Z) (dc : nat -> Z)
    (Inv : list nat -> R -> S -> Prop) threads claims
    (body : nat -> R * Z -> prog S (R * Z)) s :
  0 < m -> (forall x, wrap x = x mod m) ->
  (0 < threads)%nat ->
  Forall (fun c : nat * nat => (c.1 < threads)%nat) claims ->
  Inv [] 0%R s ->
  (forall seen bi acc tot s, bi ∈ claims.*2 -> Inv seen tot s ->
     wp (body bi acc)
        (fun acc' s' => exists dl, acc' = ((acc.1 + dl)%R, wrap (acc.2 + dc bi))
                                   /\ Inv (seen ++ [bi]) (tot + dl)%R s') s) ->
  wp (parallel_for threads claims body)
     (fun privates s' => Inv claims.*2 (reduce_loss privates) s'
                         /\ reduce_cnt wrap privates = sumZ (dc <$> claims.*2) mod m) s.
Proof.
  intros Hm Hw Hthreads Hclaims H0 Hbody. unfold parallel_for.
  rewrite (Nat.max_r 1 threads) by lia.
  eapply wp_mono;
    [|apply (wp_foreach
               (fun (seen : list (nat * nat)) privates s =>
                  length privates = threads
                  /\ Inv seen.*2 (sumR privates.*1) s
                  /\ sumZ privates.*2 mod m = sumZ (dc <$> seen.*2) mod m))].
  - intros privates s' (Hlen & Hinv & Hcnt). simpl in *.
    rewrite reduce_loss_sum. split; [done|].
    destruct (reduce_cnt_sum m wrap privates Hw) as [->| ->]; [done|].
    simpl in Hlen. lia.
  - destruct (sum_replicate_zero threads) as [E1 E2].
    rewrite length_replicate, E1, E2. by split_and!.
  - intros seen [t bi] rest privates s' El (Hlen & Hinv & Hcnt).
    assert (t < threads)%nat as Ht.
    { rewrite Forall_forall in Hclaims. apply (Hclaims (t, bi)).
      rewrite El. apply elem_of_app. right. left. }
    assert (bi ∈ claims.*2) as Hbi.
    { rewrite El, fmap_app. apply elem_of_app. right. simpl. left. }
    destruct (lookup_lt_is_Some_2 privates t) as [acc Hacc]; [lia|].
    rewrite Hacc. apply wp_bind.
    eapply wp_mono; [|by apply (Hbody seen.*2 bi acc (sumR privates.*1) s')].
    intros acc' s'' (dl & -> & Hinv'). apply wp_ret.
    rewrite length_insert, fmap_app. simpl. split_and!; [done| |].
    + rewrite (sumR_insert _ _ _ _ Hacc). simpl.
      replace (sumR privates.*1 - acc.1 + (acc.1 + dl))%R
        with (sumR privates.*1 + dl)%R by lra.
      done.
    + rewrite (sumZ_insert _ _ _ _ Hacc). simpl.
      rewrite fmap_app, sumZ_app. simpl. rewrite Hw.
      replace (sumZ privates.*2 - acc.2 + (acc.2 + dc bi) mod m)
        with ((acc.2 + dc bi) mod m + (sumZ privates.*2 - acc.2)) by lia.
      rewrite Zplus_mod_idemp_l.
      replace (acc.2 + dc bi + (sumZ privates.*2 - acc.2))
        with (sumZ privates.*2 + (dc bi + 0)) by lia.
      rewrite <- Zplus_mod_idemp_l, Hcnt, Zplus_mod_idemp_l. done.
Qed.

(** The shares of the batches add up to the number of examples. *)
Lemma tiles_sum a l b : tiles a l b -> sumZ (range_size <$> l) = b - a.
Proof.
  induction 1 as [|a e l b Hlt Ht IH]; [unfold sumZ; simpl; lia|].
  rewrite fmap_cons, sumZ_cons, IH. unfold range_size. simpl. lia.
Qed.

Lemma sum_over_schedule {A} (f : A -> Z) (l : list A) (claimed : list nat) :
  claimed ≡ₚ seq 0 (length l) ->
  sumZ ((fun bi => default 0 (f <$> l !! bi)) <$> claimed) = sumZ (f <$> l).
Proof.
  intros Hp. rewrite (sumZ_perm _ _ (fmap_Permutation _ _ _ Hp)). f_equal.
  clear Hp claimed.
  induction l as [|x l IH] using rev_ind; [done|].
  rewrite length_app. simpl. rewrite Nat.add_1_r, seq_S, !fmap_app. simpl.
  rewrite lookup_app_r by lia. rewrite Nat.sub_diag. simpl. f_equal.
  rewrite <- IH. apply list_fmap_ext. intros i bi Hbi.
  apply lookup_seq in Hbi as [-> Hlt]. simpl.
  by rewrite lookup_app_l by lia.
Qed.

(** ** Properties of evaluation *)

Lemma fill_mask_ones_word (mask : mem) (size : Z) (p : nat) :
  0 <= size <= dropout_mask_max_size -> (p < Z.to_nat size)%nat ->
  fill_mask_ones mask size p = all_ones.
Proof.
  intros Hs Hp. unfold fill_mask_ones, dropout_mask_max_size in *.
  rewrite memset_words_spec by lia. by rewrite decide_True.
Qed.

Lemma all_ones_testbit (b : Z) : 0 <= b < 64 -> Z.testbit all_ones b = true.
Proof.
  intros Hb. unfold all_ones.
  replace (2 ^ 64 - 1) with (Z.ones 64) by reflexivity.
  apply Z.ones_spec_low. lia.
Qed.

Lemma fill_mask_ones_max `{PF : Platform} : ones_mask (fill_mask_ones uninit dropout_mask_max_size).
Proof. intros p Hp. apply fill_mask_ones_word; [by compute|done]. Qed.

Section EvalProps.
Context {M : Type} `{MD : Model M} `{PF : Platform}.

#[local] Abbreviation EF := (@eval_frame M PF).

#[local] Instance eval_frame_preorder : PreOrder (@eval_frame M PF).
Proof.
  split.
  - intros w. split_and!; try done. exists []. by rewrite app_nil_r.
  - intros w1 w2 w3 (Hm1 & Hr1 & Hh1 & Ht1 & evs1 & Hl1 & He1)
      (Hm2 & Hr2 & Hh2 & Ht2 & evs2 & Hl2 & He2).
    split_and!; try congruence.
    exists (evs1 ++ evs2). split; [by rewrite Hl2, Hl1, app_assoc|by apply Forall_app].
Qed.

#[local] Instance lifted_preorder {S X} (R : S -> S -> Prop) `{!PreOrder R} :
  PreOrder (@lifted S X R).
Proof.
  split.
  - intros s. unfold lifted. reflexivity.
  - intros s1 s2 s3. unfold lifted. intros. by etransitivity.
Qed.

Lemma preserves_on_fst {S X A} (R : S -> S -> Prop) (c : prog S A) :
  preserves R c -> preserves (@lifted S X R) (on_fst c).
Proof.
  intros Hc [s x]. unfold on_fst, lifted. specialize (Hc s).
  by destruct (c s) as [o s'].
Qed.

Lemma preserves_with_local {A X} (R : world M -> world M -> Prop) (x : X)
    (c : prog (world M * X) A) :
  preserves (lifted R) c -> preserves R (with_local x c).
Proof.
  intros Hc w. unfold with_local. specialize (Hc (w, x)). unfold lifted in Hc.
  by destruct (c (w, x)) as [[a|msg|] [w' x']].
Qed.

Lemma preserves_parallel_for {S} (Rel : S -> S -> Prop) `{!PreOrder Rel} threads claims
    (body : nat -> R * Z -> prog S (R * Z)) :
  (forall bi acc, preserves Rel (body bi acc)) ->
  preserves Rel (parallel_for threads claims body).
Proof.
  intros Hb. unfold parallel_for. apply preserves_foreach; [done|].
  intros [t bi] privates. destruct (privates !! t) as [acc|].
  - apply preserves_bind; [done|apply Hb|]. intros. pres_ret.
  - pres_ret.
Qed.

Lemma eval_frame_log (w : world M) e :
  eval_event e -> eval_frame w (log e w).2.
Proof.
  intros He. split_and!; try done. exists [e]. split; [done|]. by constructor.
Qed.

Lemma generate_batches_no_shuffle ds g batches g' :
  generate_batches ds false g = Some (batches, g') -> g' = g.
Proof.
  unfold generate_batches. destruct (range_loop _ _ _ _); [|done]. congruence.
Qed.

Lemma eval_frame_batches ds : preserves EF (dataset_batches ds false).
Proof.
  intros w. unfold dataset_batches, bind, get, finished.
  destruct (generate_batches ds false (w_rnd w)) as [[batches g]|] eqn:E; simpl.
  - apply generate_batches_no_shuffle in E as ->.
    split_and!; try done. exists []. by rewrite app_nil_r.
  - reflexivity.
Qed.

Lemma eval_frame_example ds mask bf bso ei loss :
  ones_mask mask ->
  preserves (lifted EF) (evaluate_example ds mask bf bso ei loss).
Proof.
  intros Hmask [w predictions]. unfold lifted. simpl.
  apply eval_frame_log. by split.
Qed.

Lemma eval_frame_batch ds mask batches bi acc :
  ones_mask mask ->
  preserves (lifted EF) (evaluate_batch ds mask batches bi acc).
Proof.
  intros Hmask. unfold evaluate_batch.
  destruct (batches !! bi) as [[bs be]|]; [|pres_ret].
  apply preserves_bind; [apply _| |].
  - apply preserves_on_fst. intros w. by apply eval_frame_log.
  - intros _. apply preserves_bind; [apply _| |].
    + apply preserves_for_range; [apply _|]. intros. by apply eval_frame_example.
    + intros. pres_ret.
Qed.

Lemma eval_frame_next_loop : preserves EF (@next_loop M PF).
Proof. intros w. split_and!; try done. exists []. by rewrite app_nil_r. Qed.

(** Evaluation, whatever its outcome, keeps the frame. *)
Lemma evaluate_on_dataset_frame ds : preserves EF (evaluate_on_dataset ds).
Proof.
  unfold evaluate_on_dataset.
  apply preserves_bind; [apply _|intros w; by apply eval_frame_log|intros _].
  apply preserves_bind; [apply _|apply eval_frame_batches|intros batches].
  apply preserves_bind; [apply _|apply preserves_get; apply _|intros w].
  apply preserves_bind; [apply _|apply eval_frame_next_loop|intros l].
  apply preserves_bind; [apply _| |intros [privates predictions]].
  - apply preserves_with_local. apply preserves_parallel_for; [apply _|].
    intros. apply eval_frame_batch. apply fill_mask_ones_max.
  - apply preserves_bind; [apply _|intros w'; by apply eval_frame_log|intros _].
    pres_ret.
Qed.

Lemma schedule_claims_lt t n claims bi :
  valid_schedule t n claims -> bi ∈ claims.*2 -> (bi < n)%nat.
Proof.
  intros [Hp _] Hbi. rewrite Hp in Hbi. apply elem_of_seq in Hbi. lia.
Qed.

(** One batch of evaluation: the slots of the batch receive the
    probabilities of its examples, the other slots keep their content,
    the model is not touched, and the private count grows by the size of
    the batch, in [uint32_t]. *)
Lemma wp_evaluate_batch ds batches bi b acc (w : world M) (p : Z -> R) :
  batches !! bi = Some b -> b.1 <= b.2 ->
  let mask := fill_mask_ones uninit dropout_mask_max_size in
  wp (evaluate_batch ds mask batches bi acc)
     (fun acc' s' =>
        (exists dl, acc' = ((acc.1 + dl)%R, wrap32 (acc.2 + range_size b)))
        /\ w_model s'.1 = w_model w
        /\ (forall ei, b.1 <= ei < b.2 ->
              s'.2 ei = (1 / (1 + exp (- eval_score (w_model w) ds b ei)))%R)
        /\ (forall ei, ~ b.1 <= ei < b.2 -> s'.2 ei = p ei))
     (w, p).
Proof.
  intros Hb Hle mask. unfold evaluate_batch. rewrite Hb. destruct b as [bs be].
  simpl in Hle. apply wp_bind. unfold on_fst, log, modify. simpl.
  apply wp_bind.
  eapply wp_mono;
    [|apply (wp_for_range
               (fun i (loss : R) (s' : world M * (Z -> R)) =>
                  w_model s'.1 = w_model w
                  /\ (forall ei, bs <= ei < bs + Z.of_nat i ->
                        s'.2 ei = (1 / (1 + exp (- eval_score (w_model w) ds (bs, be) ei)))%R)
                  /\ (forall ei, ~ bs <= ei < bs + Z.of_nat i -> s'.2 ei = p ei)))].
  - intros loss [w' p'] (Hm & Hin & Hout). apply wp_ret. simpl in *.
    split_and!; [|done| |].
    + exists (loss - acc.1)%R. unfold range_size. simpl. f_equal. lra.
    + intros ei Hei. apply Hin. lia.
    + intros ei Hei. apply Hout. lia.
  - simpl. split_and!; [done| |done]. intros ei Hei. lia.
  - intros i loss [w' p'] Hi (Hm & Hin & Hout). simpl in *.
    unfold wp, evaluate_example, bind, get, on_fst, log, modify. simpl.
    split_and!; [done| |].
    + intros ei Hei. destruct (Z.eqb_spec ei (bs + Z.of_nat i)) as [->|Hne].
      * by rewrite Hm.
      * apply Hin. lia.
    + intros ei Hei. destruct (Z.eqb_spec ei (bs + Z.of_nat i)) as [->|Hne]; [lia|].
      apply Hout. lia.
Qed.

Lemma batches_disjoint (batches : list (Z * Z)) a n bi bj b b' ei :
  tiles a batches n -> batches !! bi = Some b -> batches !! bj = Some b' ->
  b.1 <= ei < b.2 -> b'.1 <= ei < b'.2 -> b = b'.
Proof.
  intros Ht Hb Hb' Hei Hei'.
  destruct (Nat.lt_trichotomy bi bj) as [Hlt|[->|Hlt]].
  - pose proof (tiles_ordered _ _ _ _ _ _ _ Ht Hlt Hb Hb'). lia.
  - congruence.
  - pose proof (tiles_ordered _ _ _ _ _ _ _ Ht Hlt Hb' Hb). lia.
Qed.

(** Evaluation returns; the count it prints is the number of examples
    reduced to 32 bits, and every slot of [predictions] holds the
    probability of its example. *)
Lemma evaluate_on_dataset_total ds (w : world M) :
  0 <= n_examples (index ds) -> n_examples (index ds) + batch_size <= 2 ^ 64 ->
  (0 < w_threads w)%nat ->
  (forall n, valid_schedule (w_threads w) n (omp_schedule (w_loops w) (w_threads w) n)) ->
  exists loss cnt predictions w' batches,
    evaluate_on_dataset ds w = (Ok (loss, cnt, predictions), w')
    /\ generate_batches ds false (w_rnd w) = Some (batches, w_rnd w)
    /\ cnt = wrap32 (n_examples (index ds))
    /\ (forall b ei, b ∈ batches -> b.1 <= ei < b.2 ->
          predictions ei = (1 / (1 + exp (- eval_score (w_model w) ds b ei)))%R)
    /\ exists evs, w_log w' = w_log w ++ evs
                   /\ last evs = Some (EvConsole (Report cnt (loss / IZR cnt))).
Proof.
  intros Hn Hmax Hthreads Hsched.
  destruct (generate_batches_plan ds (w_rnd w) Hn Hmax)
    as (batches & Hgen & Ht & _ & Hsizes & _).
  set (mask := fill_mask_ones uninit dropout_mask_max_size).
  set (w1 := (log (EvConsole Evaluating) w).2).
  set (w2 := (next_loop w1).2).
  pose proof (wp_parallel_for (2 ^ 32) wrap32
                (fun bi => default 0 (range_size <$> batches !! bi))
                (fun seen (_ : R) (s' : world M * (Z -> R)) =>
                   w_model s'.1 = w_model w
                   /\ forall bi b ei, bi ∈ seen -> batches !! bi = Some b ->
                        b.1 <= ei < b.2 ->
                        s'.2 ei = (1 / (1 + exp (- eval_score (w_model w) ds b ei)))%R)
                (w_threads w) (omp_schedule (w_loops w) (w_threads w) (length batches))
                (evaluate_batch ds mask batches) (w2, fun _ => 0%R)) as Hpar.
  destruct (Hsched (length batches)) as [Hperm Hteam].
  apply wp_elim in Hpar as (privates & [w3 predictions] & Epar & (Hm3 & Hpred) & Hcnt);
    [|lia|done|done|done| |].
  - exists (reduce_loss privates), (reduce_cnt wrap32 privates), predictions.
    eexists. exists batches. split_and!.
    + unfold evaluate_on_dataset, dataset_batches.
      unfold bind at 1. simpl. unfold bind at 1. unfold bind at 1. simpl.
      rewrite Hgen. simpl. unfold bind at 1. simpl. unfold bind at 1. simpl.
      unfold bind at 1. simpl. unfold bind at 1. unfold with_local.
      fold mask. change (w_threads w) with (w_threads w1) in Epar.
      unfold w2, w1 in Epar. simpl in Epar. rewrite Epar. simpl. reflexivity.
    + done.
    + rewrite Hcnt. rewrite (sum_over_schedule range_size batches _ Hperm).
      rewrite (tiles_sum _ _ _ Ht). unfold wrap32. f_equal. lia.
    + intros b ei Hb Hei. apply list_elem_of_lookup in Hb as [bi Hb].
      apply (Hpred bi); [|done..]. rewrite Hperm. apply elem_of_seq.
      apply lookup_lt_Some in Hb. lia.
    + simpl.
      pose proof (preserves_parallel_for (lifted EF) (w_threads w)
                    (omp_schedule (w_loops w) (w_threads w) (length batches))
                    (evaluate_batch ds mask batches)
                    (fun bi acc => eval_frame_batch ds mask batches bi acc
                                     fill_mask_ones_max) (w2, fun _ => 0%R)) as Hfr.
      rewrite Epar in Hfr. destruct Hfr as (_ & _ & _ & _ & evs & Hl3 & _).
      simpl in Hl3. rewrite Hl3.
      eexists. split; [by rewrite <- !app_assoc|].
      by rewrite !app_assoc, last_snoc.
  - simpl. split; [done|].
    intros bi b ei Hbi. by apply elem_of_nil in Hbi.
  - intros seen bi acc tot [w' p'] Hbi (Hm & Hpred). simpl in *.
    assert (bi < length batches)%nat as Hlt by (by eapply schedule_claims_lt).
    destruct (lookup_lt_is_Some_2 batches bi Hlt) as [b Hb].
    assert (b.1 <= b.2) as Hle.
    { rewrite Forall_forall in Hsizes. apply list_elem_of_lookup_2 in Hb.
      specialize (Hsizes b Hb). simpl in Hsizes. lia. }
    eapply wp_mono; [|by apply (wp_evaluate_batch ds batches bi b acc w' p')].
    intros acc' [w'' p''] ((dl & ->) & Hm' & Hin & Hout). simpl in *.
    exists dl. rewrite Hb. simpl. split; [done|]. split.
    + congruence.
    + intros bj b' ei Hbj Hb' Hei.
      apply elem_of_app in Hbj as [Hbj|Hbj].
      * destruct (decide (b.1 <= ei < b.2)) as [Hin'|Hout'].
        -- rewrite (batches_disjoint _ _ _ _ _ _ _ _ Ht Hb' Hb Hei Hin').
           rewrite Hin by done. by rewrite Hm.
        -- rewrite Hout by done. by eapply Hpred.
      * apply list_elem_of_singleton in Hbj as ->.
        assert (b' = b) as -> by congruence.
        rewrite Hin by done. by rewrite Hm.
Qed.

(** C7: evaluation plans its batches without shuffling and leaves the
    engine as it found it; it draws no random mask; it does not change
    the model and appends to the log nothing but console lines, batch
    reads and calls of [predict] with multiplier 1 and a mask whose 4000
    words have every bit set, so no call of [update]; [fill_mask_ones]
    sets every bit of the words it is asked to fill, for any size up to
    the capacity; and when it returns, the slot of [predictions] at each
    example's ordinal holds [1 / (1 + exp (- t))] for the score [t] of
    that example. *)
Theorem evaluate_on_dataset_spec ds (w : world M) :
  0 <= n_examples (index ds) -> n_examples (index ds) + batch_size <= 2 ^ 64 ->
  (0 < w_threads w)%nat ->
  (forall n, valid_schedule (w_threads w) n (omp_schedule (w_loops w) (w_threads w) n)) ->
  exists loss cnt predictions w' batches,
    evaluate_on_dataset ds w = (Ok (loss, cnt, predictions), w')
    /\ generate_batches ds false (w_rnd w) = Some (batches, w_rnd w)
    /\ w_model w' = w_model w /\ w_rnd w' = w_rnd w /\ w_hw w' = w_hw w
    /\ (exists evs, w_log w' = w_log w ++ evs /\ Forall eval_event evs)
    /\ (forall mask size p b,
          0 <= size <= dropout_mask_max_size -> (p < Z.to_nat size)%nat ->
          0 <= b < 64 -> Z.testbit (fill_mask_ones mask size p) b = true)
    /\ (forall ei, 0 <= ei < n_examples (index ds) ->
          exists b, b ∈ batches /\ b.1 <= ei < b.2
                    /\ predictions ei
                       = (1 / (1 + exp (- eval_score (w_model w) ds b ei)))%R).
Proof.
  intros Hn Hmax Hthreads Hsched.
  destruct (evaluate_on_dataset_total ds w Hn Hmax Hthreads Hsched)
    as (loss & cnt & predictions & w' & batches & E & Hgen & _ & Hpred & _).
  pose proof (evaluate_on_dataset_frame ds w) as Hfr. rewrite E in Hfr.
  destruct Hfr as (Hm & Hr & Hh & _ & Hlog).
  exists loss, cnt, predictions, w', batches. split_and!; try done.
  - intros mask size p b Hsize Hp Hb.
    rewrite fill_mask_ones_word by done. by apply all_ones_testbit.
  - intros ei Hei.
    destruct (generate_batches_plan ds (w_rnd w) Hn Hmax)
      as (batches' & Hgen' & Ht & _).
    assert (batches' = batches) as -> by congruence.
    apply (tiles_cover _ _ _ _ Ht) in Hei as (b & Hb & Hei). exists b. split_and!; try done; try lia.
    apply Hpred; [done|lia].
Qed.

End EvalProps.

Lemma round_robin_valid t n : (0 < t)%nat -> valid_schedule t n (Demo.round_robin t n).
Proof.
  intros Ht. unfold valid_schedule, Demo.round_robin. split.
  - rewrite <- list_fmap_compose. by rewrite list_fmap_id.
  - apply Forall_fmap, Forall_forall. intros bi _. simpl.
    apply Nat.mod_upper_bound. lia.
Qed.

Lemma evaluate_on_dataset_spec_witness :
  exists loss cnt predictions w' batches,
    @evaluate_on_dataset nat (Demo.constant_model 64) demo_platform
      (Demo.demo_dataset 3 20) (Demo.start demo_platform 0%nat 2)
    = (Ok (loss, cnt, predictions), w')
    /\ @generate_batches demo_platform (Demo.demo_dataset 3 20) false 0%nat
       = Some (batches, 0%nat)
    /\ w_model w' = 0%nat /\ w_rnd w' = 0%nat /\ w_hw w' = 0%nat
    /\ (exists evs, w_log w' = [] ++ evs /\ Forall eval_event evs)
    /\ (forall mask size p b,
          0 <= size <= dropout_mask_max_size -> (p < Z.to_nat size)%nat ->
          0 <= b < 64 -> Z.testbit (fill_mask_ones mask size p) b = true)
    /\ (forall ei, 0 <= ei < 3 ->
          exists b, b ∈ batches /\ b.1 <= ei < b.2
                    /\ predictions ei
                       = (1 / (1 + exp (- @eval_score nat (Demo.constant_model 64)
                                           demo_platform 0%nat
                                           (Demo.demo_dataset 3 20) b ei)))%R).
Proof.
  apply (@evaluate_on_dataset_spec nat (Demo.constant_model 64) demo_platform
           (Demo.demo_dataset 3 20) (Demo.start demo_platform 0%nat 2)).
  - simpl. lia.
  - simpl. unfold batch_size. lia.
  - simpl. lia.
  - intros n. apply round_robin_valid. simpl. lia.
Defined.

(** C9, evaluation: with [2 ^ 32] examples the count evaluation prints
    is 0. *)
Theorem evaluate_cnt_wraps :
  exists loss predictions w',
    @evaluate_on_dataset nat (Demo.constant_model 64) demo_platform
      (Demo.demo_dataset (2 ^ 32) 20) (Demo.start demo_platform 0%nat 2)
    = (Ok (loss, 0, predictions), w')
    /\ last (w_log w') = Some (EvConsole (Report 0 (loss / 0))).
Proof.
  destruct (@evaluate_on_dataset_total nat (Demo.constant_model 64) demo_platform
              (Demo.demo_dataset (2 ^ 32) 20) (Demo.start demo_platform 0%nat 2))
    as (loss & cnt & predictions & w' & batches & E & _ & Hcnt & _ & evs & Hl & Hlast).
  - simpl. lia.
  - simpl. unfold batch_size. lia.
  - simpl. lia.
  - intros n. apply round_robin_valid. simpl. lia.
  - assert (cnt = 0) as -> by (rewrite Hcnt; reflexivity).
    exists loss, predictions, w'. split; [done|]. by rewrite Hl.
Qed.


(** ** Properties of training *)

Section TrainProps.
Context {M : Type} `{MD : Model M} `{PF : Platform}.

Lemma train_trace_app y mult (evs evs' : list event) :
  train_trace y mult evs -> train_trace y mult evs' -> train_trace y mult (evs ++ evs').
Proof. induction 1; simpl; intros; try constructor; auto. Qed.

Lemma dropout_trace_app y k (evs evs' : list event) :
  dropout_trace y k evs -> dropout_trace y k evs' -> dropout_trace y k (evs ++ evs').
Proof.
  induction 1 as [|evs _ IH|cnt mean evs _ IH|file a b evs _ IH
                 |m fs ei mask h evs Hm _ IH]; simpl; intros Hevs'.
  - done.
  - constructor. auto.
  - constructor. auto.
  - constructor. auto.
  - apply (dt_step y k m fs ei mask h); auto.
Qed.

(** A trace that tells how the masks were drawn is a training trace. *)
Lemma dropout_trace_train y k (evs : list event) :
  dropout_trace y k evs -> train_trace y (dropout_multiplier k) evs.
Proof.
  induction 1 as [|evs _ IH|cnt mean evs _ IH|file a b evs _ IH
                 |m fs ei mask h evs Hm _ IH].
  - constructor.
  - by constructor.
  - by constructor.
  - by constructor.
  - by apply (tt_step y (dropout_multiplier k) m fs ei mask).
Qed.

#[local] Abbreviation DF y k := (@dropout_frame M MD PF y k).

#[local] Instance dropout_frame_preorder y k : PreOrder (DF y k).
Proof.
  split.
  - intros w. split; [done|]. exists []. rewrite app_nil_r. split; [done|constructor].
  - intros w1 w2 w3 (Ht1 & evs1 & Hl1 & He1) (Ht2 & evs2 & Hl2 & He2).
    split; [congruence|].
    exists (evs1 ++ evs2). split; [by rewrite Hl2, Hl1, app_assoc|].
    by apply dropout_trace_app.
Qed.

Lemma dropout_frame_quiet y k (w w' : world M) :
  w_threads w' = w_threads w -> w_log w' = w_log w -> DF y k w w'.
Proof.
  intros Ht Hl. split; [done|]. exists []. rewrite app_nil_r. split; [done|constructor].
Qed.

(** A training step, whatever its outcome. *)
Lemma train_example_frame ds k bf bso ei st :
  preserves (DF (labels (index ds)) k)
            (train_example ds k (dropout_multiplier k) bf bso ei st).
Proof.
  intros w. destruct st as [mask loss]. unfold train_example.
  unfold bind at 1. simpl. unfold bind at 1. unfold on_mask at 1.
  unfold bind at 1. simpl.
  destruct (fill_mask_rand _ _ _) as [[[]|msg|] [mask' h']] eqn:E; simpl.
  - split; [done|]. eexists. split; [by rewrite <- app_assoc|].
    apply (dt_step _ _ (w_model w) _ _ _ (w_hw w)); [|constructor].
    eapply fill_mask_rand_ok_inv; [apply to_int32_range|exact E].
  - by apply dropout_frame_quiet.
  - by apply dropout_frame_quiet.
Qed.

Lemma dropout_frame_log y k (w : world M) e :
  dropout_trace y k [e] -> DF y k w (log e w).2.
Proof. intros He. split; [done|]. by exists [e]. Qed.

Lemma dropout_frame_shuffle_rnd {A} y k (v : list A) : preserves (DF y k) (shuffle_rnd v).
Proof.
  intros w. unfold shuffle_rnd, bind, get. simpl.
  destruct (shuffle v (w_rnd w)) as [v' g]. simpl. by apply dropout_frame_quiet.
Qed.

Lemma dropout_frame_batches y k ds b : preserves (DF y k) (dataset_batches ds b).
Proof.
  intros w. unfold dataset_batches, bind, get, finished.
  destruct (generate_batches ds b (w_rnd w)) as [[batches g]|]; simpl;
    by apply dropout_frame_quiet.
Qed.

Lemma train_batch_frame ds k batches bi acc :
  preserves (DF (labels (index ds)) k)
            (train_batch ds k (dropout_multiplier k) batches bi acc).
Proof.
  unfold train_batch. destruct (batches !! bi) as [[bs be]|]; [|pres_ret].
  apply preserves_bind; [apply _|apply preserves_finished; apply _|intros mbs].
  apply preserves_bind; [apply _| |intros _].
  { intros w. apply dropout_frame_log. repeat constructor. }
  apply preserves_bind; [apply _|apply dropout_frame_shuffle_rnd|intros mbs'].
  apply preserves_bind; [apply _| |intros [mask loss]; pres_ret].
  apply preserves_foreach; [apply _|]. intros mb st.
  apply preserves_for_range; [apply _|]. intros. apply train_example_frame.
Qed.

(** Training, whatever its outcome, keeps the frame: every step it logs
    carries the multiplier of [k] and a mask drawn with [k] draws a
    word. *)
Lemma train_on_dataset_dropout_frame ds k :
  preserves (DF (labels (index ds)) k) (train_on_dataset ds k).
Proof.
  unfold train_on_dataset.
  apply preserves_bind; [apply _| |intros _].
  { intros w. apply dropout_frame_log. repeat constructor. }
  apply preserves_bind; [apply _|apply dropout_frame_batches|intros batches].
  apply preserves_bind; [apply _|apply preserves_get; apply _|intros w].
  apply preserves_bind; [apply _| |intros l].
  { intros w'. by apply dropout_frame_quiet. }
  apply preserves_bind; [apply _| |intros privates].
  { apply preserves_parallel_for; [apply _|]. intros. apply train_batch_frame. }
  apply preserves_bind; [apply _| |intros _; pres_ret].
  intros w'. apply dropout_frame_log. repeat constructor.
Qed.

#[local] Abbreviation TF y mult := (@train_frame M MD PF y mult).

Lemma train_on_dataset_frame ds k :
  preserves (TF (labels (index ds)) (dropout_multiplier k)) (train_on_dataset ds k).
Proof.
  intros w. destruct (train_on_dataset_dropout_frame ds k w) as (Ht & evs & Hl & Hd).
  split; [done|]. exists evs. split; [done|]. by apply dropout_trace_train.
Qed.

(** *** Training step by step *)

Lemma logged_loss_app y (evs evs' : list event) :
  logged_loss y (evs ++ evs') = (logged_loss y evs + logged_loss y evs')%R.
Proof.
  induction evs as [|e evs IH]; simpl; [lra|].
  destruct e; rewrite ?IH; lra.
Qed.

Lemma predict_calls_app (evs evs' : list event) :
  predict_calls (evs ++ evs') = predict_calls evs + predict_calls evs'.
Proof. induction evs as [|e evs IH]; simpl; [lia|]. destruct e; lia. Qed.

(** When the mask is filled, the step goes through: it calls [predict]
    and [update] on the filled mask and adds the loss of the example. *)
Lemma train_example_filled ds k mult bf bso ei mask loss (w : world M) mask' h' :
  fill_mask_rand (step_words ds bf bso ei (w_model w)) (to_int32 k) (mask, w_hw w)
  = (Ok tt, (mask', h')) ->
  let fs := step_features ds bf bso ei in
  let y := labels (index ds) ei in
  let norm := compute_norm fs in
  let t := predict (w_model w) fs norm mask' mult in
  train_example ds k mult bf bso ei (mask, loss) w
  = (Ok (mask', (loss + logistic_loss y t)%R),
     {| w_model := update (w_model w) fs norm (gradient_scale y t) mask' mult;
        w_rnd := w_rnd w; w_hw := h'; w_threads := w_threads w;
        w_loops := w_loops w;
        w_log := w_log w ++ [EvPredict ei norm mask' mult t;
                             EvUpdate ei norm (gradient_scale y t) mask' mult];
        w_overrun := w_overrun w
                     || past_array (step_words ds bf bso ei (w_model w)) |}).
Proof.
  intros Hfill. unfold train_example.
  unfold bind at 1. simpl. unfold bind at 1. unfold on_mask at 1.
  unfold bind at 1. simpl.
  unfold step_words, step_features in Hfill. rewrite Hfill.
  cbv [bind log set_model set_hw modify ret]. simpl.
  unfold logistic_loss, gradient_scale. by rewrite <- app_assoc.
Qed.

(** When the fill throws, the step throws the same error; nothing has
    been logged. *)
Lemma train_example_thrown ds k mult bf bso ei mask loss (w : world M) msg mask' h' :
  fill_mask_rand (step_words ds bf bso ei (w_model w)) (to_int32 k) (mask, w_hw w)
  = (Fatal msg, (mask', h')) ->
  exists w', train_example ds k mult bf bso ei (mask, loss) w = (Fatal msg, w')
             /\ w_log w' = w_log w /\ w_model w' = w_model w
             /\ w_overrun w'
                = w_overrun w || past_array (step_words ds bf bso ei (w_model w)).
Proof.
  intros Hfill. unfold train_example.
  unfold bind at 1. simpl. unfold bind at 1. unfold on_mask at 1.
  unfold bind at 1. simpl.
  unfold step_words, step_features in Hfill. rewrite Hfill.
  cbv [bind log set_model set_hw modify ret throw]. simpl. eauto.
Qed.

Lemma rand_word_outcomes p z from (m : mem) h :
  entropy_outcome (for_range z from (rand_word p) tt (m, h)).1.
Proof.
  revert from m h. induction z as [|z IH]; intros from m h; simpl; [by left|].
  unfold bind at 1. unfold rand_word at 1. unfold bind at 1. simpl.
  destruct (rdrand h) as [v|]; simpl; [apply IH|by right].
Qed.

Lemma rand_words_outcomes z n from (m : mem) h :
  entropy_outcome
    (for_range n from (fun p _ => for_range z 0 (rand_word p) tt) tt (m, h)).1.
Proof.
  revert from m h. induction n as [|n IH]; intros from m h; simpl; [by left|].
  unfold bind at 1.
  pose proof (rand_word_outcomes from z 0 m h) as Hinner.
  destruct (for_range z 0 (rand_word from) tt (m, h)) as [[[]|msg|] [m' h']];
    simpl in *.
  - apply IH.
  - destruct Hinner as [?|Hmsg]; [done|]. by right.
  - by destruct Hinner.
Qed.

Lemma fill_mask_rand_outcomes size k (st : mem * nat) :
  entropy_outcome (fill_mask_rand size k st).1.
Proof.
  destruct st as [m h].
  apply (rand_words_outcomes (Z.to_nat k) (Z.to_nat size) 0 (memset_words m 0 size) h).
Qed.

(** With an entropy source that always gives a value, the fill
    returns. *)
Lemma fill_mask_rand_returns size k (m : mem) h :
  (forall i, rdrand i <> None) ->
  exists m' h', fill_mask_rand size k (m, h) = (Ok tt, (m', h')).
Proof.
  intros Hok. unfold fill_mask_rand. unfold bind at 1. simpl.
  destruct (rand_words_ok (Z.to_nat k) (Z.to_nat size) 0 (memset_words m 0 size) h)
    as (m' & E & _); [intros; apply Hok|].
  simpl in E. unfold rand_word in E. eauto.
Qed.

(** *** Training to the end *)

Lemma wp_train_example ds k mult bf bso ei mask loss (w : world M) :
  (forall h, rdrand h <> None) ->
  wp (train_example ds k mult bf bso ei (mask, loss))
     (fun st' w' =>
        exists evs, w_log w' = w_log w ++ evs
                    /\ st'.2 = (loss + logged_loss (labels (index ds)) evs)%R
                    /\ predict_calls evs = 1)
     w.
Proof.
  intros Hok.
  destruct (fill_mask_rand_returns (step_words ds bf bso ei (w_model w)) (to_int32 k)
              mask (w_hw w) Hok) as (mask' & h' & Hfill).
  eapply wp_intro; [by apply train_example_filled|].
  simpl. eexists. split; [done|]. simpl. split; [lra|done].
Qed.

Lemma wp_shuffle_rnd {A} (v : list A) (w : world M) :
  wp (shuffle_rnd v) (fun v' w' => v' ≡ₚ v /\ w_log w' = w_log w) w.
Proof.
  unfold wp, shuffle_rnd, bind, get. simpl.
  pose proof (shuffle_perm v (w_rnd w)) as Hp.
  destruct (shuffle v (w_rnd w)) as [v' g]. by simpl in *.
Qed.

(** One batch of training: the log grows by events that account for
    one call of [predict] for each example of the batch; their loss is
    added to the private loss and the size of the batch to the private
    count, in [uint64_t]. *)
Lemma wp_train_batch ds k mult batches bi b acc (w : world M) :
  (forall h, rdrand h <> None) ->
  batches !! bi = Some b -> 0 <= b.1 <= b.2 -> b.2 + mini_batch_size <= 2 ^ 64 ->
  wp (train_batch ds k mult batches bi acc)
     (fun acc' w' =>
        exists evs, w_log w' = w_log w ++ evs
                    /\ acc' = ((acc.1 + logged_loss (labels (index ds)) evs)%R,
                               wrap64 (acc.2 + range_size b))
                    /\ predict_calls evs = range_size b)
     w.
Proof.
  intros Hok Hb Hle Hmax. unfold train_batch. rewrite Hb. destruct b as [bs be].
  simpl in Hle, Hmax.
  destruct (generate_mini_batches_plan bs be Hle Hmax) as (mbs & -> & Ht & Hsizes).
  apply wp_bind, wp_finished. apply wp_bind, wp_modify. apply wp_bind.
  eapply wp_mono; [|apply wp_shuffle_rnd].
  intros mbs' w1 [Hperm Hl1]. simpl in Hl1. apply wp_bind.
  eapply wp_mono;
    [|apply (wp_foreach
               (fun (seen : list (Z * Z)) (st : mem * R) (w' : world M) =>
                  exists evs, w_log w' = w_log w1 ++ evs
                              /\ st.2 = (acc.1 + logged_loss (labels (index ds)) evs)%R
                              /\ predict_calls evs = sumZ (range_size <$> seen)))].
  - intros [mask loss] w2 (evs & Hl2 & Hloss & Hcalls). simpl in *. apply wp_ret.
    exists (EvReadBatch (data_file_name ds) (offsets (index ds) bs)
              (offsets (index ds) be) :: evs).
    split; [by rewrite Hl2, Hl1, <- app_assoc|]. simpl. split; [by rewrite Hloss|].
    rewrite Hcalls, (sumZ_perm _ _ (fmap_Permutation _ _ _ Hperm)).
    rewrite (tiles_sum _ _ _ Ht). unfold range_size. simpl. lia.
  - exists []. rewrite app_nil_r. simpl. split_and!; [done|lra|done].
  - intros seen mb rest [mask loss] w2 Hsplit (evs & Hl2 & Hloss & Hcalls).
    simpl in Hloss.
    assert (0 < mb.2 - mb.1) as Hmb.
    { rewrite Forall_forall in Hsizes. apply Hsizes. rewrite <- Hperm, Hsplit.
      apply elem_of_app. right. left. }
    eapply wp_mono;
      [|apply (wp_for_range
                 (fun i (st : mem * R) (w' : world M) =>
                    exists evs', w_log w' = w_log w2 ++ evs'
                                 /\ st.2 = (loss + logged_loss (labels (index ds)) evs')%R
                                 /\ predict_calls evs' = Z.of_nat i))].
    + intros [mask' loss'] w3 (evs' & Hl3 & Hloss' & Hcalls'). simpl in *.
      exists (evs ++ evs'). split; [by rewrite Hl3, Hl2, app_assoc|].
      rewrite logged_loss_app, predict_calls_app, fmap_app, sumZ_app.
      split; [rewrite Hloss', Hloss; lra|].
      rewrite Hcalls, Hcalls'.
      change (sumZ (range_size <$> [mb])) with (mb.2 - mb.1 + 0). lia.
    + exists []. rewrite app_nil_r. simpl. split_and!; [done|lra|done].
    + intros i [mask' loss'] w3 Hi (evs' & Hl3 & Hloss' & Hcalls'). simpl in *.
      eapply wp_mono; [|by apply wp_train_example].
      intros [mask'' loss''] w4 (evs'' & Hl4 & Hloss'' & Hcalls''). simpl in *.
      exists (evs' ++ evs''). split; [by rewrite Hl4, Hl3, app_assoc|].
      rewrite logged_loss_app, predict_calls_app.
      split; [rewrite Hloss'', Hloss'; lra|lia].
Qed.

(** Training returns when the entropy source never fails; the count it
    prints is the number of examples, [predict] has been called once for
    each of them, and the loss it returns is the sum of the logistic
    losses of those calls. *)
Lemma train_on_dataset_total ds k (w : world M) :
  0 <= n_examples (index ds) -> n_examples (index ds) + batch_size <= 2 ^ 64 ->
  (0 < w_threads w)%nat ->
  (forall n, valid_schedule (w_threads w) n (omp_schedule (w_loops w) (w_threads w) n)) ->
  (forall h, rdrand h <> None) ->
  exists loss cnt w' evs,
    train_on_dataset ds k w = (Ok (loss, cnt), w')
    /\ w_log w' = w_log w ++ evs ++ [EvConsole (Report cnt (loss / IZR cnt))]
    /\ loss = logged_loss (labels (index ds)) evs
    /\ predict_calls evs = n_examples (index ds)
    /\ cnt = n_examples (index ds).
Proof.
  intros Hn Hmax Hthreads Hsched Hok.
  destruct (generate_batches_plan ds (w_rnd w) Hn Hmax)
    as (batches & _ & Ht & _ & Hsizes & sh & g' & Hgen & Hperm).
  set (w1 := (log (EvConsole Training) w).2).
  set (w2 := (next_loop ((set_rnd g' w1).2)).2).
  pose proof (wp_parallel_for (2 ^ 64) wrap64
                (fun bi => default 0 (range_size <$> sh !! bi))
                (fun seen (tot : R) (w' : world M) =>
                   exists evs, w_log w' = w_log w1 ++ evs
                               /\ tot = logged_loss (labels (index ds)) evs
                               /\ predict_calls evs
                                  = sumZ ((fun bi => default 0 (range_size <$> sh !! bi))
                                            <$> seen))
                (w_threads w) (omp_schedule (w_loops w) (w_threads w) (length sh))
                (train_batch ds k (dropout_multiplier k) sh) w2) as Hpar.
  destruct (Hsched (length sh)) as [Hsp Hteam].
  assert (sumZ ((fun bi => default 0 (range_size <$> sh !! bi))
                  <$> (omp_schedule (w_loops w) (w_threads w) (length sh)).*2)
          = n_examples (index ds)) as Hsum.
  { rewrite (sum_over_schedule range_size sh _ Hsp).
    rewrite (sumZ_perm _ _ (fmap_Permutation _ _ _ Hperm)).
    rewrite (tiles_sum _ _ _ Ht). lia. }
  apply wp_elim in Hpar as (privates & w3 & Epar & (evs & Hl3 & Hloss & Hcalls) & Hcnt);
    [|lia|done|done|done| |].
  - exists (reduce_loss privates), (reduce_cnt wrap64 privates). eexists. exists (EvConsole Training :: evs).
    split_and!.
    + unfold train_on_dataset, dataset_batches.
      unfold bind at 1. simpl. unfold bind at 1. unfold bind at 1. simpl.
      rewrite Hgen. simpl. unfold bind at 1. simpl. unfold bind at 1. simpl.
      unfold bind at 1. simpl. unfold bind at 1.
      unfold w2, w1 in Epar. simpl in Epar. rewrite Epar. simpl. reflexivity.
    + simpl. rewrite Hl3. unfold w1. simpl. by rewrite <- !app_assoc.
    + by rewrite Hloss.
    + simpl. by rewrite Hcalls, Hsum.
    + rewrite Hcnt, Hsum. apply Z.mod_small. unfold batch_size in Hmax. lia.
  - exists []. unfold w2, w1. simpl. rewrite app_nil_r. by split_and!.
  - intros seen bi acc tot w' Hbi (evs & Hl & Htot & Hcalls).
    assert (bi < length sh)%nat as Hlt by (by eapply schedule_claims_lt).
    destruct (lookup_lt_is_Some_2 sh bi Hlt) as [b Hb].
    assert (b ∈ batches) as Hin.
    { rewrite <- Hperm. by eapply list_elem_of_lookup_2. }
    pose proof (tiles_bounds _ _ _ _ Ht Hin) as Hbounds.
    eapply wp_mono; [|apply (wp_train_batch ds k _ sh bi b acc w' Hok Hb)].
    + intros acc' w'' (evs' & Hl' & -> & Hcalls').
      exists (logged_loss (labels (index ds)) evs'). rewrite Hb. simpl.
      split; [done|]. exists (evs ++ evs').
      split; [by rewrite Hl', Hl, app_assoc|].
      rewrite logged_loss_app, predict_calls_app, fmap_app, sumZ_app.
      split; [by rewrite Htot|]. rewrite Hcalls, Hcalls'.
      change (sumZ ((fun bi => default 0 (range_size <$> sh !! bi)) <$> [bi]))
        with (default 0 (range_size <$> sh !! bi) + 0).
      rewrite Hb. simpl. lia.
    + lia.
    + unfold mini_batch_size, batch_size in *. lia.
Qed.

Lemma shl_int_pow (k : Z) : 0 <= k <= 30 -> shl_int k = 2 ^ k.
Proof.
  intros Hk. unfold shl_int, to_int32. rewrite Z.shiftl_1_l.
  assert (0 < 2 ^ k) by (apply Z.pow_pos_nonneg; lia).
  assert (2 ^ k <= 2 ^ 30) by (apply Z.pow_le_mono_r; lia).
  rewrite Z.mod_small by lia. lia.
Qed.

Lemma logistic_loss_zero y : logistic_loss y 0 = ln 2.
Proof.
  unfold logistic_loss. rewrite Rmult_0_r, exp_0. f_equal; lra.
Qed.

(** With a model that scores 0, every logged call accounts for
    [ln 2]. *)
Lemma logged_loss_constant y mult (evs : list event) :
  (forall (m : M) fs norm mask mult, predict m fs norm mask mult = 0%R) ->
  train_trace y mult evs ->
  logged_loss y evs = (IZR (predict_calls evs) * ln 2)%R.
Proof.
  intros Hzero. induction 1 as [|evs _ IH|cnt mean evs _ IH|file a b evs _ IH
                               |m fs ei mask evs _ IH]; simpl.
  - lra.
  - done.
  - done.
  - done.
  - subst t. rewrite IH, Hzero, logistic_loss_zero, plus_IZR. lra.
Qed.

(** C5: when training runs to its end, the loss it returns is the sum,
    over the calls of [predict] it has made, one for each example, of
    [ln (1 + exp (- y * t))] for the label [y] of the example and the
    score [t] that call returned; the mean it prints is that loss
    divided by the count of examples.  With a model that always scores
    0 the loss is [ln 2] for each example, and for three examples the
    mean is [ln 2]. *)
Theorem train_loss_is_logistic ds k (w : world M) :
  0 <= n_examples (index ds) -> n_examples (index ds) + batch_size <= 2 ^ 64 ->
  (0 < w_threads w)%nat ->
  (forall n, valid_schedule (w_threads w) n (omp_schedule (w_loops w) (w_threads w) n)) ->
  (forall h, rdrand h <> None) ->
  exists loss cnt w' evs,
    train_on_dataset ds k w = (Ok (loss, cnt), w')
    /\ w_log w' = w_log w ++ evs ++ [EvConsole (Report cnt (loss / IZR cnt))]
    /\ train_trace (labels (index ds)) (dropout_multiplier k) evs
    /\ loss = logged_loss (labels (index ds)) evs
    /\ predict_calls evs = n_examples (index ds)
    /\ cnt = n_examples (index ds)
    /\ ((forall (m : M) fs norm mask mult, predict m fs norm mask mult = 0%R) ->
        loss = (IZR (n_examples (index ds)) * ln 2)%R
        /\ (n_examples (index ds) = 3 -> (loss / IZR cnt)%R = ln 2)).
Proof.
  intros Hn Hmax Hthreads Hsched Hok.
  destruct (train_on_dataset_total ds k w Hn Hmax Hthreads Hsched Hok)
    as (loss & cnt & w' & evs & E & Hl & Hloss & Hcalls & Hcnt).
  pose proof (train_on_dataset_frame ds k w) as Hfr. rewrite E in Hfr.
  destruct Hfr as (_ & evs' & Hl' & Htrace). simpl in Hl'.
  rewrite Hl in Hl'. apply app_inv_head in Hl'. subst evs'.
  assert (train_trace (labels (index ds)) (dropout_multiplier k) evs) as Htrace'.
  { clear -Htrace. remember (evs ++ [EvConsole (Report cnt (loss / IZR cnt))]) as l eqn:El.
    revert evs El. induction Htrace as [|l _ IH|c m l _ IH|f a b l _ IH|m fs ei mask l _ IH];
      intros evs El.
    - by destruct evs.
    - destruct evs as [|e evs]; [constructor|]. injection El as <- El.
      constructor. by apply IH.
    - destruct evs as [|e evs]; [constructor|]. injection El as <- El.
      constructor. by apply IH.
    - destruct evs as [|e evs]; [constructor|]. injection El as <- El.
      constructor. by apply IH.
    - destruct evs as [|e [|e' evs]]; [constructor|by destruct l|].
      injection El as <- <- El. constructor. by apply IH. }
  exists loss, cnt, w', evs. split_and!; try done.
  intros Hzero.
  assert (loss = (IZR (n_examples (index ds)) * ln 2)%R) as Hval.
  { rewrite Hloss, (logged_loss_constant _ _ _ Hzero Htrace'). by rewrite Hcalls. }
  split; [done|]. intros H3. rewrite Hval, Hcnt, H3. field.
Qed.

(** C9, training: the count training prints is the number of
    examples. *)
Theorem train_cnt_exact ds k (w : world M) :
  0 <= n_examples (index ds) -> n_examples (index ds) + batch_size <= 2 ^ 64 ->
  (0 < w_threads w)%nat ->
  (forall n, valid_schedule (w_threads w) n (omp_schedule (w_loops w) (w_threads w) n)) ->
  (forall h, rdrand h <> None) ->
  exists loss w',
    train_on_dataset ds k w = (Ok (loss, n_examples (index ds)), w')
    /\ last (w_log w')
       = Some (EvConsole (Report (n_examples (index ds))
                            (loss / IZR (n_examples (index ds))))).
Proof.
  intros Hn Hmax Hthreads Hsched Hok.
  destruct (train_on_dataset_total ds k w Hn Hmax Hthreads Hsched Hok)
    as (loss & cnt & w' & evs & E & Hl & _ & _ & ->).
  exists loss, w'. split; [done|]. by rewrite Hl, !app_assoc, last_snoc.
Qed.

(** A word count that the array holds is no write beyond it. *)
Lemma past_array_false (words : Z) :
  0 <= words <= dropout_mask_max_size -> past_array words = false.
Proof.
  intros Hw. unfold past_array, dropout_mask_max_size in *.
  rewrite wrap64_small by lia. replace (words * 8 / 8) with words by (by rewrite Z.div_mul).
  apply Z.ltb_ge. lia.
Qed.

Lemma past_array_true (words : Z) :
  dropout_mask_max_size < words < 2 ^ 31 -> past_array words = true.
Proof.
  intros Hw. unfold past_array, dropout_mask_max_size in *.
  rewrite wrap64_small by lia. replace (words * 8 / 8) with words by (by rewrite Z.div_mul).
  apply Z.ltb_lt. lia.
Qed.

(** The flag after a step, whatever its outcome. *)
Lemma train_example_overrun ds k mult bf bso ei mask loss (w : world M) :
  w_overrun (train_example ds k mult bf bso ei (mask, loss) w).2
  = w_overrun w || past_array (step_words ds bf bso ei (w_model w)).
Proof.
  pose proof (fill_mask_rand_outcomes (step_words ds bf bso ei (w_model w)) (to_int32 k)
                (mask, w_hw w)) as Hout.
  destruct (fill_mask_rand (step_words ds bf bso ei (w_model w)) (to_int32 k)
              (mask, w_hw w)) as [[[]|msg|] [mask' h']] eqn:Hfill; simpl in Hout.
  - by rewrite (train_example_filled _ _ mult _ _ _ _ loss _ _ _ Hfill).
  - destruct (train_example_thrown _ _ mult _ _ _ _ loss _ _ _ _ Hfill)
      as (w' & E & _ & _ & Ho).
    by rewrite E.
  - by destruct Hout.
Qed.

(** With a word count that the array holds, a step writes inside the
    array. *)
Lemma train_example_within_capacity ds k mult bf bso ei mask loss (w : world M) :
  0 <= step_words ds bf bso ei (w_model w) <= dropout_mask_max_size ->
  w_overrun (train_example ds k mult bf bso ei (mask, loss) w).2 = w_overrun w.
Proof.
  intros Hw. rewrite train_example_overrun, past_array_false by done.
  apply orb_false_r.
Qed.

(** C1, as the code has it: a training step compares the word count of
    the mask with nothing.  When the count is greater than the
    [dropout_mask_max_size] words of the array, the step still calls
    [fill_mask_rand] with it: whatever the outcome of the step, the
    write beyond the end of the array has been made; the step does not
    end with an error about the capacity, the only error it can throw
    being the entropy error; and when the draws all give a value, the
    memory behind the array, from the word [dropout_mask_max_size] to
    the last word of the count, holds draws. *)
Theorem train_example_no_capacity_check ds k mult bf bso ei mask loss (w : world M) :
  let words := step_words ds bf bso ei (w_model w) in
  let n := Z.to_nat words in
  let z := Z.to_nat (to_int32 k) in
  let r := train_example ds k mult bf bso ei (mask, loss) w in
  dropout_mask_max_size < words ->
  w_overrun r.2 = true
  /\ (forall msg, r.1 = Fatal msg -> msg = rdrand_error)
  /\ ((forall i, (i < n * z)%nat -> rdrand (w_hw w + i) <> None) ->
      exists mask' loss',
        r.1 = Ok (mask', loss')
        /\ forall p, (Z.to_nat dropout_mask_max_size <= p < n)%nat ->
             mask' p = or_of_draws (w_hw w + p * z) z).
Proof.
  intros words n z r Hwords.
  assert (words < 2 ^ 31) as Hint.
  { unfold words, step_words, mask_words. apply to_int32_range. }
  split_and!.
  - unfold r. rewrite train_example_overrun. fold words.
    rewrite past_array_true by lia. apply orb_true_r.
  - intros msg E. unfold r in E.
    pose proof (fill_mask_rand_outcomes words (to_int32 k) (mask, w_hw w)) as Hout.
    destruct (fill_mask_rand words (to_int32 k) (mask, w_hw w))
      as [[[]|msg'|] [mask' h']] eqn:Hfill; simpl in Hout.
    + by rewrite (train_example_filled _ _ mult _ _ _ _ loss _ _ _ Hfill) in E.
    + destruct (train_example_thrown _ _ mult _ _ _ _ loss _ _ _ _ Hfill)
        as (w'' & E' & _).
      rewrite E' in E. simpl in E. destruct Hout as [?|Hmsg]; [done|]. congruence.
    + by destruct Hout.
  - intros Hok.
    destruct (fill_mask_rand_fills mask words (to_int32 k) (w_hw w)) as (mask' & Hfill & Hmask');
      [unfold dropout_mask_max_size in Hwords; lia|exact Hok|].
    unfold r. rewrite (train_example_filled _ _ mult _ _ _ _ loss _ _ _ Hfill).
    eexists _, _. split; [done|]. intros p Hp. rewrite Hmask'.
    apply decide_True. fold n. lia.
Qed.

End TrainProps.

Lemma train_loss_is_logistic_witness :
  exists loss cnt w' evs,
    @train_on_dataset nat (Demo.constant_model 64) demo_platform
      (Demo.demo_dataset 3 20) 1 (Demo.start demo_platform 0%nat 2)
    = (Ok (loss, cnt), w')
    /\ w_log w' = [] ++ evs ++ [EvConsole (Report cnt (loss / IZR cnt))]
    /\ @train_trace nat (Demo.constant_model 64)
         (labels (Demo.demo_index 3 20))
         (dropout_multiplier 1) evs
    /\ loss = logged_loss (labels (Demo.demo_index 3 20)) evs
    /\ predict_calls evs = 3
    /\ cnt = 3
    /\ ((forall (m : nat) fs norm mask mult,
           @predict nat (Demo.constant_model 64) m fs norm mask mult = 0%R) ->
        loss = (IZR 3 * ln 2)%R
        /\ (3 = 3 -> (loss / IZR cnt)%R = ln 2)).
Proof.
  apply (@train_loss_is_logistic nat (Demo.constant_model 64) demo_platform
           (Demo.demo_dataset 3 20) 1 (Demo.start demo_platform 0%nat 2)).
  - simpl. lia.
  - simpl. unfold batch_size. lia.
  - simpl. lia.
  - intros n. apply round_robin_valid. simpl. lia.
  - done.
Defined.

(** Three examples with labels +1, -1, +1 and a model that always
    scores 0: the mean loss training prints is [ln 2]. *)
Example three_examples_mean_loss :
  exists loss w',
    @train_on_dataset nat (Demo.constant_model 64) demo_platform
      (Demo.demo_dataset 3 20) 1 (Demo.start demo_platform 0%nat 2)
    = (Ok (loss, 3), w')
    /\ labels (Demo.demo_index 3 20) 0 = 1%R
    /\ labels (Demo.demo_index 3 20) 1 = (-1)%R
    /\ labels (Demo.demo_index 3 20) 2 = 1%R
    /\ (loss / 3)%R = ln 2
    /\ last (w_log w') = Some (EvConsole (Report 3 (loss / 3))).
Proof.
  destruct (@train_on_dataset_total nat (Demo.constant_model 64) demo_platform
              (Demo.demo_dataset 3 20) 1 (Demo.start demo_platform 0%nat 2))
    as (loss & cnt & w' & evs & E & Hl & Hloss & Hcalls & Hcnt).
  - simpl. lia.
  - simpl. unfold batch_size. lia.
  - simpl. lia.
  - intros n. apply round_robin_valid. simpl. lia.
  - done.
  - simpl in Hcnt. subst cnt. exists loss, w'.
    split_and!; [exact E|reflexivity|reflexivity|reflexivity| |].
    + pose proof (@train_on_dataset_frame nat (Demo.constant_model 64) demo_platform
                    (Demo.demo_dataset 3 20) 1 (Demo.start demo_platform 0%nat 2))
        as Hfr.
      rewrite E in Hfr. destruct Hfr as (_ & evs' & Hl' & Htrace).
      simpl in Hl, Hl'. rewrite Hl' in Hl. subst evs'.
      assert (logged_loss (labels (Demo.demo_index 3 20))
                (evs ++ [EvConsole (Report 3 (loss / IZR 3))])
              = (IZR (predict_calls (evs ++ [EvConsole (Report 3 (loss / IZR 3))]))
                 * ln 2)%R) as Hsum.
      { by eapply (@logged_loss_constant nat (Demo.constant_model 64)). }
      rewrite logged_loss_app, predict_calls_app in Hsum. simpl in Hsum, Hcalls, Hloss.
      rewrite Hcalls in Hsum. rewrite <- Hloss in Hsum.
      change (3 + 0) with 3 in Hsum.
      replace loss with (3 * ln 2)%R by lra. field.
    + rewrite Hl. simpl. by rewrite last_snoc.
Qed.

Lemma train_example_no_capacity_check_witness :
  let words := @step_words nat (Demo.constant_model 256001) (Demo.demo_dataset 3 20)
                 (Demo.unit_features 0 3) 0 0 0%nat in
  let n := Z.to_nat words in
  let z := Z.to_nat (to_int32 1) in
  let r := @train_example nat (Demo.constant_model 256001) demo_platform
             (Demo.demo_dataset 3 20) 1 2 (Demo.unit_features 0 3) 0 0
             (@uninit demo_platform, 0%R) (Demo.start demo_platform 0%nat 1) in
  w_overrun r.2 = true
  /\ (forall msg, r.1 = Fatal msg -> msg = rdrand_error)
  /\ ((forall i, (i < n * z)%nat -> @rdrand demo_platform (0 + i) <> None) ->
      exists mask' loss',
        r.1 = Ok (mask', loss')
        /\ forall p, (Z.to_nat dropout_mask_max_size <= p < n)%nat ->
             mask' p = @or_of_draws demo_platform (0 + p * z) z).
Proof.
  apply (@train_example_no_capacity_check nat (Demo.constant_model 256001) demo_platform
           (Demo.demo_dataset 3 20) 1 2 (Demo.unit_features 0 3) 0 0
           (@uninit demo_platform) 0%R (Demo.start demo_platform 0%nat 1)).
  by vm_compute.
Defined.

(** A mask of 256001 bits needs 4001 words, one more than the array
    holds: the step does not abort, the write beyond the array is made,
    and the word behind the array holds a draw. *)
Example capacity_overrun :
  let words := @step_words nat (Demo.constant_model 256001) (Demo.demo_dataset 3 20)
                 (Demo.unit_features 0 3) 0 0 0%nat in
  let r := @train_example nat (Demo.constant_model 256001) demo_platform
             (Demo.demo_dataset 3 20) 1 2 (Demo.unit_features 0 3) 0 0
             (@uninit demo_platform, 0%R) (Demo.start demo_platform 0%nat 1) in
  words = 4001
  /\ w_overrun r.2 = true
  /\ exists mask' loss',
       r.1 = Ok (mask', loss')
       /\ @uninit demo_platform 4000%nat = 0
       /\ mask' 4000%nat = 4001.
Proof.
  split; [by vm_compute|].
  destruct (@fill_mask_rand_fills demo_platform (@uninit demo_platform) 4001 (to_int32 1) O)
    as (mask' & Hfill & Hmask'); [lia|done|].
  pose proof (@train_example_filled nat (Demo.constant_model 256001) demo_platform
                (Demo.demo_dataset 3 20) 1 2 (Demo.unit_features 0 3) 0 0
                (@uninit demo_platform) 0%R (Demo.start demo_platform 0%nat 1)
                mask' _ Hfill) as E.
  cbv zeta. rewrite E. split; [reflexivity|].
  eexists _, _. split; [reflexivity|]. split; [done|].
  rewrite Hmask'. reflexivity.
Qed.

(** ** Properties of the orchestrator *)

Lemma preserves_weaken {S A} (Rel Rel' : S -> S -> Prop) (c : prog S A) :
  (forall s s', Rel s s' -> Rel' s s') -> preserves Rel c -> preserves Rel' c.
Proof. intros Hw Hc s. apply Hw, Hc. Qed.

Lemma preserves_bind_ok {S A B} (Rel : S -> S -> Prop) `{!PreOrder Rel}
    (c : prog S A) (k : A -> prog S B) :
  preserves Rel c ->
  (forall s a s', c s = (Ok a, s') -> preserves Rel (k a)) ->
  preserves Rel (bind c k).
Proof.
  intros Hc Hk s. unfold bind. specialize (Hc s). specialize (Hk s).
  destruct (c s) as [[a|msg|] s']; simpl in *; try done.
  etransitivity; [exact Hc|]. by eapply Hk.
Qed.

Lemma never_returns_bind_l {S A B} (Rel : S -> S -> Prop)
    (c : prog S A) (k : A -> prog S B) :
  never_returns Rel c -> never_returns Rel (bind c k).
Proof.
  intros Hc s. unfold bind. destruct (Hc s) as [Hr Hno].
  destruct (c s) as [[a|msg|] s']; simpl in *; [by destruct (Hno a)|done..].
Qed.

Lemma never_returns_bind_r {S A B} (Rel : S -> S -> Prop) `{!PreOrder Rel}
    (c : prog S A) (k : A -> prog S B) :
  preserves Rel c ->
  (forall s a s', c s = (Ok a, s') -> never_returns Rel (k a)) ->
  never_returns Rel (bind c k).
Proof.
  intros Hc Hk s. unfold bind. specialize (Hc s). specialize (Hk s).
  destruct (c s) as [[a|msg|] s']; simpl in *; [|done..].
  destruct (Hk a s' eq_refl s') as [Hr Hno]. split; [|done].
  by etransitivity.
Qed.

Lemma throws_bind_ok {S A B} (c : prog S A) (k : A -> prog S B) Q s :
  wp c (fun a s' => throws (k a) Q s') s -> throws (bind c k) Q s.
Proof. unfold wp, throws, bind. by destruct (c s) as [[a|msg|] s']. Qed.

Lemma throws_bind_l {S A B} (c : prog S A) (k : A -> prog S B) Q s :
  throws c Q s -> throws (bind c k) Q s.
Proof. unfold throws, bind. by destruct (c s) as [[a|msg|] s']. Qed.

#[local] Instance Forall_closed (Q : event -> Prop) : Closed (Forall Q).
Proof. split; [constructor|intros; by apply Forall_app]. Qed.

Lemma closed_Forall (P : list event -> Prop) `{!Closed P} (Q : event -> Prop) evs :
  (forall e, Q e -> P [e]) -> Forall Q evs -> P evs.
Proof.
  intros HQ. induction 1 as [|e evs He _ IH]; [apply closed_nil|].
  apply (closed_app [e] evs); auto.
Qed.

Section RunProps.
Context {M : Type} `{MD : Model M} `{PF : Platform}.

#[local] Instance train_trace_closed y mult : Closed (@train_trace M MD y mult).
Proof. split; [constructor|apply train_trace_app]. Qed.

Lemma run_trace_app y (evs evs' : list event) :
  run_trace y evs -> run_trace y evs' -> run_trace y (evs ++ evs').
Proof.
  induction 1 as [|seg evs Hseg _ IH|e evs He _ IH]; intros Hevs'; simpl.
  - done.
  - rewrite <- app_assoc. constructor; auto.
  - apply rt_quiet; auto.
Qed.

#[local] Instance run_trace_closed y : Closed (@run_trace M MD PF y).
Proof. split; [constructor|apply run_trace_app]. Qed.

#[local] Instance log_frame_preorder P `{!Closed P} : PreOrder (@log_frame M PF P).
Proof.
  split.
  - intros w. exists []. rewrite app_nil_r. split; [done|apply closed_nil].
  - intros w1 w2 w3 (evs1 & Hl1 & He1) (evs2 & Hl2 & He2).
    exists (evs1 ++ evs2). split; [by rewrite Hl2, Hl1, app_assoc|].
    by apply closed_app.
Qed.

Section Frames.
Context (P : list event -> Prop) `{!Closed P}.

#[local] Abbreviation LF := (@log_frame M PF P).

Lemma log_frame_log (w : world M) e : P [e] -> LF w (log e w).2.
Proof. intros He. by exists [e]. Qed.

Lemma log_frame_same (w w' : world M) : w_log w' = w_log w -> LF w w'.
Proof. intros Hl. exists []. rewrite app_nil_r. split; [done|apply closed_nil]. Qed.

Lemma log_frame_train_drawn ds k :
  (forall evs, dropout_trace (labels (index ds)) k evs -> P evs) ->
  preserves LF (train_on_dataset ds k).
Proof.
  intros HP. eapply preserves_weaken; [|apply train_on_dataset_dropout_frame].
  intros w w' (_ & evs & Hl & Ht). exists evs. auto.
Qed.

Lemma log_frame_train ds k :
  (forall evs, train_trace (labels (index ds)) (dropout_multiplier k) evs -> P evs) ->
  preserves LF (train_on_dataset ds k).
Proof.
  intros HP. apply log_frame_train_drawn. intros evs Hd.
  by apply HP, dropout_trace_train.
Qed.

Lemma log_frame_evaluate ds :
  (forall e, eval_event e -> P [e]) -> preserves LF (evaluate_on_dataset ds).
Proof.
  intros HP. eapply preserves_weaken; [|apply evaluate_on_dataset_frame].
  intros w w' (_ & _ & _ & _ & evs & Hl & He). exists evs. split; [done|].
  by eapply closed_Forall.
Qed.

Lemma log_frame_batches ds b : preserves LF (dataset_batches ds b).
Proof.
  intros w. unfold dataset_batches, bind, get, finished.
  destruct (generate_batches ds b (w_rnd w)) as [[batches g]|]; simpl;
    by apply log_frame_same.
Qed.

Lemma log_frame_load name :
  (forall e, no_batch e -> quiet_event e -> no_output e -> P [e]) ->
  preserves LF (load_dataset name).
Proof.
  intros HP. unfold load_dataset.
  apply preserves_bind; [apply _|intros w; by apply log_frame_log, HP|intros _].
  apply preserves_bind; [apply _|intros w; by apply log_frame_log, HP|intros _].
  apply preserves_bind; [apply _|intros w; by apply log_frame_log, HP|intros _].
  pres_ret.
Qed.

Lemma log_frame_predict ds :
  (forall e, quiet_event e -> P [e]) -> preserves LF (predict_on_dataset ds).
Proof.
  intros HP. unfold predict_on_dataset.
  apply preserves_bind; [apply _|intros w; by apply log_frame_log, HP|intros _].
  apply preserves_bind; [apply _|apply log_frame_batches|intros batches].
  apply preserves_bind; [apply _| |intros cnt; intros w; by apply log_frame_log, HP].
  apply preserves_foreach; [apply _|]. intros [bs be] cnt. unfold predict_batch.
  apply preserves_bind; [apply _|intros w; by apply log_frame_log, HP|intros _].
  apply preserves_bind; [apply _| |intros _; pres_ret].
  apply preserves_for_range; [apply _|]. intros ei []. unfold predict_example.
  apply preserves_bind; [apply _|apply preserves_get; apply _|intros w].
  apply preserves_bind; [apply _| |intros _; intros w'; by apply log_frame_log, HP].
  intros w'. apply log_frame_log, HP. split; [done|]. apply fill_mask_ones_max.
Qed.

End Frames.

Lemma load_dataset_returns name (w : world M) ds w' :
  load_dataset name w = (Ok ds, w') -> ds = dataset_of name.
Proof.
  unfold load_dataset, bind, log, modify, ret, dataset_of. simpl.
  intros E. by injection E as <- _.
Qed.

Lemma eval_event_quiet e : eval_event e -> quiet_event e.
Proof. by destruct e as [[]| | | | | | |]. Qed.

Lemma dropout_multiplier_1 : dropout_multiplier 1 = 2%R.
Proof. unfold dropout_multiplier. rewrite (shl_int_pow 1) by lia. simpl. lra. Qed.

Lemma run_phases cmd :
  run cmd
  = (set_threads (Z.to_nat (n_threads cmd));;
     set_rnd (seed_rnd (seed cmd));;
     let* ds_train := load_dataset (train_file_name cmd) in
     log (EvCreateModel (n_fields (index ds_train)) (n_indices (index ds_train))
            (n_index_bits (index ds_train)));;
     set_model (create_model (n_fields (index ds_train)) (n_indices (index ds_train))
                  (n_index_bits (index ds_train)));;
     epochs_of_run cmd ds_train;;
     prediction_of_run cmd ds_train;;
     ret 0).
Proof. reflexivity. Qed.

Section RunFrames.
Context (P : list event -> Prop) `{!Closed P}.

Lemma log_frame_epochs_of_run_drawn cmd ds_train :
  (forall e, no_batch e -> quiet_event e -> no_output e -> P [e]) ->
  (forall e, eval_event e -> P [e]) ->
  (forall evs, dropout_trace (labels (index ds_train)) 1 evs -> P evs) ->
  preserves (log_frame P) (epochs_of_run cmd ds_train).
Proof.
  intros HP He Ht. unfold epochs_of_run. destruct (empty (val_file_name cmd)).
  - apply preserves_for_range; [apply _|]. intros epoch [].
    apply preserves_bind; [apply _|intros w; by apply log_frame_log, HP|intros _].
    apply preserves_bind; [apply _|by apply log_frame_train_drawn|intros _]. pres_ret.
  - apply preserves_bind; [apply _|by apply log_frame_load|intros ds_val].
    apply preserves_bind; [apply _| |intros _].
    { destruct (_ =? _); [pres_ret|apply preserves_throw; apply _]. }
    apply preserves_for_range; [apply _|]. intros epoch [].
    apply preserves_bind; [apply _|intros w; by apply log_frame_log, HP|intros _].
    apply preserves_bind; [apply _|by apply log_frame_train_drawn|intros _].
    apply preserves_bind; [apply _|by apply log_frame_evaluate|intros _]. pres_ret.
Qed.

Lemma log_frame_epochs_of_run cmd ds_train :
  (forall e, no_batch e -> quiet_event e -> no_output e -> P [e]) ->
  (forall e, eval_event e -> P [e]) ->
  (forall evs,
     train_trace (labels (index ds_train)) (dropout_multiplier 1) evs -> P evs) ->
  preserves (log_frame P) (epochs_of_run cmd ds_train).
Proof.
  intros HP He Ht. apply log_frame_epochs_of_run_drawn; [done..|].
  intros evs Hd. by apply Ht, dropout_trace_train.
Qed.

Lemma log_frame_prediction_of_run cmd ds_train :
  (forall e, quiet_event e -> P [e]) ->
  preserves (log_frame P) (prediction_of_run cmd ds_train).
Proof.
  intros HP. unfold prediction_of_run. destruct (_ && _); [|pres_ret].
  apply preserves_bind; [apply _|apply log_frame_load; [done|auto]|intros ds_test].
  apply preserves_bind; [apply _| |intros _].
  { destruct (_ =? _); [pres_ret|apply preserves_throw; apply _]. }
  apply preserves_bind; [apply _|intros w; by apply log_frame_log, HP|intros _].
  by apply log_frame_predict.
Qed.

(** The run before its epochs. *)
Lemma log_frame_setup cmd (k : batch_learn_dataset -> prog (world M) Z) :
  (forall e, no_batch e -> quiet_event e -> no_output e -> P [e]) ->
  preserves (log_frame P) (k (dataset_of (train_file_name cmd))) ->
  preserves (log_frame P)
    (set_threads (Z.to_nat (n_threads cmd));;
     set_rnd (seed_rnd (seed cmd));;
     let* ds_train := load_dataset (train_file_name cmd) in
     log (EvCreateModel (n_fields (index ds_train)) (n_indices (index ds_train))
            (n_index_bits (index ds_train)));;
     set_model (create_model (n_fields (index ds_train)) (n_indices (index ds_train))
                  (n_index_bits (index ds_train)));;
     k ds_train).
Proof.
  intros HP Hk.
  apply preserves_bind; [apply _|intros w; by apply log_frame_same|intros _].
  apply preserves_bind; [apply _|intros w; by apply log_frame_same|intros _].
  apply preserves_bind_ok; [apply _|by apply log_frame_load|].
  intros w ds_train w' Hload. apply load_dataset_returns in Hload as ->.
  apply preserves_bind; [apply _|intros w''; by apply log_frame_log, HP|intros _].
  apply preserves_bind; [apply _|intros w''; by apply log_frame_same|intros _].
  done.
Qed.

End RunFrames.

(** *** Mismatching index bits *)

Lemma update_calls_app (evs evs' : list event) :
  update_calls (evs ++ evs') = update_calls evs + update_calls evs'.
Proof. induction evs as [|e evs IH]; simpl; [lia|]. destruct e; lia. Qed.

Lemma train_trace_updates y mult (evs : list event) :
  train_trace y mult evs -> update_calls evs = predict_calls evs.
Proof. induction 1; simpl; lia. Qed.

Lemma train_trace_no_output y mult (evs : list event) :
  train_trace y mult evs -> Forall no_output evs.
Proof. induction 1; repeat constructor; done. Qed.

Lemma eval_events_updates (evs : list event) :
  Forall eval_event evs -> update_calls evs = 0.
Proof. induction 1 as [|e evs He _ IH]; simpl; [done|]. by destruct e. Qed.

Lemma eval_event_no_output e : eval_event e -> no_output e.
Proof. by destruct e as [[]| | | | | | |]. Qed.

(** An epoch of training, to its end. *)
Lemma wp_train_epoch ds k (w : world M) :
  0 <= n_examples (index ds) -> n_examples (index ds) + batch_size <= 2 ^ 64 ->
  (0 < w_threads w)%nat ->
  (forall l n, valid_schedule (w_threads w) n (omp_schedule l (w_threads w) n)) ->
  (forall h, rdrand h <> None) ->
  wp (train_on_dataset ds k)
     (fun _ w' => w_threads w' = w_threads w
                  /\ exists evs, w_log w' = w_log w ++ evs
                                 /\ update_calls evs = n_examples (index ds))
     w.
Proof.
  intros Hn Hmax Hthreads Hsched Hok.
  destruct (train_on_dataset_total ds k w Hn Hmax Hthreads (Hsched _) Hok)
    as (loss & cnt & w' & evs & E & Hl & _ & Hcalls & _).
  pose proof (train_on_dataset_frame ds k w) as Hfr.
  eapply wp_intro; [exact E|]. rewrite E in Hfr.
  destruct Hfr as (Ht & evs' & Hl' & Htrace). simpl in *. split; [done|].
  exists evs'. split; [done|].
  rewrite Hl in Hl'. apply app_inv_head in Hl'. subst evs'.
  rewrite (train_trace_updates _ _ _ Htrace), predict_calls_app. simpl. lia.
Qed.

(** An epoch of evaluation, to its end. *)
Lemma wp_evaluate_epoch ds (w : world M) :
  0 <= n_examples (index ds) -> n_examples (index ds) + batch_size <= 2 ^ 64 ->
  (0 < w_threads w)%nat ->
  (forall l n, valid_schedule (w_threads w) n (omp_schedule l (w_threads w) n)) ->
  wp (evaluate_on_dataset ds)
     (fun _ w' => w_threads w' = w_threads w
                  /\ exists evs, w_log w' = w_log w ++ evs /\ update_calls evs = 0)
     w.
Proof.
  intros Hn Hmax Hthreads Hsched.
  destruct (evaluate_on_dataset_total ds w Hn Hmax Hthreads (Hsched _))
    as (loss & cnt & predictions & w' & batches & E & _).
  pose proof (evaluate_on_dataset_frame ds w) as Hfr.
  eapply wp_intro; [exact E|]. rewrite E in Hfr.
  destruct Hfr as (_ & _ & _ & Ht & evs & Hl & Hevs). simpl in *. split; [done|].
  exists evs. split; [done|]. by apply eval_events_updates.
Qed.

Lemma wp_log e (Q : unit -> world M -> Prop) (w : world M) :
  Q tt (log e w).2 -> wp (log e) Q w.
Proof. done. Qed.

(** The epochs of a run, to their end: [update] has been called once
    for each example of each epoch. *)
Lemma wp_epochs_of_run cmd ds_train (w : world M) :
  let ds_val := dataset_of (val_file_name cmd) in
  0 <= n_examples (index ds_train) ->
  n_examples (index ds_train) + batch_size <= 2 ^ 64 ->
  (empty (val_file_name cmd) = false ->
   n_index_bits (index ds_val) = n_index_bits (index ds_train)
   /\ 0 <= n_examples (index ds_val)
   /\ n_examples (index ds_val) + batch_size <= 2 ^ 64) ->
  (0 < w_threads w)%nat ->
  (forall l n, valid_schedule (w_threads w) n (omp_schedule l (w_threads w) n)) ->
  (forall h, rdrand h <> None) ->
  wp (epochs_of_run cmd ds_train)
     (fun _ w' =>
        exists evs, w_log w' = w_log w ++ evs
                    /\ update_calls evs
                       = Z.of_nat (Z.to_nat (n_epochs cmd)) * n_examples (index ds_train))
     w.
Proof.
  intros ds_val Hn Hmax Hval Hthreads Hsched Hok. unfold epochs_of_run.
  destruct (empty (val_file_name cmd)).
  - eapply wp_mono;
      [|apply (wp_for_range
                 (fun i (_ : unit) (w' : world M) =>
                    w_threads w' = w_threads w
                    /\ exists evs, w_log w' = w_log w ++ evs
                                   /\ update_calls evs
                                      = Z.of_nat i * n_examples (index ds_train)))].
    + intros [] w' [_ H]. exact H.
    + split; [done|]. exists []. by rewrite app_nil_r.
    + intros i [] w' Hi (Ht & evs & Hl & Hu).
      apply wp_bind, wp_log, wp_bind.
      eapply wp_mono; [|apply wp_train_epoch; simpl; try rewrite Ht; done].
      intros _ w'' (Ht' & evs' & Hl' & Hu'). apply wp_ret. simpl in *.
      split; [congruence|]. eexists. split; [by rewrite Hl', Hl, <- !app_assoc|].
      rewrite !update_calls_app, Hu, Hu'. simpl. lia.
  - destruct Hval as (Hbits & Hnv & Hmaxv); [done|].
    apply wp_bind. unfold load_dataset at 1.
    apply wp_bind, wp_log, wp_bind, wp_log, wp_bind, wp_log, wp_ret.
    unfold ds_val, dataset_of in Hbits. cbn [index n_index_bits] in Hbits |- *.
    rewrite Hbits, Z.eqb_refl. apply wp_bind, wp_ret.
    eapply wp_mono;
      [|apply (wp_for_range
                 (fun i (_ : unit) (w' : world M) =>
                    w_threads w' = w_threads w
                    /\ exists evs, w_log w' = w_log w ++ evs
                                   /\ update_calls evs
                                      = Z.of_nat i * n_examples (index ds_train)))].
    + intros [] w' [_ H]. exact H.
    + split; [done|]. simpl. eexists. split; [by rewrite <- !app_assoc|done].
    + intros i [] w' Hi (Ht & evs & Hl & Hu).
      apply wp_bind, wp_log, wp_bind.
      eapply wp_mono; [|apply wp_train_epoch; simpl; try rewrite Ht; done].
      intros _ w'' (Ht' & evs' & Hl' & Hu'). simpl in Ht'. apply wp_bind.
      eapply wp_mono;
        [|apply wp_evaluate_epoch;
          [exact Hnv|exact Hmaxv|by rewrite Ht', Ht|by rewrite Ht', Ht]].
      intros _ w3 (Ht3 & evs3 & Hl3 & Hu3). apply wp_ret. simpl in *.
      split; [congruence|]. eexists.
      split; [by rewrite Hl3, Hl', Hl, <- !app_assoc|].
      rewrite !update_calls_app, Hu, Hu', Hu3. simpl. lia.
Qed.

(** The prediction pass on a test file with other index bits. *)
Lemma prediction_of_run_mismatch cmd ds_train (w : world M) :
  let ds_test := dataset_of (test_file_name cmd) in
  empty (test_file_name cmd) = false -> empty (pred_file_name cmd) = false ->
  n_index_bits (index ds_test) <> n_index_bits (index ds_train) ->
  prediction_of_run cmd ds_train w
  = (Fatal test_mismatch,
     {| w_model := w_model w; w_rnd := w_rnd w; w_hw := w_hw w;
        w_threads := w_threads w; w_loops := w_loops w;
        w_log := w_log w ++ [EvConsole (Loading (test_file_name cmd));
                             EvReadIndex (test_file_name cmd ++ ".index");
                             EvConsole (Loaded (n_examples (index ds_test)))];
        w_overrun := w_overrun w |}).
Proof.
  intros ds_test Ht Hp Hbits. unfold prediction_of_run. rewrite Ht, Hp. simpl.
  apply Z.eqb_neq in Hbits. unfold ds_test, dataset_of in Hbits. simpl in Hbits.
  cbv [bind load_dataset log modify ret throw]. simpl. rewrite Hbits.
  by rewrite <- !app_assoc.
Qed.

Lemma throws_elim {S A} (c : prog S A) Q s :
  throws c Q s -> exists msg s', c s = (Fatal msg, s') /\ Q msg s'.
Proof. unfold throws. destruct (c s) as [[a|msg|] s']; [done|eauto|done]. Qed.

(** C2, as the code has it.  With a validation file whose index bits
    differ from those of the training file, the run ends with the
    train/validation error after it has loaded the two indexes and
    created the model, and before any batch is read: the log shows
    these seven events and nothing else.  With a test file and a
    prediction file name, and index bits in the test file that differ
    from those of the training file, the run never returns normally
    and never opens or writes the prediction file; but the check comes
    after the epochs: when these run to their end, the run ends with
    the train/test error after [update] has been called once for each
    training example of each epoch. *)
Theorem index_bits_mismatch cmd (w : world M) :
  let ds_train := dataset_of (train_file_name cmd) in
  let ds_val := dataset_of (val_file_name cmd) in
  let ds_test := dataset_of (test_file_name cmd) in
  (empty (val_file_name cmd) = false ->
   n_index_bits (index ds_val) <> n_index_bits (index ds_train) ->
   exists w',
     run cmd w = (Fatal val_mismatch, w')
     /\ w_log w'
        = w_log w ++ [EvConsole (Loading (train_file_name cmd));
                      EvReadIndex (train_file_name cmd ++ ".index");
                      EvConsole (Loaded (n_examples (index ds_train)));
                      EvCreateModel (n_fields (index ds_train))
                        (n_indices (index ds_train)) (n_index_bits (index ds_train));
                      EvConsole (Loading (val_file_name cmd));
                      EvReadIndex (val_file_name cmd ++ ".index");
                      EvConsole (Loaded (n_examples (index ds_val)))])
  /\ (empty (test_file_name cmd) = false -> empty (pred_file_name cmd) = false ->
      n_index_bits (index ds_test) <> n_index_bits (index ds_train) ->
      (forall z, (run cmd w).1 <> Ok z)
      /\ exists evs, w_log (run cmd w).2 = w_log w ++ evs /\ Forall no_output evs)
  /\ (empty (test_file_name cmd) = false -> empty (pred_file_name cmd) = false ->
      n_index_bits (index ds_test) <> n_index_bits (index ds_train) ->
      0 <= n_examples (index ds_train) ->
      n_examples (index ds_train) + batch_size <= 2 ^ 64 ->
      (empty (val_file_name cmd) = false ->
       n_index_bits (index ds_val) = n_index_bits (index ds_train)
       /\ 0 <= n_examples (index ds_val)
       /\ n_examples (index ds_val) + batch_size <= 2 ^ 64) ->
      (0 < Z.to_nat (n_threads cmd))%nat ->
      (forall l n, valid_schedule (Z.to_nat (n_threads cmd)) n
                     (omp_schedule l (Z.to_nat (n_threads cmd)) n)) ->
      (forall h, rdrand h <> None) ->
      exists w' evs,
        run cmd w = (Fatal test_mismatch, w')
        /\ w_log w' = w_log w ++ evs
        /\ Forall no_output evs
        /\ update_calls evs
           = Z.of_nat (Z.to_nat (n_epochs cmd)) * n_examples (index ds_train)).
Proof.
  intros ds_train ds_val ds_test.
  assert (empty (test_file_name cmd) = false -> empty (pred_file_name cmd) = false ->
          n_index_bits (index ds_test) <> n_index_bits (index ds_train) ->
          never_returns (log_frame (Forall no_output)) (run cmd)) as Hnever.
  { intros Ht Hp Hbits. rewrite run_phases.
    assert (forall e, no_output e -> Forall no_output [e]) as H1
      by (intros; by repeat constructor).
    apply never_returns_bind_r;
      [apply _|intros s; apply log_frame_same; [apply _|done]|intros _ _ _ _].
    apply never_returns_bind_r;
      [apply _|intros s; apply log_frame_same; [apply _|done]|intros _ _ _ _].
    apply never_returns_bind_r; [apply _|apply log_frame_load; [apply _|auto]|].
    intros s ds s' Hload. apply load_dataset_returns in Hload as ->.
    apply never_returns_bind_r;
      [apply _|intros s0; by apply log_frame_log, H1|intros _ _ _ _].
    apply never_returns_bind_r;
      [apply _|intros s0; apply log_frame_same; [apply _|done]|intros _ _ _ _].
    apply never_returns_bind_r; [apply _| |intros _ _ _ _].
    { apply log_frame_epochs_of_run; [apply _|auto| |].
      - intros e He. by apply H1, eval_event_no_output.
      - apply train_trace_no_output. }
    apply never_returns_bind_l. intros s0.
    rewrite prediction_of_run_mismatch by done. simpl. split; [|done].
    eexists. split; [done|]. by repeat constructor. }
  split_and!.
  - intros Hv Hbits. apply Z.eqb_neq in Hbits.
    unfold ds_val, ds_train, dataset_of in Hbits. cbn [index n_index_bits] in Hbits.
    assert (throws (run cmd)
              (fun msg w' =>
                 msg = val_mismatch
                 /\ w_log w'
                    = w_log w ++ [EvConsole (Loading (train_file_name cmd));
                                  EvReadIndex (train_file_name cmd ++ ".index");
                                  EvConsole (Loaded (n_examples (index ds_train)));
                                  EvCreateModel (n_fields (index ds_train))
                                    (n_indices (index ds_train))
                                    (n_index_bits (index ds_train));
                                  EvConsole (Loading (val_file_name cmd));
                                  EvReadIndex (val_file_name cmd ++ ".index");
                                  EvConsole (Loaded (n_examples (index ds_val)))]) w)
      as Hthrows.
    { rewrite run_phases.
      apply throws_bind_ok, wp_modify, throws_bind_ok, wp_modify, throws_bind_ok.
      unfold load_dataset at 1.
      apply wp_bind, wp_log, wp_bind, wp_log, wp_bind, wp_log, wp_ret.
      apply throws_bind_ok, wp_log, throws_bind_ok, wp_modify, throws_bind_l.
      unfold epochs_of_run. rewrite Hv.
      apply throws_bind_ok. unfold load_dataset at 1.
      apply wp_bind, wp_log, wp_bind, wp_log, wp_bind, wp_log, wp_ret.
      apply throws_bind_l. cbn [index n_index_bits]. rewrite Hbits.
      unfold throws, throw. split; [done|]. cbn [w_log log modify snd].
      by rewrite <- !app_assoc. }
    apply throws_elim in Hthrows as (msg & w' & E & -> & Hl). eauto.
  - intros Ht Hp Hbits. destruct (Hnever Ht Hp Hbits w) as [Hfr Hno]. by split.
  - intros Ht Hp Hbits Hn Hmax Hval Hthreads Hsched Hok.
    destruct (Hnever Ht Hp Hbits w) as [(evs0 & Hl0 & Hout) _].
    assert (throws (run cmd)
              (fun msg w' =>
                 msg = test_mismatch
                 /\ exists evs, w_log w' = w_log w ++ evs
                                /\ update_calls evs
                                   = Z.of_nat (Z.to_nat (n_epochs cmd))
                                     * n_examples (index ds_train)) w) as Hthrows.
    { rewrite run_phases.
      apply throws_bind_ok, wp_modify, throws_bind_ok, wp_modify, throws_bind_ok.
      unfold load_dataset at 1.
      apply wp_bind, wp_log, wp_bind, wp_log, wp_bind, wp_log, wp_ret.
      apply throws_bind_ok, wp_log, throws_bind_ok, wp_modify, throws_bind_ok.
      eapply wp_mono; [|by apply wp_epochs_of_run].
      intros [] w1 (evs & Hl & Hu). simpl in Hl.
      apply throws_bind_l. unfold throws.
      rewrite prediction_of_run_mismatch by done. split; [done|]. simpl.
      eexists. split; [by rewrite Hl, <- !app_assoc|].
      rewrite !update_calls_app. simpl. simpl in Hu. rewrite Hu. lia. }
    apply throws_elim in Hthrows as (msg & w' & E & -> & evs & Hl & Hu).
    rewrite E in Hl0. simpl in Hl0. rewrite Hl in Hl0.
    apply app_inv_head in Hl0. subst evs0.
    exists w', evs. by split_and!.
Qed.

End RunProps.


Lemma index_bits_mismatch_witness :
  (exists w',
     @run nat (Demo.constant_model 64) demo_platform val_command
       (Demo.start demo_platform 0%nat 1)
     = (Fatal val_mismatch, w')
     /\ w_log w'
        = [] ++ [EvConsole (Loading "train"); EvReadIndex "train.index";
                 EvConsole (Loaded 3); EvCreateModel 1 1 20;
                 EvConsole (Loading "val"); EvReadIndex "val.index";
                 EvConsole (Loaded 3)])
  /\ (exists w' evs,
        @run nat (Demo.constant_model 64) demo_platform test_command
          (Demo.start demo_platform 0%nat 1)
        = (Fatal test_mismatch, w')
        /\ w_log w' = [] ++ evs
        /\ Forall no_output evs
        /\ update_calls evs = Z.of_nat (Z.to_nat 1) * 3).
Proof.
  split.
  - apply (proj1 (@index_bits_mismatch nat (Demo.constant_model 64) demo_platform
                    val_command (Demo.start demo_platform 0%nat 1))).
    + reflexivity.
    + by vm_compute.
  - apply (proj2 (proj2 (@index_bits_mismatch nat (Demo.constant_model 64)
                           demo_platform test_command
                           (Demo.start demo_platform 0%nat 1)))).
    + reflexivity.
    + reflexivity.
    + by vm_compute.
    + by vm_compute.
    + by vm_compute.
    + intros H. discriminate H.
    + simpl. lia.
    + intros l n. apply round_robin_valid. simpl. lia.
    + done.
Defined.

(** C2 fails for the test file: with 20 index bits in the training file
    and 18 in the test file, and no validation file, the run ends with
    the train/test error only after the epoch has trained on all three
    examples. *)
Lemma test_mismatch_after_training :
  n_index_bits (@read_index demo_platform "test.index")
  <> n_index_bits (@read_index demo_platform "train.index")
  /\ let r := @run nat (Demo.constant_model 64) demo_platform test_command
                (Demo.start demo_platform 0%nat 1) in
     r.1 = Fatal test_mismatch
     /\ w_model r.2 = 3%nat
     /\ update_calls (w_log r.2) = 3
     /\ Forall no_output (w_log r.2).
Proof.
  split; [by vm_compute|]. vm_compute. split_and!; try done.
  repeat constructor.
Qed.

(** * Further properties

    ** The planner in closed form *)

Lemma range_count_step step start stop :
  0 < step -> start < stop ->
  range_count step start stop = S (range_count step (start + step) stop).
Proof.
  intros Hstep Hlt. unfold range_count.
  replace (stop - start + step - 1) with ((stop - (start + step) + step - 1) + 1 * step)
    by lia.
  rewrite Z.div_add by lia.
  assert (0 <= (stop - (start + step) + step - 1) / step) by (apply Z.div_pos; lia).
  lia.
Qed.

Lemma range_count_none step start stop :
  0 < step -> stop <= start -> range_count step start stop = O.
Proof.
  intros Hstep Hle. unfold range_count.
  assert ((stop - start + step - 1) / step <= 0); [|lia].
  assert ((stop - start + step - 1) / step < 1); [|lia].
  apply Z.div_lt_upper_bound; lia.
Qed.

Lemma nth_range_shift step start stop i :
  nth_range step start stop (S i) = nth_range step (start + step) stop i.
Proof. unfold nth_range. f_equal; [lia|f_equal; lia]. Qed.

Lemma range_loop_closed_form step stop fuel start :
  0 < step -> 0 <= start -> stop + step <= 2 ^ 64 ->
  (Z.to_nat ((stop - start) / step + 1) <= fuel)%nat ->
  range_loop fuel step start stop
  = Some (nth_range step start stop <$> seq 0 (range_count step start stop)).
Proof.
  intros Hstep. revert start.
  induction fuel as [|fuel IH]; intros start Hs Hstop Hfuel.
  - assert (stop <= start) as Hle.
    { destruct (Z_lt_ge_dec start stop) as [Hlt|]; [|lia].
      destruct (planner_fuel_step step start stop) as [E Hpos]; lia. }
    simpl. destruct (Z.ltb_spec start stop); [lia|].
    by rewrite range_count_none.
  - simpl. destruct (Z.ltb_spec start stop) as [Hlt|Hge].
    + rewrite wrap64_small by lia.
      destruct (planner_fuel_step step start stop) as [E Hpos]; [done..|].
      rewrite IH by lia. rewrite (range_count_step step start stop) by done.
      cbn [seq fmap list_fmap]. f_equal. f_equal.
      * unfold nth_range. rewrite min_spec. f_equal; [lia|f_equal; lia].
      * rewrite <- seq_shift, <- list_fmap_compose. apply list_fmap_ext.
        intros _ i _. simpl. by rewrite nth_range_shift.
    + by rewrite range_count_none.
Qed.

(** X1: without shuffling, the plan of a dataset of [n] examples has
    [ceil (n / 20000)] batches, the [i]-th of which is
    [[20000 i, min (20000 (i + 1), n))]; the engine is not touched. *)
Theorem generate_batches_closed_form `{PF : Platform} (ds : batch_learn_dataset)
    (g : rng) :
  0 <= n_examples (index ds) -> n_examples (index ds) + batch_size <= 2 ^ 64 ->
  let n := n_examples (index ds) in
  generate_batches ds false g
  = Some ((fun i : nat => (20000 * Z.of_nat i, Z.min (20000 * (Z.of_nat i + 1)) n))
            <$> seq 0 (Z.to_nat ((n + 19999) / 20000)), g).
Proof.
  intros Hn Hmax n. unfold generate_batches. fold n.
  rewrite range_loop_closed_form; [|done|lia|done|done].
  unfold range_count, batch_size.
  replace (n - 0 + 20000 - 1) with (n + 19999) by lia.
  reflexivity.
Qed.

Lemma generate_batches_closed_form_witness :
  @generate_batches demo_platform (Demo.demo_dataset 50000 20) false 7%nat
  = Some ((fun i : nat => (20000 * Z.of_nat i, Z.min (20000 * (Z.of_nat i + 1)) 50000))
            <$> seq 0 (Z.to_nat ((50000 + 19999) / 20000)), 7%nat).
Proof.
  apply (@generate_batches_closed_form demo_platform (Demo.demo_dataset 50000 20) 7%nat).
  - simpl. lia.
  - simpl. unfold batch_size. lia.
Defined.

(** X2: the mini-batches of [[begin, end)] are [ceil ((end - begin) / 24)]
    ranges, the [i]-th of which is
    [[begin + 24 i, min (begin + 24 (i + 1), end))]; there is none when
    [end <= begin]. *)
Theorem generate_mini_batches_closed_form (begin end_ : Z) :
  0 <= begin -> end_ + mini_batch_size <= 2 ^ 64 ->
  generate_mini_batches begin end_
  = Some ((fun i : nat => (begin + 24 * Z.of_nat i,
                           Z.min (begin + 24 * (Z.of_nat i + 1)) end_))
            <$> seq 0 (Z.to_nat ((end_ - begin + 23) / 24)))
  /\ (end_ <= begin -> generate_mini_batches begin end_ = Some []).
Proof.
  intros Hb He. unfold generate_mini_batches.
  rewrite range_loop_closed_form; [|done|done|done|done].
  split.
  - unfold range_count, mini_batch_size.
    by replace (end_ - begin + 24 - 1) with (end_ - begin + 23) by lia.
  - intros Hle. by rewrite range_count_none.
Qed.

Lemma generate_mini_batches_closed_form_witness :
  generate_mini_batches 20000 20050
  = Some ((fun i : nat => (20000 + 24 * Z.of_nat i,
                           Z.min (20000 + 24 * (Z.of_nat i + 1)) 20050))
            <$> seq 0 (Z.to_nat ((20050 - 20000 + 23) / 24)))
  /\ (20050 <= 20000 -> generate_mini_batches 20000 20050 = Some []).
Proof.
  apply (generate_mini_batches_closed_form 20000 20050); [lia|].
  unfold mini_batch_size. lia.
Defined.

(** ** Masks and probabilities *)

(** *** The bits of a filled mask *)

Lemma lor_in_range (a b : Z) :
  0 <= a < 2 ^ 64 -> 0 <= b < 2 ^ 64 -> 0 <= Z.lor a b < 2 ^ 64.
Proof.
  intros Ha Hb.
  assert (0 <= Z.lor a b) as Hpos by (apply Z.lor_nonneg; lia).
  split; [done|].
  assert (Z.lor a b = Z.lor a b mod 2 ^ 64) as ->.
  { apply Z.bits_inj'. intros n Hn.
    destruct (Z_lt_ge_dec n 64) as [Hlt|Hge].
    - by rewrite Z.mod_pow2_bits_low.
    - rewrite Z.mod_pow2_bits_high by lia. rewrite Z.lor_spec.
      rewrite <- (Z.mod_small a (2 ^ 64)), <- (Z.mod_small b (2 ^ 64)) by lia.
      by rewrite !Z.mod_pow2_bits_high by lia. }
  apply Z.mod_pos_bound. lia.
Qed.

Lemma or_of_draws_from `{PF : Platform} (l : list nat) (w : Z) (b : Z) :
  0 <= w < 2 ^ 64 -> 0 <= b < 64 ->
  let r := fold_left Z.lor ((fun i => wrap64 (default 0 (rdrand i))) <$> l) w in
  0 <= r < 2 ^ 64
  /\ (Z.testbit r b = false
      <-> Z.testbit w b = false
          /\ forall i v, i ∈ l -> rdrand i = Some v -> Z.testbit v b = false).
Proof.
  intros Hw Hb. revert w Hw. induction l as [|i l IH]; intros w Hw r.
  - subst r. simpl. split; [done|]. split; [|tauto].
    intros H. split; [done|]. intros i v Hi. by apply elem_of_nil in Hi.
  - subst r. cbn [fmap list_fmap fold_left].
    assert (0 <= wrap64 (default 0 (rdrand i)) < 2 ^ 64) as Hv
      by (apply Z.mod_pos_bound; lia).
    destruct (IH (Z.lor w (wrap64 (default 0 (rdrand i))))) as [Hr Hbits];
      [by apply lor_in_range|].
    split; [exact Hr|]. etransitivity; [exact Hbits|].
    rewrite Z.lor_spec, orb_false_iff. unfold wrap64 at 1.
    rewrite Z.mod_pow2_bits_low by lia. split.
    + intros [[Hwb Hib] Hl]. split; [done|]. intros j v Hj Hjv.
      apply elem_of_cons in Hj as [->|Hj]; [|by eapply Hl].
      by rewrite Hjv in Hib.
    + intros [Hwb Hl]. split_and!; [done| |].
      * destruct (rdrand i) as [v|] eqn:E; simpl; [|apply Z.testbit_0_l].
        apply (Hl i v); [left|done].
      * intros j v Hj. apply Hl. by right.
Qed.

(** X4: after a fill that returns, every filled word is a 64-bit value,
    and a bit of a word is 0 exactly when it is 0 in each of the
    [zero_prob_log] draws made for that word. *)
Theorem fill_mask_rand_bits `{PF : Platform} (mask : mem) (size zero_prob_log : Z)
    (h : nat) :
  0 <= size < 2 ^ 31 ->
  let n := Z.to_nat size in
  let z := Z.to_nat zero_prob_log in
  (forall i, (i < n * z)%nat -> rdrand (h + i) <> None) ->
  exists mask' h',
    fill_mask_rand size zero_prob_log (mask, h) = (Ok tt, (mask', h'))
    /\ forall p b, (p < n)%nat -> 0 <= b < 64 ->
         0 <= mask' p < 2 ^ 64
         /\ (Z.testbit (mask' p) b = false
             <-> forall i v, (i < z)%nat -> rdrand (h + p * z + i) = Some v ->
                   Z.testbit v b = false).
Proof.
  intros Hsize n z Hok.
  destruct (fill_mask_rand_fills mask size zero_prob_log h Hsize Hok)
    as (mask' & E & Hmask').
  exists mask', (h + n * z)%nat. split; [done|]. intros p b Hp Hb.
  rewrite Hmask', decide_True by done. unfold or_of_draws.
  destruct (or_of_draws_from (seq (h + p * z) z) 0 b) as [Hr Hbits]; [lia|done|].
  split; [exact Hr|]. etransitivity; [exact Hbits|]. split.
  - intros [_ Hl] i v Hi. apply Hl. apply elem_of_seq. lia.
  - intros Hl. split; [apply Z.testbit_0_l|]. intros j v Hj Hjv.
    apply elem_of_seq in Hj.
    apply (Hl (j - (h + p * z))%nat v); [lia|].
    by replace (h + p * z + (j - (h + p * z)))%nat with j by lia.
Qed.

Lemma fill_mask_rand_bits_witness :
  exists mask' h',
    @fill_mask_rand demo_platform 2 3 (fun _ => 5, O) = (Ok tt, (mask', h'))
    /\ forall p b, (p < Z.to_nat 2)%nat -> 0 <= b < 64 ->
         0 <= mask' p < 2 ^ 64
         /\ (Z.testbit (mask' p) b = false
             <-> forall i v, (i < Z.to_nat 3)%nat ->
                   @rdrand demo_platform (0 + p * Z.to_nat 3 + i) = Some v ->
                   Z.testbit v b = false).
Proof.
  apply (@fill_mask_rand_bits demo_platform (fun _ => 5) 2 3 O); [lia|done].
Defined.

(** *** The probability *)

Lemma sigmoid_bounds (t : R) : (0 < sigmoid t < 1)%R.
Proof.
  unfold sigmoid. pose proof (exp_pos (- t)) as He.
  assert (0 < 1 + exp (- t))%R as Hd by lra. split.
  - apply Rdiv_lt_0_compat; lra.
  - apply (Rmult_lt_reg_r (1 + exp (- t))); [done|]. field_simplify; lra.
Qed.

(** ** Which errors the runners can end with *)

Section Outcomes.
Context {S : Type} (P : string -> Prop).

Lemma fails_only_ret {A} (a : A) : fails_only P (@ret S A a).
Proof. by intros s msg. Qed.

Lemma fails_only_get : fails_only P (@get S).
Proof. by intros s msg. Qed.

Lemma fails_only_modify (f : S -> S) : fails_only P (modify f).
Proof. by intros s msg. Qed.

Lemma fails_only_finished {A} (o : option A) : fails_only P (@finished S A o).
Proof. intros s msg. unfold finished. by destruct o. Qed.

Lemma fails_only_throw {A} msg : P msg -> fails_only P (@throw S A msg).
Proof. intros HP s msg' E. simpl in E. by injection E as <-. Qed.

Lemma fails_only_bind_ok {A B} (c : prog S A) (k : A -> prog S B) :
  fails_only P c ->
  (forall s a s', c s = (Ok a, s') -> fails_only P (k a)) ->
  fails_only P (bind c k).
Proof.
  intros Hc Hk s msg. unfold bind. specialize (Hc s). specialize (Hk s).
  destruct (c s) as [[a|msg'|] s']; simpl in *.
  - by apply (Hk a s').
  - intros E. injection E as <-. by apply Hc.
  - done.
Qed.

Lemma fails_only_bind {A B} (c : prog S A) (k : A -> prog S B) :
  fails_only P c -> (forall a, fails_only P (k a)) -> fails_only P (bind c k).
Proof. intros Hc Hk. apply fails_only_bind_ok; auto. Qed.

Lemma fails_only_foreach {A St} (body : A -> St -> prog S St) l st :
  (forall x st, fails_only P (body x st)) -> fails_only P (foreach body l st).
Proof.
  intros Hb. revert st. induction l as [|x l IH]; intros st; simpl.
  - apply fails_only_ret.
  - apply fails_only_bind; [apply Hb|apply IH].
Qed.

Lemma fails_only_for_range {St} n from (body : Z -> St -> prog S St) st :
  (forall i st, fails_only P (body i st)) -> fails_only P (for_range n from body st).
Proof.
  intros Hb. revert from st. induction n as [|n IH]; intros from st; simpl.
  - apply fails_only_ret.
  - apply fails_only_bind; [apply Hb|intros; apply IH].
Qed.

Lemma fails_only_parallel_for threads claims (body : nat -> R * Z -> prog S (R * Z)) :
  (forall bi acc, fails_only P (body bi acc)) ->
  fails_only P (parallel_for threads claims body).
Proof.
  intros Hb. unfold parallel_for. apply fails_only_foreach.
  intros [t bi] privates. destruct (privates !! t) as [acc|].
  - apply fails_only_bind; [apply Hb|intros; apply fails_only_ret].
  - apply fails_only_ret.
Qed.

End Outcomes.

Lemma fails_only_weaken {S A} (P Q : string -> Prop) (c : prog S A) :
  (forall msg, P msg -> Q msg) -> fails_only P c -> fails_only Q c.
Proof. intros HPQ Hc s msg E. by apply HPQ, (Hc s). Qed.

Lemma fails_only_on_fst {S X A} (P : string -> Prop) (c : prog S A) :
  fails_only P c -> fails_only P (@on_fst S X A c).
Proof.
  intros Hc [s x] msg. unfold on_fst. specialize (Hc s).
  destruct (c s) as [o s']. simpl in *. apply Hc.
Qed.

Section Returns.
Context {S : Type}.

Lemma returns_ret {A} (a : A) : returns (@ret S A a).
Proof. intros s. by exists a. Qed.

Lemma returns_get : returns (@get S).
Proof. intros s. by exists s. Qed.

Lemma returns_modify (f : S -> S) : returns (modify f).
Proof. intros s. by exists tt. Qed.

Lemma returns_bind {A B} (c : prog S A) (k : A -> prog S B) :
  returns c -> (forall a, returns (k a)) -> returns (bind c k).
Proof.
  intros Hc Hk s. unfold bind. destruct (Hc s) as [a Ha].
  destruct (c s) as [[a'|msg|] s']; simpl in *; [apply Hk|done..].
Qed.

Lemma returns_foreach {A St} (body : A -> St -> prog S St) l st :
  (forall x st, returns (body x st)) -> returns (foreach body l st).
Proof.
  intros Hb. revert st. induction l as [|x l IH]; intros st; simpl.
  - apply returns_ret.
  - apply returns_bind; [apply Hb|apply IH].
Qed.

Lemma returns_for_range {St} n from (body : Z -> St -> prog S St) st :
  (forall i st, returns (body i st)) -> returns (for_range n from body st).
Proof.
  intros Hb. revert from st. induction n as [|n IH]; intros from st; simpl.
  - apply returns_ret.
  - apply returns_bind; [apply Hb|intros; apply IH].
Qed.

Lemma returns_parallel_for threads claims (body : nat -> R * Z -> prog S (R * Z)) :
  (forall bi acc, returns (body bi acc)) ->
  returns (parallel_for threads claims body).
Proof.
  intros Hb. unfold parallel_for. apply returns_foreach.
  intros [t bi] privates. destruct (privates !! t) as [acc|].
  - apply returns_bind; [apply Hb|intros; apply returns_ret].
  - apply returns_ret.
Qed.

End Returns.

Lemma returns_on_fst {S X A} (c : prog S A) : returns c -> returns (@on_fst S X A c).
Proof.
  intros Hc [s x]. unfold on_fst. destruct (Hc s) as [a Ha].
  destruct (c s) as [o s']. simpl in *. eauto.
Qed.

Section RunnerOutcomes.
Context {M : Type} `{MD : Model M} `{PF : Platform}.

Lemma fails_only_log P e : fails_only P (@log M PF e).
Proof. by intros s msg. Qed.

Lemma fails_only_batches P ds b : fails_only P (@dataset_batches M PF ds b).
Proof.
  intros w msg. unfold dataset_batches, bind, get, finished.
  by destruct (generate_batches ds b (w_rnd w)) as [[batches g]|].
Qed.

Lemma returns_batches ds b :
  0 <= n_examples (index ds) -> n_examples (index ds) + batch_size <= 2 ^ 64 ->
  returns (@dataset_batches M PF ds b).
Proof.
  intros Hn Hmax w. unfold dataset_batches, bind, get, finished.
  destruct (generate_batches_plan ds (w_rnd w) Hn Hmax)
    as (batches & E & _ & _ & _ & sh & g' & E' & _).
  destruct b; [rewrite E'|rewrite E]; simpl; eauto.
Qed.

Lemma fails_only_shuffle_rnd {A} P (v : list A) : fails_only P (@shuffle_rnd M PF A v).
Proof.
  intros w msg. unfold shuffle_rnd, bind, get. simpl.
  by destruct (shuffle v (w_rnd w)) as [v' g].
Qed.

Lemma train_example_fails_only ds k mult bf bso ei st :
  fails_only entropy_error (train_example ds k mult bf bso ei st).
Proof.
  intros w msg E. destruct st as [mask loss].
  pose proof (fill_mask_rand_outcomes (step_words ds bf bso ei (w_model w))
                (to_int32 k) (mask, w_hw w)) as Hout.
  destruct (fill_mask_rand (step_words ds bf bso ei (w_model w)) (to_int32 k)
              (mask, w_hw w)) as [[[]|msg'|] [mask' h']] eqn:Hfill; simpl in Hout.
  - by rewrite (train_example_filled _ _ mult _ _ _ _ loss _ _ _ Hfill) in E.
  - destruct (train_example_thrown _ _ mult _ _ _ _ loss _ _ _ _ Hfill)
      as (w'' & E' & _).
    rewrite E' in E. simpl in E. injection E as <-.
    by destruct Hout as [?|Hmsg]; [|injection Hmsg as ->].
  - by destruct Hout.
Qed.

Lemma train_on_dataset_fails_only ds k :
  fails_only entropy_error (train_on_dataset ds k).
Proof.
  unfold train_on_dataset.
  apply fails_only_bind; [apply fails_only_log|intros _].
  apply fails_only_bind; [apply fails_only_batches|intros batches].
  apply fails_only_bind; [apply fails_only_get|intros w].
  apply fails_only_bind; [by intros s msg|intros l].
  apply fails_only_bind; [|intros privates].
  - apply fails_only_parallel_for. intros bi acc. unfold train_batch.
    destruct (batches !! bi) as [[bs be]|]; [|apply fails_only_ret].
    apply fails_only_bind; [apply fails_only_finished|intros mbs].
    apply fails_only_bind; [apply fails_only_log|intros _].
    apply fails_only_bind; [apply fails_only_shuffle_rnd|intros mbs'].
    apply fails_only_bind; [|intros [mask loss]; apply fails_only_ret].
    apply fails_only_foreach. intros mb st. apply fails_only_for_range.
    intros. apply train_example_fails_only.
  - apply fails_only_bind; [apply fails_only_log|intros _; apply fails_only_ret].
Qed.

Lemma fails_only_with_local {A X} P (x : X) (c : prog (world M * X) A) :
  fails_only P c -> fails_only P (with_local x c).
Proof.
  intros Hc w msg. unfold with_local. specialize (Hc (w, x)).
  destruct (c (w, x)) as [[a|msg'|] [w' x']]; simpl in *; [done| |done].
  intros E. injection E as <-. by apply Hc.
Qed.

Lemma returns_with_local {A X} (x : X) (c : prog (world M * X) A) :
  returns c -> returns (with_local x c).
Proof.
  intros Hc w. unfold with_local. destruct (Hc (w, x)) as [a Ha].
  destruct (c (w, x)) as [[a'|msg'|] [w' x']]; simpl in *; [eauto|done..].
Qed.

Lemma evaluate_example_ok ds mask bf bso ei loss (s : world M * (Z -> R)) :
  exists loss' s', evaluate_example ds mask bf bso ei loss s = (Ok loss', s').
Proof.
  destruct s as [w p].
  unfold evaluate_example, bind, get, on_fst, log, modify, ret. simpl. eauto.
Qed.

Lemma evaluate_batch_fails_only P ds mask batches bi acc :
  fails_only P (evaluate_batch ds mask batches bi acc)
  /\ returns (evaluate_batch ds mask batches bi acc).
Proof.
  unfold evaluate_batch.
  destruct (batches !! bi) as [[bs be]|]; [|split; [apply fails_only_ret|apply returns_ret]].
  assert (forall i st, fails_only P (evaluate_example ds mask
            (read_batch (data_file_name ds) (offsets (index ds) bs) (offsets (index ds) be))
            (offsets (index ds) bs) i st)
          /\ returns (evaluate_example ds mask
            (read_batch (data_file_name ds) (offsets (index ds) bs) (offsets (index ds) be))
            (offsets (index ds) bs) i st)) as Hex.
  { intros i st. split.
    - intros s msg. destruct (evaluate_example_ok ds mask
        (read_batch (data_file_name ds) (offsets (index ds) bs) (offsets (index ds) be))
        (offsets (index ds) bs) i st s) as (l' & s' & ->). done.
    - intros s. destruct (evaluate_example_ok ds mask
        (read_batch (data_file_name ds) (offsets (index ds) bs) (offsets (index ds) be))
        (offsets (index ds) bs) i st s) as (l' & s' & ->). eauto. }
  split.
  - apply fails_only_bind; [apply fails_only_on_fst, fails_only_log|intros _].
    apply fails_only_bind; [|intros; apply fails_only_ret].
    apply fails_only_for_range. intros. apply Hex.
  - apply returns_bind; [apply returns_on_fst, returns_modify|intros _].
    apply returns_bind; [|intros; apply returns_ret].
    apply returns_for_range. intros. apply Hex.
Qed.

Lemma evaluate_on_dataset_fails_only ds : fails_only no_error (evaluate_on_dataset ds).
Proof.
  unfold evaluate_on_dataset.
  apply fails_only_bind; [apply fails_only_log|intros _].
  apply fails_only_bind; [apply fails_only_batches|intros batches].
  apply fails_only_bind; [apply fails_only_get|intros w].
  apply fails_only_bind; [by intros s msg|intros l].
  apply fails_only_bind; [|intros [privates predictions]].
  - apply fails_only_with_local, fails_only_parallel_for. intros.
    apply evaluate_batch_fails_only.
  - apply fails_only_bind; [apply fails_only_log|intros _; apply fails_only_ret].
Qed.

Lemma evaluate_on_dataset_returns ds :
  0 <= n_examples (index ds) -> n_examples (index ds) + batch_size <= 2 ^ 64 ->
  returns (evaluate_on_dataset ds).
Proof.
  intros Hn Hmax. unfold evaluate_on_dataset.
  apply returns_bind; [apply returns_modify|intros _].
  apply returns_bind; [by apply returns_batches|intros batches].
  apply returns_bind; [apply returns_get|intros w].
  apply returns_bind; [intros s; by eexists|intros l].
  apply returns_bind; [|intros [privates predictions]].
  - apply returns_with_local, returns_parallel_for. intros.
    apply (evaluate_batch_fails_only no_error).
  - apply returns_bind; [apply returns_modify|intros _; apply returns_ret].
Qed.

Lemma predict_batch_outcomes P ds mask b cnt :
  fails_only P (predict_batch ds mask b cnt) /\ returns (predict_batch ds mask b cnt).
Proof.
  destruct b as [bs be]. unfold predict_batch. split.
  - apply fails_only_bind; [apply fails_only_log|intros _].
    apply fails_only_bind; [|intros; apply fails_only_ret].
    apply fails_only_for_range. intros i []. by intros s msg.
  - apply returns_bind; [apply returns_modify|intros _].
    apply returns_bind; [|intros; apply returns_ret].
    apply returns_for_range. intros i [] s. by eexists.
Qed.

Lemma predict_on_dataset_fails_only ds : fails_only no_error (predict_on_dataset ds).
Proof.
  unfold predict_on_dataset.
  apply fails_only_bind; [apply fails_only_log|intros _].
  apply fails_only_bind; [apply fails_only_batches|intros batches].
  apply fails_only_bind; [|intros; apply fails_only_log].
  apply fails_only_foreach. intros. apply predict_batch_outcomes.
Qed.

Lemma predict_on_dataset_returns ds :
  0 <= n_examples (index ds) -> n_examples (index ds) + batch_size <= 2 ^ 64 ->
  returns (predict_on_dataset ds).
Proof.
  intros Hn Hmax. unfold predict_on_dataset.
  apply returns_bind; [apply returns_modify|intros _].
  apply returns_bind; [by apply returns_batches|intros batches].
  apply returns_bind; [|intros; apply returns_modify].
  apply returns_foreach. intros. apply (predict_batch_outcomes no_error).
Qed.

(** X5: training can end with one fatal error only, the entropy
    error. *)
Theorem train_only_entropy_error ds k (w : world M) msg :
  (train_on_dataset ds k w).1 = Fatal msg -> msg = rdrand_error.
Proof. apply train_on_dataset_fails_only. Qed.

Lemma fails_only_load P name : fails_only P (@load_dataset M PF name).
Proof. by intros s msg. Qed.

(** X7: a run can end with three fatal errors only: the entropy error;
    the train/validation error, and then there is a validation file
    whose index bits differ from those of the training file; the
    train/test error, and then there are a test file and a prediction
    file name, and the index bits of the test file differ. *)
Theorem run_only_errors cmd (w : world M) msg :
  (run cmd w).1 = Fatal msg -> run_error cmd msg.
Proof.
  revert w msg. change (fails_only (run_error cmd) (run cmd)). rewrite run_phases.
  apply fails_only_bind; [apply fails_only_modify|intros _].
  apply fails_only_bind; [apply fails_only_modify|intros _].
  apply fails_only_bind_ok; [apply fails_only_load|].
  intros s ds_train s' Hload. apply load_dataset_returns in Hload as ->.
  apply fails_only_bind; [apply fails_only_log|intros _].
  apply fails_only_bind; [apply fails_only_modify|intros _].
  assert (forall ds k, fails_only (run_error cmd) (@train_on_dataset M MD PF ds k))
    as Htrain.
  { intros ds k. eapply fails_only_weaken; [|apply train_on_dataset_fails_only].
    intros msg ->. by left. }
  assert (forall ds, fails_only (run_error cmd) (@evaluate_on_dataset M MD PF ds))
    as Heval.
  { intros ds. eapply fails_only_weaken; [|apply evaluate_on_dataset_fails_only].
    by intros msg []. }
  apply fails_only_bind; [|intros _].
  { unfold epochs_of_run. destruct (empty (val_file_name cmd)) eqn:Hv.
    - apply fails_only_for_range. intros epoch [].
      apply fails_only_bind; [apply fails_only_log|intros _].
      apply fails_only_bind; [apply Htrain|intros; apply fails_only_ret].
    - apply fails_only_bind_ok; [apply fails_only_load|].
      intros s0 ds_val s0' Hload. apply load_dataset_returns in Hload as ->.
      apply fails_only_bind; [|intros _].
      + destruct (_ =? _) eqn:Hbits; [apply fails_only_ret|].
        apply fails_only_throw. right. left. split_and!; [done..|].
        by apply Z.eqb_neq.
      + apply fails_only_for_range. intros epoch [].
        apply fails_only_bind; [apply fails_only_log|intros _].
        apply fails_only_bind; [apply Htrain|intros _].
        apply fails_only_bind; [apply Heval|intros; apply fails_only_ret]. }
  apply fails_only_bind; [|intros; apply fails_only_ret].
  unfold prediction_of_run.
  destruct (empty (test_file_name cmd)) eqn:Ht; [apply fails_only_ret|].
  destruct (empty (pred_file_name cmd)) eqn:Hp; [apply fails_only_ret|]. simpl.
  apply fails_only_bind_ok; [apply fails_only_load|].
  intros s0 ds_test s0' Hload. apply load_dataset_returns in Hload as ->.
  apply fails_only_bind; [|intros _].
  - destruct (_ =? _) eqn:Hbits; [apply fails_only_ret|].
    apply fails_only_throw. right. right. split_and!; [done..|].
    by apply Z.eqb_neq.
  - apply fails_only_bind; [apply fails_only_log|intros _].
    eapply fails_only_weaken; [|apply predict_on_dataset_fails_only].
    by intros msg' [].
Qed.

End RunnerOutcomes.

Lemma train_only_entropy_error_witness :
  (@train_on_dataset nat (Demo.constant_model 64)
     (Demo.platform (Demo.failing_at 1) Demo.files) (Demo.demo_dataset 3 20) 1
     (Demo.start (Demo.platform (Demo.failing_at 1) Demo.files) 0%nat 2)).1
  = Fatal rdrand_error
  /\ rdrand_error = rdrand_error.
Proof.
  split; [by vm_compute|].
  apply (@train_only_entropy_error nat (Demo.constant_model 64)
           (Demo.platform (Demo.failing_at 1) Demo.files) (Demo.demo_dataset 3 20) 1
           (Demo.start (Demo.platform (Demo.failing_at 1) Demo.files) 0%nat 2)).
  by vm_compute.
Defined.

Lemma run_only_errors_witness :
  (@run nat (Demo.constant_model 64) demo_platform val_command
     (Demo.start demo_platform 0%nat 1)).1 = Fatal val_mismatch
  /\ @run_error demo_platform val_command val_mismatch.
Proof.
  split; [by vm_compute|].
  apply (@run_only_errors nat (Demo.constant_model 64) demo_platform val_command
           (Demo.start demo_platform 0%nat 1)).
  by vm_compute.
Defined.

(** ** The prediction pass *)

Lemma zrange_S a n : zrange a (S n) = zrange a n ++ [a + Z.of_nat n].
Proof. unfold zrange. by rewrite seq_S, fmap_app. Qed.

Lemma zrange_app a n m : zrange a (n + m) = zrange a n ++ zrange (a + Z.of_nat n) m.
Proof.
  unfold zrange. rewrite seq_app, fmap_app. f_equal. simpl.
  replace n with (n + 0)%nat at 1 by lia.
  rewrite <- (fmap_add_seq n 0 m), <- list_fmap_compose.
  apply list_fmap_ext. intros _ i _. simpl. lia.
Qed.

Lemma length_zrange a n : length (zrange a n) = n.
Proof. unfold zrange. by rewrite length_fmap, length_seq. Qed.

Lemma tiles_ordinals a l b :
  tiles a l b -> concat (ordinals <$> l) = zrange a (Z.to_nat (b - a)).
Proof.
  induction 1 as [a|a e l b Hlt Ht IH]; [by rewrite Z.sub_diag|].
  rewrite fmap_cons. cbn [concat]. rewrite IH. unfold ordinals. simpl.
  pose proof (tiles_le _ _ _ Ht).
  replace (Z.to_nat (b - a)) with (Z.to_nat (e - a) + Z.to_nat (b - e))%nat by lia.
  rewrite zrange_app. do 2 f_equal. lia.
Qed.

Lemma written_app evs evs' : written (evs ++ evs') = written evs ++ written evs'.
Proof. induction evs as [|e evs IH]; [done|]. destruct e; simpl; by rewrite ?IH. Qed.

Lemma predicted_app evs evs' : predicted (evs ++ evs') = predicted evs ++ predicted evs'.
Proof. induction evs as [|e evs IH]; [done|]. destruct e; simpl; by rewrite ?IH. Qed.

Lemma opened_app evs evs' : opened (evs ++ evs') = opened evs ++ opened evs'.
Proof. induction evs as [|e evs IH]; [done|]. destruct e; simpl; by rewrite ?IH. Qed.

Section PredictProps.
Context {M : Type} `{MD : Model M} `{PF : Platform}.

Lemma prediction_log_app m ds bs bs' evs evs' :
  prediction_log m ds bs evs -> prediction_log m ds bs' evs' ->
  prediction_log m ds (bs ++ bs') (evs ++ evs').
Proof.
  intros (H1 & H2 & H3 & H4) (H1' & H2' & H3' & H4'). unfold prediction_log.
  rewrite predicted_app, written_app, update_calls_app, opened_app, !fmap_app,
    !concat_app.
  rewrite H1, H2, H3, H4, H1', H2', H3', H4'. done.
Qed.

Lemma prediction_log_length m ds a bs b evs :
  tiles a bs b -> prediction_log m ds bs evs -> length (written evs) = Z.to_nat (b - a).
Proof.
  intros Ht (_ & Hw & _). rewrite Hw.
  transitivity (length (concat (ordinals <$> bs))).
  - clear. induction bs as [|r bs IH]; [done|].
    rewrite !fmap_cons. cbn [concat]. by rewrite !length_app, IH, length_fmap.
  - by rewrite (tiles_ordinals _ _ _ Ht), length_zrange.
Qed.

Lemma wp_predict_batch ds b cnt (w : world M) :
  b.1 <= b.2 ->
  let mask := fill_mask_ones uninit dropout_mask_max_size in
  wp (predict_batch ds mask b cnt)
     (fun cnt' w' =>
        cnt' = wrap64 (cnt + range_size b)
        /\ same_state w w'
        /\ exists evs, w_log w' = w_log w ++ evs
                       /\ prediction_log (w_model w) ds [b] evs)
     w.
Proof.
  intros Hle mask. destruct b as [bs be]. simpl in Hle. unfold predict_batch.
  apply wp_bind, wp_log. apply wp_bind.
  set (w1 := (log (EvReadBatch (data_file_name ds) (offsets (index ds) bs)
                     (offsets (index ds) be)) w).2).
  eapply wp_mono;
    [|apply (wp_for_range
               (fun i (_ : unit) (w' : world M) =>
                  same_state w w'
                  /\ exists evs,
                       w_log w' = w_log w1 ++ evs
                       /\ predicted evs = zrange bs i
                       /\ written evs
                          = (fun ei => sigmoid (eval_score (w_model w) ds (bs, be) ei))
                              <$> zrange bs i
                       /\ update_calls evs = 0
                       /\ opened evs = []))].
  - intros [] w' (Hsame & evs & Hl & Hp & Hw & Hu & Ho). apply wp_ret.
    split; [done|]. split; [done|].
    exists (EvReadBatch (data_file_name ds) (offsets (index ds) bs)
              (offsets (index ds) be) :: evs).
    split; [by rewrite Hl; unfold w1; simpl; rewrite <- app_assoc|].
    unfold prediction_log, ordinals. simpl. rewrite !app_nil_r. by split_and!.
  - split; [done|]. exists []. by rewrite app_nil_r.
  - intros i [] w' Hi ((Hm & Hr & Hh & Ht) & evs & Hl & Hp & Hw & Hu & Ho).
    clearbody w1. unfold wp, predict_example, bind, get, log, modify.
    cbn -[zrange sigmoid eval_score wrap64 compute_norm slice].
    split; [done|]. eexists. split; [by rewrite Hl, <- !app_assoc|].
    rewrite predicted_app, written_app, update_calls_app, opened_app, zrange_S,
      fmap_app. cbn -[zrange sigmoid eval_score wrap64 compute_norm slice].
    rewrite Hp, Hw, Hu, Ho, Hm. done.
Qed.

Lemma wrap64_add_l x y : wrap64 (wrap64 x + y) = wrap64 (x + y).
Proof. unfold wrap64. by rewrite Zplus_mod_idemp_l. Qed.

(** Prediction to its end. *)
Lemma predict_on_dataset_total ds (w : world M) :
  0 <= n_examples (index ds) -> n_examples (index ds) + batch_size <= 2 ^ 64 ->
  exists w' batches evs,
    predict_on_dataset ds w = (Ok tt, w')
    /\ generate_batches ds false (w_rnd w) = Some (batches, w_rnd w)
    /\ tiles 0 batches (n_examples (index ds))
    /\ same_state w w'
    /\ w_log w'
       = w_log w ++ [EvConsole Predicting] ++ evs
           ++ [EvConsole (Processed (n_examples (index ds)))]
    /\ prediction_log (w_model w) ds batches evs.
Proof.
  intros Hn Hmax.
  destruct (generate_batches_plan ds (w_rnd w) Hn Hmax)
    as (batches & Hgen & Ht & _ & Hsizes & _).
  set (w1 := (set_rnd (w_rnd w) (log (EvConsole Predicting) w).2).2).
  pose proof (wp_foreach
                (fun (seen : list (Z * Z)) (cnt : Z) (w' : world M) =>
                   cnt = wrap64 (sumZ (range_size <$> seen))
                   /\ same_state w w'
                   /\ exists evs, w_log w' = w_log w1 ++ evs
                                  /\ prediction_log (w_model w) ds seen evs)
                (predict_batch ds (fill_mask_ones uninit dropout_mask_max_size))
                batches 0 w1) as Hloop.
  apply wp_elim in Hloop as (cnt & w2 & E & -> & Hsame & evs & Hl & Hlog).
  - eexists _, batches, evs. split_and!; [|done|done| | |done].
    + unfold predict_on_dataset, dataset_batches.
      unfold bind at 1. simpl. unfold bind at 1. unfold bind at 1. simpl.
      rewrite Hgen. simpl. unfold bind at 1. unfold w1 in E. simpl in E.
      rewrite E. reflexivity.
    + done.
    + simpl. rewrite Hl. unfold w1. simpl. rewrite <- !app_assoc. simpl.
      do 4 f_equal. rewrite (tiles_sum _ _ _ Ht), Z.sub_0_r. unfold wrap64.
      rewrite Z.mod_small; [done|]. unfold batch_size in Hmax. lia.
  - split; [done|]. split; [done|]. exists []. rewrite app_nil_r. by split.
  - intros seen b rest cnt w' Hsplit (-> & (Hm & Hr & Hh & Hth) & evs & Hl & Hlog).
    assert (b.1 <= b.2) as Hle.
    { rewrite Forall_forall in Hsizes. specialize (Hsizes b). simpl in Hsizes.
      assert (0 < b.2 - b.1); [|lia]. apply Hsizes. rewrite Hsplit.
      apply elem_of_app. right. left. }
    eapply wp_mono; [|by apply wp_predict_batch].
    intros cnt' w'' (-> & (Hm' & Hr' & Hh' & Hth') & evs' & Hl' & Hlog').
    split_and!.
    + rewrite fmap_app, sumZ_app, wrap64_add_l. f_equal.
      change (sumZ (range_size <$> [b])) with (range_size b + 0). lia.
    + split_and!; congruence.
    + exists (evs ++ evs'). split; [by rewrite Hl', Hl, app_assoc|].
      apply prediction_log_app; [done|]. by rewrite <- Hm.
Qed.

(** X8: on a dataset whose count of examples is in the range of the
    planner, the prediction pass returns; it leaves the model, the
    engine and the entropy count as they were and never calls [update];
    it calls [predict] once for each example, in the order of the
    ordinals, and writes one line for each, in that order, each the
    probability [1 / (1 + exp (- t))] of the score of its example, which
    lies between 0 and 1; it opens no file itself, and the count
    it prints last is the number of examples. *)
Theorem predict_on_dataset_output ds (w : world M) :
  0 <= n_examples (index ds) -> n_examples (index ds) + batch_size <= 2 ^ 64 ->
  exists w' batches evs,
    predict_on_dataset ds w = (Ok tt, w')
    /\ generate_batches ds false (w_rnd w) = Some (batches, w_rnd w)
    /\ w_model w' = w_model w /\ w_rnd w' = w_rnd w /\ w_hw w' = w_hw w
    /\ w_log w' = w_log w ++ evs
    /\ predicted evs = zrange 0 (Z.to_nat (n_examples (index ds)))
    /\ written evs
       = concat ((fun b => (fun ei => sigmoid (eval_score (w_model w) ds b ei))
                             <$> ordinals b) <$> batches)
    /\ length (written evs) = Z.to_nat (n_examples (index ds))
    /\ Forall (fun p => (0 <= p <= 1)%R) (written evs)
    /\ update_calls evs = 0
    /\ opened evs = []
    /\ last evs = Some (EvConsole (Processed (n_examples (index ds)))).
Proof.
  intros Hn Hmax.
  destruct (predict_on_dataset_total ds w Hn Hmax)
    as (w' & batches & evs & E & Hgen & Ht & (Hm & Hr & Hh & _) & Hl
        & Hp & Hw & Hu & Ho).
  exists w', batches, ([EvConsole Predicting] ++ evs
                         ++ [EvConsole (Processed (n_examples (index ds)))]).
  assert (length (written evs) = Z.to_nat (n_examples (index ds))) as Hlen.
  { rewrite (prediction_log_length (w_model w) ds 0 batches _ evs Ht); [f_equal; lia|].
    by split_and!. }
  split_and!; try done.
  - simpl. rewrite predicted_app. simpl. rewrite app_nil_r, Hp.
    rewrite (tiles_ordinals _ _ _ Ht). by rewrite Z.sub_0_r.
  - simpl. rewrite written_app. simpl. by rewrite app_nil_r.
  - simpl. rewrite written_app. simpl. by rewrite app_nil_r.
  - simpl. rewrite written_app. simpl. rewrite app_nil_r, Hw.
    apply Forall_concat, Forall_fmap, Forall_forall. intros b _. simpl.
    apply Forall_fmap, Forall_forall. intros ei _. simpl.
    pose proof (sigmoid_bounds (eval_score (w_model w) ds b ei)). lra.
  - simpl. rewrite update_calls_app. simpl. lia.
  - simpl. rewrite opened_app. simpl. by rewrite app_nil_r.
  - by rewrite !app_assoc, last_snoc.
Qed.

End PredictProps.

Lemma predict_on_dataset_output_witness :
  exists w' batches evs,
    @predict_on_dataset nat (Demo.constant_model 64) demo_platform
      (Demo.demo_dataset 3 20) (Demo.start demo_platform 0%nat 1)
    = (Ok tt, w')
    /\ @generate_batches demo_platform (Demo.demo_dataset 3 20) false 0%nat
       = Some (batches, 0%nat)
    /\ w_model w' = 0%nat /\ w_rnd w' = 0%nat /\ w_hw w' = 0%nat
    /\ w_log w' = [] ++ evs
    /\ predicted evs = zrange 0 (Z.to_nat 3)
    /\ written evs
       = concat ((fun b => (fun ei => sigmoid (@eval_score nat (Demo.constant_model 64)
                                              demo_platform 0%nat
                                              (Demo.demo_dataset 3 20) b ei))
                             <$> ordinals b) <$> batches)
    /\ length (written evs) = Z.to_nat 3
    /\ Forall (fun p => (0 <= p <= 1)%R) (written evs)
    /\ update_calls evs = 0
    /\ opened evs = []
    /\ last evs = Some (EvConsole (Processed 3)).
Proof.
  apply (@predict_on_dataset_output nat (Demo.constant_model 64) demo_platform
           (Demo.demo_dataset 3 20) (Demo.start demo_platform 0%nat 1)).
  - simpl. lia.
  - simpl. unfold batch_size. lia.
Defined.

(** ** An epoch of training visits every example once *)

Lemma wp_conj {S A} (c : prog S A) (Q1 Q2 : A -> S -> Prop) s :
  wp c Q1 s -> wp c Q2 s -> wp c (fun a s' => Q1 a s' /\ Q2 a s') s.
Proof. unfold wp. destruct (c s) as [[a|msg|] s']; tauto. Qed.

Lemma concat_perm {A} (l l' : list (list A)) : l ≡ₚ l' -> concat l ≡ₚ concat l'.
Proof.
  induction 1 as [|x l l' _ IH|x y l|l l' l'' _ IH1 _ IH2]; simpl.
  - done.
  - by rewrite IH.
  - rewrite !app_assoc. f_equiv. apply Permutation_app_comm.
  - by etrans.
Qed.

Lemma lookup_over_seq {A B} (f : A -> B) (d : B) (l : list A) :
  (fun bi => default d (f <$> l !! bi)) <$> seq 0 (length l) = f <$> l.
Proof.
  induction l as [|x l IH] using rev_ind; [done|].
  rewrite length_app. simpl. rewrite Nat.add_1_r, seq_S, !fmap_app. simpl.
  rewrite lookup_app_r by lia. rewrite Nat.sub_diag. simpl. f_equal.
  rewrite <- IH. apply list_fmap_ext. intros i bi Hbi.
  apply lookup_seq in Hbi as [-> Hlt]. simpl.
  by rewrite lookup_app_l by lia.
Qed.

Lemma updated_app evs evs' : updated (evs ++ evs') = updated evs ++ updated evs'.
Proof. induction evs as [|e evs IH]; [done|]. destruct e; simpl; by rewrite ?IH. Qed.

Lemma visits_nil : visits [] [].
Proof. by split. Qed.

Lemma visits_app seen seen' evs evs' :
  visits seen evs -> visits seen' evs' -> visits (seen ++ seen') (evs ++ evs').
Proof.
  intros [Hp Hu] [Hp' Hu']. split.
  - by rewrite predicted_app, Hp, Hp'.
  - by rewrite updated_app, predicted_app, Hu, Hu'.
Qed.

Lemma visits_perm seen seen' evs : seen ≡ₚ seen' -> visits seen evs -> visits seen' evs.
Proof. intros Hs [Hp Hu]. split; [by rewrite Hp|done]. Qed.

Section EpochProps.
Context {M : Type} `{MD : Model M} `{PF : Platform}.

Lemma wp_train_example_visit ds k mult bf bso ei mask loss (w : world M) :
  (forall h, rdrand h <> None) ->
  wp (train_example ds k mult bf bso ei (mask, loss))
     (fun _ w' => exists evs, w_log w' = w_log w ++ evs /\ visits [ei] evs)
     w.
Proof.
  intros Hok.
  destruct (fill_mask_rand_returns (step_words ds bf bso ei (w_model w)) (to_int32 k)
              mask (w_hw w) Hok) as (mask' & h' & Hfill).
  eapply wp_intro; [by apply train_example_filled|].
  simpl. eexists. split; [done|]. by split.
Qed.

(** One batch: whatever the order the engine gives the mini-batches,
    it visits the examples of the batch. *)
Lemma wp_train_batch_visit ds k mult batches bi b acc (w : world M) :
  (forall h, rdrand h <> None) ->
  batches !! bi = Some b -> 0 <= b.1 <= b.2 -> b.2 + mini_batch_size <= 2 ^ 64 ->
  wp (train_batch ds k mult batches bi acc)
     (fun _ w' => exists evs, w_log w' = w_log w ++ evs /\ visits (ordinals b) evs)
     w.
Proof.
  intros Hok Hb Hle Hmax. unfold train_batch. rewrite Hb. destruct b as [bs be].
  simpl in Hle, Hmax.
  destruct (generate_mini_batches_plan bs be Hle Hmax) as (mbs & -> & Ht & Hsizes).
  apply wp_bind, wp_finished. apply wp_bind, wp_modify. apply wp_bind.
  eapply wp_mono; [|apply wp_shuffle_rnd].
  intros mbs' w1 [Hperm Hl1]. simpl in Hl1. apply wp_bind.
  eapply wp_mono;
    [|apply (wp_foreach
               (fun (seen : list (Z * Z)) (st : mem * R) (w' : world M) =>
                  exists evs, w_log w' = w_log w1 ++ evs
                              /\ visits (concat (ordinals <$> seen)) evs))].
  - intros [mask loss] w2 (evs & Hl2 & Hp & Hu). apply wp_ret.
    exists (EvReadBatch (data_file_name ds) (offsets (index ds) bs)
              (offsets (index ds) be) :: evs).
    split; [by rewrite Hl2, Hl1, <- app_assoc|]. split; [|done]. simpl.
    rewrite Hp, (concat_perm _ _ (fmap_Permutation _ _ _ Hperm)).
    by rewrite (tiles_ordinals _ _ _ Ht).
  - exists []. rewrite app_nil_r. split; [done|apply visits_nil].
  - intros seen mb rest [mask loss] w2 Hsplit (evs & Hl2 & Hv).
    eapply wp_mono;
      [|apply (wp_for_range
                 (fun i (st : mem * R) (w' : world M) =>
                    exists evs', w_log w' = w_log w2 ++ evs'
                                 /\ visits (zrange mb.1 i) evs'))].
    + intros st' w3 (evs' & Hl3 & Hv'). exists (evs ++ evs').
      split; [by rewrite Hl3, Hl2, app_assoc|].
      rewrite fmap_app, concat_app. simpl. rewrite app_nil_r.
      by apply visits_app.
    + exists []. rewrite app_nil_r. split; [done|apply visits_nil].
    + intros i [mask' loss'] w3 Hi (evs' & Hl3 & Hv').
      eapply wp_mono; [|by apply wp_train_example_visit].
      intros st'' w4 (evs'' & Hl4 & Hv''). simpl in *.
      exists (evs' ++ evs''). split; [by rewrite Hl4, Hl3, app_assoc|].
      rewrite zrange_S. by apply visits_app.
Qed.

Lemma wp_dataset_batches ds sh bs g (w : world M) :
  generate_batches ds sh (w_rnd w) = Some (bs, g) ->
  wp (dataset_batches ds sh)
     (fun bs' w' => bs' = bs /\ w_log w' = w_log w /\ w_threads w' = w_threads w
                    /\ w_loops w' = w_loops w)
     w.
Proof.
  intros E. unfold wp, dataset_batches, bind, get, finished. simpl. rewrite E. done.
Qed.

(** One pass of training, to its end: what it logs visits every
    example once. *)
Lemma wp_train_epoch_visits ds k (w : world M) :
  0 <= n_examples (index ds) -> n_examples (index ds) + batch_size <= 2 ^ 64 ->
  (0 < w_threads w)%nat ->
  (forall n, valid_schedule (w_threads w) n (omp_schedule (w_loops w) (w_threads w) n)) ->
  (forall h, rdrand h <> None) ->
  wp (train_on_dataset ds k)
     (fun _ w' => exists evs, w_log w' = w_log w ++ evs
                              /\ visits (zrange 0 (Z.to_nat (n_examples (index ds)))) evs)
     w.
Proof.
  intros Hn Hmax Hthreads Hsched Hok.
  destruct (generate_batches_plan ds (w_rnd w) Hn Hmax)
    as (batches & _ & Ht & _ & Hsizes & sh & g' & Hgen & Hperm).
  unfold train_on_dataset. apply wp_bind, wp_log. apply wp_bind.
  eapply wp_mono; [|by apply (wp_dataset_batches ds true sh g')].
  intros ? w1 (-> & Hl1 & Ht1 & Hlo1). simpl in Hl1, Ht1, Hlo1.
  apply wp_bind, wp_get. apply wp_bind. unfold wp at 1. simpl.
  rewrite Ht1, Hlo1. destruct (Hsched (length sh)) as [Hsp Hteam].
  apply wp_bind.
  eapply wp_mono;
    [|apply (wp_parallel_for (2 ^ 64) wrap64
               (fun bi => default 0 (range_size <$> sh !! bi))
               (fun seen (_ : R) (w' : world M) =>
                  exists evs,
                    w_log w' = w_log w1 ++ evs
                    /\ visits (concat ((fun bi => default [] (ordinals <$> sh !! bi))
                                         <$> seen)) evs));
     [lia|done|done|done| |]].
  - intros privates w3 [(evs & Hl3 & Hv) _]. apply wp_bind, wp_log, wp_ret.
    exists (EvConsole Training :: evs
              ++ [EvConsole (Report (reduce_cnt wrap64 privates)
                               (reduce_loss privates
                                / IZR (reduce_cnt wrap64 privates)))]).
    split; [simpl; rewrite Hl3, Hl1; simpl; by rewrite <- !app_assoc|].
    destruct Hv as [Hp Hu]. split.
    + simpl. rewrite predicted_app. simpl. rewrite app_nil_r, Hp.
      rewrite (concat_perm _ _ (fmap_Permutation _ _ _ Hsp)), lookup_over_seq.
      rewrite (concat_perm _ _ (fmap_Permutation _ _ _ Hperm)).
      by rewrite (tiles_ordinals _ _ _ Ht), Z.sub_0_r.
    + simpl. rewrite predicted_app, updated_app. simpl. by rewrite Hu.
  - exists []. simpl. rewrite app_nil_r. split; [done|apply visits_nil].
  - intros seen bi acc tot w' Hbi (evs & Hl & Hv).
    assert (bi < length sh)%nat as Hlt by (by eapply schedule_claims_lt).
    destruct (lookup_lt_is_Some_2 sh bi Hlt) as [b Hb].
    assert (b ∈ batches) as Hin.
    { rewrite <- Hperm. by eapply list_elem_of_lookup_2. }
    pose proof (tiles_bounds _ _ _ _ Ht Hin) as Hbounds.
    assert (0 <= b.1 <= b.2) as Hle by lia.
    assert (b.2 + mini_batch_size <= 2 ^ 64) as Hmb
      by (unfold mini_batch_size, batch_size in *; lia).
    eapply wp_mono;
      [|apply (wp_conj _ _ _ _
                 (wp_train_batch ds k _ sh bi b acc w' Hok Hb Hle Hmb)
                 (wp_train_batch_visit ds k _ sh bi b acc w' Hok Hb Hle Hmb))].
    intros acc' w'' [(evs1 & Hl1' & -> & _) (evs' & Hl' & Hv')].
    eexists. rewrite Hb. split; [done|]. exists (evs ++ evs').
    split; [by rewrite Hl', Hl, app_assoc|].
    rewrite fmap_app, concat_app. simpl. rewrite app_nil_r, Hb. simpl.
    by apply visits_app.
Qed.

(** X9: when the entropy source never fails and every batch is claimed
    once by a thread of the team, one call of [train_on_dataset] on a
    dataset whose count of examples is in the range of the planner
    returns, and what it has logged visits every example exactly once:
    the calls of [predict] are for the examples [0 .. n_examples - 1],
    each once, in an order the two shuffles and the claim order decide,
    and the calls of [update] are for the same examples in the same
    order. *)
Theorem train_visits_each_example_once ds k (w : world M) :
  0 <= n_examples (index ds) -> n_examples (index ds) + batch_size <= 2 ^ 64 ->
  (0 < w_threads w)%nat ->
  (forall n, valid_schedule (w_threads w) n (omp_schedule (w_loops w) (w_threads w) n)) ->
  (forall h, rdrand h <> None) ->
  exists res w' evs,
    train_on_dataset ds k w = (Ok res, w')
    /\ w_log w' = w_log w ++ evs
    /\ predicted evs ≡ₚ zrange 0 (Z.to_nat (n_examples (index ds)))
    /\ updated evs = predicted evs.
Proof.
  intros Hn Hmax Hthreads Hsched Hok.
  pose proof (wp_train_epoch_visits ds k w Hn Hmax Hthreads Hsched Hok) as Hwp.
  apply wp_elim in Hwp as (res & w' & E & evs & Hl & Hp & Hu).
  by exists res, w', evs.
Qed.

End EpochProps.

Lemma train_visits_each_example_once_witness :
  exists res w' evs,
    @train_on_dataset nat (Demo.constant_model 64) demo_platform
      (Demo.demo_dataset 3 20) 1 (Demo.start demo_platform 0%nat 2)
    = (Ok res, w')
    /\ w_log w' = [] ++ evs
    /\ predicted evs ≡ₚ zrange 0 (Z.to_nat 3)
    /\ updated evs = predicted evs.
Proof.
  apply (@train_visits_each_example_once nat (Demo.constant_model 64) demo_platform
           (Demo.demo_dataset 3 20) 1 (Demo.start demo_platform 0%nat 2)).
  - simpl. lia.
  - simpl. unfold batch_size. lia.
  - simpl. lia.
  - intros n. apply round_robin_valid. simpl. lia.
  - done.
Defined.

(** ** A run that comes to its end *)

Lemma wp_preserves {S A} (Rel : S -> S -> Prop) (c : prog S A) (Q : A -> S -> Prop) s :
  preserves Rel c -> wp c Q s -> wp c (fun a s' => Q a s' /\ Rel s s') s.
Proof.
  intros Hp. specialize (Hp s). unfold wp. by destruct (c s) as [[a|msg|] s'].
Qed.

Lemma no_output_silent evs : Forall no_output evs -> opened evs = [] /\ written evs = [].
Proof.
  induction 1 as [|e evs He _ [IH1 IH2]]; [done|]. by destruct e.
Qed.

Section RunToEnd.
Context {M : Type} `{MD : Model M} `{PF : Platform}.

Lemma wp_predict_on_dataset ds (w : world M) :
  0 <= n_examples (index ds) -> n_examples (index ds) + batch_size <= 2 ^ 64 ->
  wp (predict_on_dataset ds)
     (fun _ w' =>
        exists evs, w_log w' = w_log w ++ evs
                    /\ update_calls evs = 0 /\ opened evs = []
                    /\ length (written evs) = Z.to_nat (n_examples (index ds)))
     w.
Proof.
  intros Hn Hmax.
  destruct (predict_on_dataset_total ds w Hn Hmax)
    as (w' & batches & evs & E & _ & Ht & _ & Hl & Hlog).
  pose proof (prediction_log_length _ _ _ _ _ _ Ht Hlog) as Hlen.
  destruct Hlog as (_ & _ & Hu & Ho).
  eapply wp_intro; [exact E|]. eexists. split; [exact Hl|].
  rewrite !update_calls_app, !opened_app, !written_app. simpl.
  rewrite Hu, Ho, !app_nil_r. split_and!; [done..|]. rewrite Hlen. f_equal. lia.
Qed.

(** X10: a run on files whose index bits agree and whose counts of
    examples are in the range of the planner, with an entropy source
    that never fails and claim orders that give every batch to a thread
    of the team, returns 0.  What it logs falls in two parts.  The
    first holds every call of [update], one for each training example
    of each epoch, and nothing about the prediction file.  The second
    is empty unless both the test file and the prediction file are
    named; then it loads the test index, opens the prediction file,
    once, and after that writes one line for each test example and
    calls [update] no more. *)
Theorem run_to_end cmd (w : world M) :
  let ds_train := dataset_of (train_file_name cmd) in
  let ds_val := dataset_of (val_file_name cmd) in
  let ds_test := dataset_of (test_file_name cmd) in
  0 <= n_examples (index ds_train) ->
  n_examples (index ds_train) + batch_size <= 2 ^ 64 ->
  (empty (val_file_name cmd) = false ->
   n_index_bits (index ds_val) = n_index_bits (index ds_train)
   /\ 0 <= n_examples (index ds_val)
   /\ n_examples (index ds_val) + batch_size <= 2 ^ 64) ->
  (predicting cmd = true ->
   n_index_bits (index ds_test) = n_index_bits (index ds_train)
   /\ 0 <= n_examples (index ds_test)
   /\ n_examples (index ds_test) + batch_size <= 2 ^ 64) ->
  (0 < Z.to_nat (n_threads cmd))%nat ->
  (forall l n, valid_schedule (Z.to_nat (n_threads cmd)) n
                 (omp_schedule l (Z.to_nat (n_threads cmd)) n)) ->
  (forall h, rdrand h <> None) ->
  exists w' before after,
    run cmd w = (Ok 0, w')
    /\ w_log w' = w_log w ++ before ++ after
    /\ update_calls before
       = Z.of_nat (Z.to_nat (n_epochs cmd)) * n_examples (index ds_train)
    /\ Forall no_output before
    /\ if predicting cmd then
         exists evs,
           after = [EvConsole (Loading (test_file_name cmd));
                    EvReadIndex (test_file_name cmd ++ ".index");
                    EvConsole (Loaded (n_examples (index ds_test)));
                    EvOpen (pred_file_name cmd)] ++ evs
           /\ update_calls evs = 0
           /\ opened evs = []
           /\ length (written evs) = Z.to_nat (n_examples (index ds_test))
       else after = [].
Proof.
  intros ds_train ds_val ds_test Hn Hmax Hval Hpred Hthreads Hsched Hok.
  assert (wp (run cmd)
            (fun z w' =>
               z = 0
               /\ exists before after,
                    w_log w' = w_log w ++ before ++ after
                    /\ update_calls before
                       = Z.of_nat (Z.to_nat (n_epochs cmd)) * n_examples (index ds_train)
                    /\ Forall no_output before
                    /\ if predicting cmd then
                         exists evs,
                           after = [EvConsole (Loading (test_file_name cmd));
                                    EvReadIndex (test_file_name cmd ++ ".index");
                                    EvConsole (Loaded (n_examples (index ds_test)));
                                    EvOpen (pred_file_name cmd)] ++ evs
                           /\ update_calls evs = 0
                           /\ opened evs = []
                           /\ length (written evs)
                              = Z.to_nat (n_examples (index ds_test))
                       else after = []) w) as Hwp.
  { rewrite run_phases.
    apply wp_bind, wp_modify, wp_bind, wp_modify, wp_bind.
    unfold load_dataset at 1.
    apply wp_bind, wp_log, wp_bind, wp_log, wp_bind, wp_log, wp_ret.
    apply wp_bind, wp_log, wp_bind, wp_modify, wp_bind.
    eapply wp_mono;
      [|apply (wp_preserves (log_frame (Forall no_output)));
        [apply log_frame_epochs_of_run|by apply wp_epochs_of_run]].
    - intros [] w1 [(evs & Hl & Hu) (evs0 & Hl0 & Hout)]. simpl in Hl, Hl0.
      rewrite Hl in Hl0. apply app_inv_head in Hl0. subst evs0.
      apply wp_bind. unfold prediction_of_run. fold (predicting cmd).
      destruct (predicting cmd).
      + destruct (Hpred eq_refl) as (Hbits & Hnt & Hmaxt).
        apply wp_bind. unfold load_dataset at 1.
        apply wp_bind, wp_log, wp_bind, wp_log, wp_bind, wp_log, wp_ret.
        apply Z.eqb_eq in Hbits.
        unfold ds_test, ds_train, dataset_of in Hbits.
        cbn [index n_index_bits] in Hbits. cbn [index n_index_bits].
        rewrite Hbits. apply wp_bind, wp_ret, wp_bind, wp_log.
        eapply wp_mono; [|by apply wp_predict_on_dataset].
        intros [] w2 (evs' & Hl' & Hu' & Ho' & Hw'). apply wp_ret.
        split; [done|].
        exists ([EvConsole (Loading (train_file_name cmd));
                 EvReadIndex (train_file_name cmd ++ ".index");
                 EvConsole (Loaded (n_examples (index ds_train)));
                 EvCreateModel (n_fields (index ds_train))
                   (n_indices (index ds_train)) (n_index_bits (index ds_train))]
                  ++ evs).
        eexists. split_and!.
        * rewrite Hl'. cbn [w_log log modify snd]. rewrite Hl.
          rewrite <- !app_assoc. reflexivity.
        * rewrite update_calls_app. simpl. simpl in Hu. rewrite Hu. lia.
        * apply Forall_app. split; [by repeat constructor|done].
        * exists evs'. by split_and!.
      + apply wp_ret, wp_ret. split; [done|].
        exists ([EvConsole (Loading (train_file_name cmd));
                 EvReadIndex (train_file_name cmd ++ ".index");
                 EvConsole (Loaded (n_examples (index ds_train)));
                 EvCreateModel (n_fields (index ds_train))
                   (n_indices (index ds_train)) (n_index_bits (index ds_train))]
                  ++ evs), [].
        split_and!.
        * rewrite Hl, app_nil_r. by rewrite <- !app_assoc.
        * rewrite update_calls_app. simpl. simpl in Hu. rewrite Hu. lia.
        * apply Forall_app. split; [by repeat constructor|done].
        * done.
    - apply Forall_closed.
    - intros e _ _ He. by repeat constructor.
    - intros e He. repeat constructor. by apply eval_event_no_output.
    - apply train_trace_no_output. }
  apply wp_elim in Hwp as (z & w' & E & -> & before & after & H).
  by exists w', before, after.
Qed.

End RunToEnd.

Lemma run_to_end_witness :
  exists w' before after,
    @run nat (Demo.constant_model 64) uniform_platform test_command
      (Demo.start uniform_platform 0%nat 1)
    = (Ok 0, w')
    /\ w_log w' = [] ++ before ++ after
    /\ update_calls before = Z.of_nat (Z.to_nat 1) * 3
    /\ Forall no_output before
    /\ if predicting test_command then
         exists evs,
           after = [EvConsole (Loading "test"); EvReadIndex ("test" ++ ".index");
                    EvConsole (Loaded 3); EvOpen "out.txt"] ++ evs
           /\ update_calls evs = 0
           /\ opened evs = []
           /\ length (written evs) = Z.to_nat 3
       else after = [].
Proof.
  apply (@run_to_end nat (Demo.constant_model 64) uniform_platform test_command
           (Demo.start uniform_platform 0%nat 1)).
  - simpl. lia.
  - simpl. unfold batch_size. lia.
  - intros Hv. by vm_compute in Hv.
  - intros _. simpl. unfold batch_size. split_and!; [done|lia|lia].
  - simpl. lia.
  - intros l n. apply round_robin_valid. simpl. lia.
  - done.
Defined.

(** ** The prediction file *)

Lemma preserves_prefix {S A B} (Rel1 D : S -> S -> Prop)
    (c : prog S A) (k : A -> prog S B) :
  (forall s s', Rel1 s s' -> D s s') ->
  (forall s s' s'', Rel1 s s' -> D s' s'' -> D s s'') ->
  preserves Rel1 c ->
  (forall s a s', c s = (Ok a, s') -> preserves D (k a)) ->
  preserves D (bind c k).
Proof.
  intros Hin Hpre Hc Hk s. unfold bind. specialize (Hc s). specialize (Hk s).
  destruct (c s) as [[a|msg|] s']; simpl in *; [|by apply Hin..].
  eapply Hpre; [exact Hc|]. by eapply Hk.
Qed.

Lemma preserves_then_ret {S A B} (D : S -> S -> Prop) (c : prog S A) (b : B) :
  preserves D c -> preserves D (c ;; ret b).
Proof.
  intros Hc s. specialize (Hc s). unfold bind. by destruct (c s) as [[a|msg|] s'].
Qed.

Lemma prediction_events_quiet evs :
  Forall prediction_event evs -> opened evs = [] /\ update_calls evs = 0.
Proof.
  induction 1 as [|e evs He _ [IH1 IH2]]; [done|]. by destruct e.
Qed.

Section Output.
Context {M : Type} `{MD : Model M} `{PF : Platform}.

#[local] Existing Instance Forall_closed.
#[local] Existing Instance log_frame_preorder.

#[local] Abbreviation NO := (@log_frame M PF (Forall no_output)).

Lemma output_discipline_in cmd (w w' : world M) : NO w w' -> output_discipline cmd w w'.
Proof.
  intros (evs & Hl & Hout). exists evs, []. rewrite app_nil_r. by split_and!; [..|left].
Qed.

Lemma output_discipline_prefix cmd (w w' w'' : world M) :
  NO w w' -> output_discipline cmd w' w'' -> output_discipline cmd w w''.
Proof.
  intros (evs & Hl & Hout) (before & after & Hl' & Hb & Ha).
  exists (evs ++ before), after. split_and!; [|by apply Forall_app|done].
  by rewrite Hl', Hl, <- !app_assoc.
Qed.

(** The prediction pass, whatever its outcome, logs prediction events
    only. *)
Lemma predict_on_dataset_events ds :
  preserves (@log_frame M PF (Forall prediction_event)) (predict_on_dataset ds).
Proof.
  assert (forall e, prediction_event e -> Forall prediction_event [e]) as HP
    by (intros; by repeat constructor).
  unfold predict_on_dataset.
  apply preserves_bind; [apply _|intros w; by apply log_frame_log, HP|intros _].
  apply preserves_bind; [apply _|apply log_frame_batches; apply _|intros batches].
  apply preserves_bind; [apply _| |intros cnt; intros w; by apply log_frame_log, HP].
  apply preserves_foreach; [apply _|]. intros [bs be] cnt. unfold predict_batch.
  apply preserves_bind; [apply _|intros w; by apply log_frame_log, HP|intros _].
  apply preserves_bind; [apply _| |intros _; pres_ret].
  apply preserves_for_range; [apply _|]. intros ei []. unfold predict_example.
  apply preserves_bind; [apply _|apply preserves_get; apply _|intros w].
  apply preserves_bind; [apply _| |intros _; intros w'; by apply log_frame_log, HP].
  intros w'. apply log_frame_log, HP. split; [done|]. apply fill_mask_ones_max.
Qed.

Lemma prediction_of_run_discipline cmd ds_train :
  preserves (@output_discipline M PF cmd) (prediction_of_run cmd ds_train).
Proof.
  assert (forall e, no_output e -> Forall no_output [e]) as H1
    by (intros; by repeat constructor).
  unfold prediction_of_run. fold (predicting cmd).
  destruct (predicting cmd) eqn:Hp.
  - apply (preserves_prefix NO);
      [apply output_discipline_in|apply output_discipline_prefix
      |apply log_frame_load; [apply _|auto]|intros _ ds_test _ _].
    apply (preserves_prefix NO);
      [apply output_discipline_in|apply output_discipline_prefix| |intros _ _ _ _].
    { destruct (_ =? _); [pres_ret|apply preserves_throw; apply _]. }
    intros w.
    change (output_discipline cmd w
              (predict_on_dataset ds_test (log (EvOpen (pred_file_name cmd)) w).2).2).
    destruct (predict_on_dataset_events ds_test (log (EvOpen (pred_file_name cmd)) w).2)
      as (evs & Hl & Hevs).
    exists [], (EvOpen (pred_file_name cmd) :: evs). split_and!.
    + rewrite Hl. simpl. by rewrite <- app_assoc.
    + constructor.
    + right. split; [done|]. by exists evs.
  - intros w. simpl. exists [], []. rewrite app_nil_r. by split_and!; [..|left].
Qed.

Lemma run_discipline cmd : preserves (@output_discipline M PF cmd) (run cmd).
Proof.
  assert (forall e, no_output e -> Forall no_output [e]) as H1
    by (intros; by repeat constructor).
  rewrite run_phases.
  apply (preserves_prefix NO);
    [apply output_discipline_in|apply output_discipline_prefix
    |intros s; apply log_frame_same; [apply _|done]|intros _ _ _ _].
  apply (preserves_prefix NO);
    [apply output_discipline_in|apply output_discipline_prefix
    |intros s; apply log_frame_same; [apply _|done]|intros _ _ _ _].
  apply (preserves_prefix NO);
    [apply output_discipline_in|apply output_discipline_prefix
    |apply log_frame_load; [apply _|auto]|intros _ ds_train _ _].
  apply (preserves_prefix NO);
    [apply output_discipline_in|apply output_discipline_prefix
    |intros s; by apply log_frame_log, H1|intros _ _ _ _].
  apply (preserves_prefix NO);
    [apply output_discipline_in|apply output_discipline_prefix
    |intros s; apply log_frame_same; [apply _|done]|intros _ _ _ _].
  apply (preserves_prefix NO);
    [apply output_discipline_in|apply output_discipline_prefix| |intros _ _ _ _].
  { apply log_frame_epochs_of_run; [apply _|auto| |].
    - intros e He. by apply H1, eval_event_no_output.
    - apply train_trace_no_output. }
  apply preserves_then_ret, prediction_of_run_discipline.
Qed.

(** X11: whatever the command, the state and the outcome, the log of a
    run falls in two parts.  The first holds nothing about the
    prediction file.  The second is empty, and is so when the test file
    or the prediction file is not named; or it starts with the opening
    of the prediction file the command names and goes on with events of
    the prediction pass only: the file is opened at most once, every
    line is written after it is opened, and no call of [update] follows
    the opening. *)
Theorem run_output_discipline cmd (w : world M) :
  exists before after,
    w_log (run cmd w).2 = w_log w ++ before ++ after
    /\ opened before = [] /\ written before = []
    /\ (predicting cmd = false -> after = [])
    /\ (after = []
        \/ exists evs, after = EvOpen (pred_file_name cmd) :: evs
                       /\ opened evs = [] /\ update_calls evs = 0
                       /\ Forall prediction_event evs).
Proof.
  destruct (run_discipline cmd w) as (before & after & Hl & Hb & Ha).
  exists before, after. destruct (no_output_silent _ Hb) as [Ho Hw].
  split_and!; [done..| |].
  - intros Hp. destruct Ha as [->|[Hp' _]]; [done|congruence].
  - destruct Ha as [->|(_ & evs & -> & Hevs)]; [by left|right].
    exists evs. destruct (prediction_events_quiet _ Hevs). by split_and!.
Qed.

End Output.

(** ** The features of the examples of a batch *)

Lemma take_add {A} (n m : nat) (l : list A) :
  take (n + m) l = take n l ++ take m (drop n l).
Proof.
  revert l. induction n as [|n IH]; intros [|x l]; simpl; try done.
  - by rewrite take_nil.
  - by rewrite IH.
Qed.

Lemma slice_app (data : list feature) (a c d : Z) :
  0 <= a <= c -> c <= d -> slice data a c ++ slice data c d = slice data a d.
Proof.
  intros Hac Hcd. unfold slice.
  replace (Z.to_nat (d - a)) with (Z.to_nat (c - a) + Z.to_nat (d - c))%nat by lia.
  rewrite take_add, drop_drop. do 3 f_equal. lia.
Qed.

Section Slices.
Context `{PF : Platform}.

Lemma example_features_upto ds (bs be : Z) (n : nat) :
  let off := offsets (index ds) in
  (forall i, bs <= i <= be -> 0 <= off i < 2 ^ 64) ->
  (forall i, bs <= i < be -> off i <= off (i + 1)) ->
  bs + Z.of_nat n <= be ->
  off bs <= off (bs + Z.of_nat n)
  /\ concat (example_features ds (bs, be) <$> zrange bs n)
     = slice (read_batch (data_file_name ds) (off bs) (off be))
             0 (off (bs + Z.of_nat n) - off bs).
Proof.
  intros off Hrange Hmono. induction n as [|n IH]; intros Hn.
  - rewrite Z.add_0_r, Z.sub_diag. split; [lia|]. unfold slice. simpl. by rewrite take_0.
  - destruct IH as [Hle IH]; [lia|].
    pose proof (Hmono (bs + Z.of_nat n) ltac:(lia)) as Hstep.
    pose proof (Hrange bs ltac:(lia)) as Hbs.
    pose proof (Hrange (bs + Z.of_nat n) ltac:(lia)) as Hlo.
    pose proof (Hrange (bs + Z.of_nat n + 1) ltac:(lia)) as Hhi.
    replace (bs + Z.of_nat (S n)) with (bs + Z.of_nat n + 1) by lia.
    split; [lia|].
    rewrite zrange_S, fmap_app, concat_app, IH. simpl. rewrite app_nil_r.
    unfold example_features. simpl. fold off. unfold wrap64.
    rewrite !Z.mod_small by lia. apply slice_app; lia.
Qed.

(** X12: in a batch whose offsets are in the range of [uint64_t] and do
    not decrease, and for which [read_batch] gives as many features as
    lie between the offsets of its ends, the feature ranges the runners
    compute for the examples of the batch follow each other without gap
    or overlap, in the order of the examples, and together are the
    features read: every feature of the batch belongs to exactly one
    example. *)
Theorem example_features_partition ds (b : Z * Z) :
  let off := offsets (index ds) in
  let batch_features := read_batch (data_file_name ds) (off b.1) (off b.2) in
  b.1 <= b.2 ->
  (forall i, b.1 <= i <= b.2 -> 0 <= off i < 2 ^ 64) ->
  (forall i, b.1 <= i < b.2 -> off i <= off (i + 1)) ->
  length batch_features = Z.to_nat (off b.2 - off b.1) ->
  concat (example_features ds b <$> ordinals b) = batch_features.
Proof.
  destruct b as [bs be]. simpl. intros Hle Hrange Hmono Hlen.
  destruct (example_features_upto ds bs be (Z.to_nat (be - bs)) Hrange Hmono)
    as [_ E]; [lia|].
  unfold ordinals. simpl. rewrite E.
  replace (bs + Z.of_nat (Z.to_nat (be - bs))) with be by lia.
  unfold slice. simpl. rewrite Z.sub_0_r. apply take_ge. lia.
Qed.

End Slices.

Lemma example_features_partition_witness :
  concat (@example_features demo_platform (Demo.demo_dataset 3 20) (0, 3)
            <$> ordinals (0, 3))
  = @read_batch demo_platform "train.data" 0 3.
Proof.
  apply (@example_features_partition demo_platform (Demo.demo_dataset 3 20) (0, 3)).
  - simpl. lia.
  - simpl. intros i Hi. lia.
  - simpl. intros i Hi. lia.
  - reflexivity.
Defined.

(** ** The steps of training and the dropout of a run *)

Lemma elem_of_zrange (a : Z) (n : nat) (x : Z) :
  x ∈ zrange a n <-> a <= x < a + Z.of_nat n.
Proof.
  unfold zrange. rewrite list_elem_of_fmap. split.
  - intros (i & -> & Hi). apply elem_of_seq in Hi. lia.
  - intros Hx. exists (Z.to_nat (x - a)). split; [lia|]. apply elem_of_seq. lia.
Qed.

Lemma ends_bind_ok {S A B} (c : prog S A) (k : A -> prog S B) (Q : S -> Prop) s :
  wp c (fun a s' => ends (k a) Q s') s -> ends (bind c k) Q s.
Proof. unfold wp, ends, bind. by destruct (c s) as [[a|msg|] s']. Qed.

Lemma quiet_events_updates (evs : list event) :
  Forall quiet_event evs -> update_calls evs = 0.
Proof. induction 1 as [|e evs He _ IH]; simpl; [done|]. by destruct e. Qed.

(** Flipping the bit [b] of a 64-bit value gives a 64-bit value with the
    other bit at [b], and flipping again gives the value back: the
    values with the bit 0 and the values with the bit 1 are as many. *)
Lemma flip_bit_pairs (v b : Z) :
  0 <= v < 2 ^ 64 -> 0 <= b < 64 ->
  let v' := Z.lxor v (2 ^ b) in
  0 <= v' < 2 ^ 64
  /\ Z.testbit v' b = negb (Z.testbit v b)
  /\ Z.lxor v' (2 ^ b) = v.
Proof.
  intros Hv Hb v'. unfold v'. split; [|split].
  - assert (0 <= 2 ^ b) as Hp by (apply Z.pow_nonneg; lia).
    assert (0 <= Z.lxor v (2 ^ b)) as Hpos by (apply Z.lxor_nonneg; lia).
    split; [done|].
    assert (Z.lxor v (2 ^ b) = Z.lxor v (2 ^ b) mod 2 ^ 64) as ->.
    { apply Z.bits_inj'. intros n Hn.
      destruct (Z_lt_ge_dec n 64) as [Hlt|Hge].
      - by rewrite Z.mod_pow2_bits_low.
      - rewrite Z.mod_pow2_bits_high by lia. rewrite Z.lxor_spec.
        rewrite <- (Z.mod_small v (2 ^ 64)) by lia.
        rewrite Z.mod_pow2_bits_high by lia.
        rewrite Z.pow2_bits_false by lia. done. }
    apply Z.mod_pos_bound. lia.
  - rewrite Z.lxor_spec, Z.pow2_bits_true by lia. apply xorb_true_r.
  - by rewrite Z.lxor_assoc, Z.lxor_nilpotent, Z.lxor_0_r.
Qed.

Section DropoutClaims.
Context {M : Type} `{MD : Model M} `{PF : Platform}.

#[local] Existing Instance Forall_closed.
#[local] Existing Instance run_trace_closed.
#[local] Existing Instance log_frame_preorder.

(** In a training trace, the call of [predict] for an example is
    followed at once by the call of [update] for it, with the gradient
    scale of the score that [predict] returned. *)
Lemma train_trace_step (y : Z -> R) mult (evs : list event) ei :
  train_trace y mult evs -> ei ∈ predicted evs ->
  exists pre post (m : M) fs mask,
    let norm := compute_norm fs in
    let t := predict m fs norm mask mult in
    evs = pre ++ EvPredict ei norm mask mult t
                 :: EvUpdate ei norm (gradient_scale (y ei) t) mask mult :: post.
Proof.
  induction 1 as [|evs _ IH|cnt mean evs _ IH|file a b evs _ IH|m fs ei' mask evs _ IH];
    simpl; intros Hin.
  - by apply elem_of_nil in Hin.
  - destruct (IH Hin) as (pre & post & m & fs & mask & ->).
    by exists (EvConsole Training :: pre), post, m, fs, mask.
  - destruct (IH Hin) as (pre & post & m & fs & mask & ->).
    by exists (EvConsole (Report cnt mean) :: pre), post, m, fs, mask.
  - destruct (IH Hin) as (pre & post & m & fs & mask & ->).
    by exists (EvReadBatch file a b :: pre), post, m, fs, mask.
  - apply elem_of_cons in Hin as [->|Hin].
    + by exists [], evs, m, fs, mask.
    + destruct (IH Hin) as (pre & post & m' & fs' & mask' & ->).
      by exists (EvPredict ei' norm mask mult t
                   :: EvUpdate ei' norm (gradient_scale (y ei') t) mask mult :: pre),
        post, m', fs', mask'.
Qed.

(** C6: for a zero-probability-log [k] between 1 and 30 the dropout
    multiplier is [2 ^ k / (2 ^ k - 1)].  Whatever the outcome of
    training, what it appends to the log is console lines, batch reads
    and steps, where a step is a call of [predict] with that multiplier
    followed at once by a call of [update] for the same example with
    the same mask and multiplier and with the gradient scale
    [- y * exp (- y * t) / (1 + exp (- y * t))] for the label [y] of the
    example and the score [t] the call of [predict] returned.  And when
    the entropy source never fails and every batch is claimed once by a
    thread of the team, training returns and has made such a step for
    every example: the calls of [predict] are for a permutation of the
    examples, the calls of [update] for the same examples in the same
    order, and for each example the log holds its call of [predict]
    followed by its call of [update] with that gradient scale. *)
Theorem train_multiplier_and_gradient ds k (w : world M) :
  1 <= k <= 30 ->
  let mult := (IZR (2 ^ k) / (IZR (2 ^ k) - 1))%R in
  let y := labels (index ds) in
  dropout_multiplier k = mult
  /\ (exists evs,
        w_log (train_on_dataset ds k w).2 = w_log w ++ evs
        /\ train_trace y mult evs)
  /\ (0 <= n_examples (index ds) -> n_examples (index ds) + batch_size <= 2 ^ 64 ->
      (0 < w_threads w)%nat ->
      (forall n, valid_schedule (w_threads w) n
                   (omp_schedule (w_loops w) (w_threads w) n)) ->
      (forall h, rdrand h <> None) ->
      exists res w' evs,
        train_on_dataset ds k w = (Ok res, w')
        /\ w_log w' = w_log w ++ evs
        /\ train_trace y mult evs
        /\ predicted evs ≡ₚ zrange 0 (Z.to_nat (n_examples (index ds)))
        /\ updated evs = predicted evs
        /\ forall ei, 0 <= ei < n_examples (index ds) ->
             exists pre post (m : M) fs mask,
               let norm := compute_norm fs in
               let t := predict m fs norm mask mult in
               evs = pre ++ EvPredict ei norm mask mult t
                            :: EvUpdate ei norm (gradient_scale (y ei) t) mask mult
                            :: post).
Proof.
  intros Hk mult y.
  assert (dropout_multiplier k = mult) as Hmult.
  { unfold dropout_multiplier, mult. by rewrite shl_int_pow by lia. }
  split; [done|]. rewrite <- Hmult. split.
  - destruct (train_on_dataset_frame ds k w) as (_ & evs & Hl & Htrace). eauto.
  - intros Hn Hmax Hthreads Hsched Hok.
    pose proof (wp_train_epoch_visits ds k w Hn Hmax Hthreads Hsched Hok) as Hwp.
    apply wp_elim in Hwp as (res & w' & E & evs & Hl & Hp & Hu).
    pose proof (train_on_dataset_frame ds k w) as Hfr. rewrite E in Hfr.
    destruct Hfr as (_ & evs' & Hl' & Htrace). simpl in Hl'.
    rewrite Hl in Hl'. apply app_inv_head in Hl'. subst evs'.
    exists res, w', evs. split_and!; [done..|].
    intros ei Hei. apply (train_trace_step y _ evs ei Htrace).
    rewrite Hp. apply elem_of_zrange. lia.
Qed.

(** A mask drawn with one draw a word: every word is the value of one
    execution of the entropy instruction, bit for bit. *)
Lemma drawn_mask_one (n h : nat) (mask : mem) :
  drawn_mask 1 n h mask ->
  forall p, (p < n)%nat ->
    exists v, rdrand (h + p) = Some v
              /\ forall b, 0 <= b < 64 -> Z.testbit (mask p) b = Z.testbit v b.
Proof.
  intros Hd p Hp. destruct (Hd p Hp) as [Hok Hm].
  specialize (Hok 0%nat ltac:(lia)).
  replace (h + p * 1 + 0)%nat with (h + p)%nat in Hok by lia.
  replace (h + p * 1)%nat with (h + p)%nat in Hm by lia.
  destruct (rdrand (h + p)) as [v|] eqn:E; [|done].
  exists v. split; [done|]. intros b Hb. rewrite Hm. unfold or_of_draws.
  cbn [seq map fold_left]. rewrite E. cbn [default]. rewrite Z.lor_0_l.
  unfold wrap64, Datatypes.id. apply Z.mod_pow2_bits_low. lia.
Qed.

(** One pass of training of a run, to its end. *)
Lemma wp_train_epoch_log ds (w : world M) :
  0 <= n_examples (index ds) -> n_examples (index ds) + batch_size <= 2 ^ 64 ->
  (0 < w_threads w)%nat ->
  (forall l n, valid_schedule (w_threads w) n (omp_schedule l (w_threads w) n)) ->
  (forall h, rdrand h <> None) ->
  wp (train_on_dataset ds 1)
     (fun _ w' =>
        w_threads w' = w_threads w
        /\ exists tr, w_log w' = w_log w ++ tr
                      /\ dropout_trace (labels (index ds)) 1 tr
                      /\ visits (zrange 0 (Z.to_nat (n_examples (index ds)))) tr)
     w.
Proof.
  intros Hn Hmax Hthreads Hsched Hok.
  eapply wp_mono;
    [|apply (wp_preserves (dropout_frame (labels (index ds)) 1));
      [apply train_on_dataset_dropout_frame
      |by apply (wp_train_epoch_visits ds 1 w Hn Hmax Hthreads (Hsched _) Hok)]].
  intros _ w' [(evs & Hl & Hv) (Ht & evs' & Hl' & Hd)]. simpl in *.
  rewrite Hl in Hl'. apply app_inv_head in Hl'. subst evs'.
  split; [done|]. by exists evs.
Qed.

(** One evaluation of a run, to its end. *)
Lemma wp_evaluate_epoch_log ds (w : world M) :
  0 <= n_examples (index ds) -> n_examples (index ds) + batch_size <= 2 ^ 64 ->
  (0 < w_threads w)%nat ->
  (forall l n, valid_schedule (w_threads w) n (omp_schedule l (w_threads w) n)) ->
  wp (evaluate_on_dataset ds)
     (fun _ w' => w_threads w' = w_threads w
                  /\ exists ev, w_log w' = w_log w ++ ev /\ Forall eval_event ev)
     w.
Proof.
  intros Hn Hmax Hthreads Hsched.
  destruct (evaluate_on_dataset_total ds w Hn Hmax Hthreads (Hsched _))
    as (loss & cnt & predictions & w' & batches & E & _).
  pose proof (evaluate_on_dataset_frame ds w) as Hfr.
  eapply wp_intro; [exact E|]. rewrite E in Hfr.
  destruct Hfr as (_ & _ & _ & Ht & evs & Hl & Hevs). simpl in *. split; [done|].
  by exists evs.
Qed.

(** The epochs of a run, to their end, epoch by epoch. *)
Lemma wp_epochs_log cmd ds_train (w : world M) :
  let ds_val := dataset_of (val_file_name cmd) in
  let y := labels (index ds_train) in
  0 <= n_examples (index ds_train) ->
  n_examples (index ds_train) + batch_size <= 2 ^ 64 ->
  (empty (val_file_name cmd) = false ->
   n_index_bits (index ds_val) = n_index_bits (index ds_train)
   /\ 0 <= n_examples (index ds_val)
   /\ n_examples (index ds_val) + batch_size <= 2 ^ 64) ->
  (0 < w_threads w)%nat ->
  (forall l n, valid_schedule (w_threads w) n (omp_schedule l (w_threads w) n)) ->
  (forall h, rdrand h <> None) ->
  wp (epochs_of_run cmd ds_train)
     (fun _ w' =>
        exists pre segs,
          w_log w' = w_log w ++ pre ++ concat segs
          /\ Forall no_batch pre
          /\ Forall2 (epoch_log y (n_examples (index ds_train)))
                     (zrange 0 (Z.to_nat (n_epochs cmd))) segs)
     w.
Proof.
  intros ds_val y Hn Hmax Hval Hthreads Hsched Hok. unfold epochs_of_run.
  destruct (empty (val_file_name cmd)).
  - eapply wp_mono;
      [|apply (wp_for_range
                 (fun i (_ : unit) (w' : world M) =>
                    w_threads w' = w_threads w
                    /\ exists segs,
                         w_log w' = w_log w ++ concat segs
                         /\ Forall2 (epoch_log y (n_examples (index ds_train)))
                                    (zrange 0 i) segs))].
    + intros [] w' (_ & segs & Hl & Hsegs). exists [], segs. by split_and!.
    + split; [done|]. exists []. rewrite app_nil_r. split; [done|constructor].
    + intros i [] w' Hi (Ht & segs & Hl & Hsegs).
      apply wp_bind, wp_log, wp_bind.
      eapply wp_mono; [|apply wp_train_epoch_log; simpl; try rewrite Ht; done].
      intros _ w'' (Ht' & tr & Hl' & Hd & Hv). apply wp_ret. simpl in *.
      split; [congruence|]. exists (segs ++ [EvConsole (Epoch (0 + Z.of_nat i)) :: tr]).
      split.
      * rewrite Hl', Hl, concat_app. simpl. by rewrite app_nil_r, <- !app_assoc.
      * rewrite zrange_S. apply Forall2_app; [done|]. constructor; [|constructor].
        exists tr, []. rewrite app_nil_r. by split_and!.
  - destruct Hval as (Hbits & Hnv & Hmaxv); [done|].
    apply wp_bind. unfold load_dataset at 1.
    apply wp_bind, wp_log, wp_bind, wp_log, wp_bind, wp_log, wp_ret.
    unfold ds_val, dataset_of in Hbits. cbn [index n_index_bits] in Hbits |- *.
    rewrite Hbits, Z.eqb_refl. apply wp_bind, wp_ret.
    set (pre := [EvConsole (Loading (val_file_name cmd));
                 EvReadIndex (val_file_name cmd ++ ".index");
                 EvConsole (Loaded (n_examples (index ds_val)))]).
    eapply wp_mono;
      [|apply (wp_for_range
                 (fun i (_ : unit) (w' : world M) =>
                    w_threads w' = w_threads w
                    /\ exists segs,
                         w_log w' = (w_log w ++ pre) ++ concat segs
                         /\ Forall2 (epoch_log y (n_examples (index ds_train)))
                                    (zrange 0 i) segs))].
    + intros [] w' (_ & segs & Hl & Hsegs). exists pre, segs.
      split_and!; [by rewrite Hl, <- app_assoc|by repeat constructor|done].
    + split; [done|]. exists []. rewrite app_nil_r. split; [|constructor].
      simpl. by rewrite <- !app_assoc.
    + intros i [] w' Hi (Ht & segs & Hl & Hsegs).
      apply wp_bind, wp_log, wp_bind.
      eapply wp_mono; [|apply wp_train_epoch_log; simpl; try rewrite Ht; done].
      intros _ w'' (Ht' & tr & Hl' & Hd & Hv). simpl in Ht'. apply wp_bind.
      eapply wp_mono;
        [|apply wp_evaluate_epoch_log;
          [exact Hnv|exact Hmaxv|by rewrite Ht', Ht|by rewrite Ht', Ht]].
      intros _ w3 (Ht3 & ev & Hl3 & Hev). apply wp_ret. simpl in *.
      split; [congruence|].
      exists (segs ++ [EvConsole (Epoch (0 + Z.of_nat i)) :: tr ++ ev]). split.
      * rewrite Hl3, Hl', Hl, concat_app. simpl. by rewrite app_nil_r, <- !app_assoc.
      * rewrite zrange_S. apply Forall2_app; [done|]. constructor; [|constructor].
        by exists tr, ev.
Qed.

(** C10: the zero-probability-log of a run is 1, whatever the command.
    The multiplier of 1 is 2, and a mask drawn with one draw a word has
    every bit of every word equal to the bit of one execution of the
    entropy instruction, so that a bit is 0 exactly when that one draw
    has it 0; and of the 64-bit values a draw can have, those with a
    given bit 0 and those with it 1 are paired by flipping the bit, so
    that they are one half each.  Whatever the outcome of the run, what it appends to the
    log is quiet events (no call of [update], calls of [predict] with
    multiplier 1 only) and training traces under the
    zero-probability-log 1: every step carries the multiplier 2 and a
    mask drawn with one draw a word.  And when the epochs run to their
    end, the log holds, between events that are about no batch and
    quiet events, one segment for each epoch from 0 to [n_epochs - 1],
    in order: the line of the epoch, a training trace under the
    zero-probability-log 1 that visits every training example once, and
    the events of the evaluation if there is one. *)
Theorem run_dropout_is_constant cmd (w : world M) :
  let ds_train := dataset_of (train_file_name cmd) in
  let ds_val := dataset_of (val_file_name cmd) in
  let y := labels (index ds_train) in
  dropout_multiplier 1 = 2%R
  /\ (forall n h mask, drawn_mask 1 n h mask ->
        forall p, (p < n)%nat ->
          exists v, rdrand (h + p) = Some v
                    /\ forall b, 0 <= b < 64 -> Z.testbit (mask p) b = Z.testbit v b)
  /\ (forall v b, 0 <= v < 2 ^ 64 -> 0 <= b < 64 ->
        let v' := Z.lxor v (2 ^ b) in
        0 <= v' < 2 ^ 64
        /\ Z.testbit v' b = negb (Z.testbit v b)
        /\ Z.lxor v' (2 ^ b) = v)
  /\ (exists evs, w_log (run cmd w).2 = w_log w ++ evs /\ run_trace y evs)
  /\ (0 <= n_examples (index ds_train) ->
      n_examples (index ds_train) + batch_size <= 2 ^ 64 ->
      (empty (val_file_name cmd) = false ->
       n_index_bits (index ds_val) = n_index_bits (index ds_train)
       /\ 0 <= n_examples (index ds_val)
       /\ n_examples (index ds_val) + batch_size <= 2 ^ 64) ->
      (0 < Z.to_nat (n_threads cmd))%nat ->
      (forall l n, valid_schedule (Z.to_nat (n_threads cmd)) n
                     (omp_schedule l (Z.to_nat (n_threads cmd)) n)) ->
      (forall h, rdrand h <> None) ->
      exists pre segs post,
        w_log (run cmd w).2 = w_log w ++ pre ++ concat segs ++ post
        /\ Forall no_batch pre
        /\ Forall2 (epoch_log y (n_examples (index ds_train)))
                   (zrange 0 (Z.to_nat (n_epochs cmd))) segs
        /\ Forall quiet_event post).
Proof.
  intros ds_train ds_val y.
  split; [apply dropout_multiplier_1|]. split; [apply drawn_mask_one|].
  split; [apply flip_bit_pairs|]. split.
  - assert (forall e, quiet_event e -> run_trace y [e]) as Hq.
    { intros e He. apply rt_quiet; [done|constructor]. }
    rewrite run_phases.
    apply (log_frame_setup (run_trace y) cmd
             (fun ds_train => epochs_of_run cmd ds_train;;
                              prediction_of_run cmd ds_train;; ret 0)); [auto|].
    apply preserves_bind; [apply _| |intros _].
    { apply log_frame_epochs_of_run_drawn; [apply _|auto| |].
      - intros e He. by apply Hq, eval_event_quiet.
      - intros evs Ht. rewrite <- (app_nil_r evs). apply rt_train; [done|constructor]. }
    apply preserves_bind;
      [apply _|apply log_frame_prediction_of_run; [apply _|auto]|intros _].
    pres_ret.
  - intros Hn Hmax Hval Hthreads Hsched Hok.
    change (ends (run cmd)
              (fun w' =>
                 exists pre segs post,
                   w_log w' = w_log w ++ pre ++ concat segs ++ post
                   /\ Forall no_batch pre
                   /\ Forall2 (epoch_log y (n_examples (index ds_train)))
                              (zrange 0 (Z.to_nat (n_epochs cmd))) segs
                   /\ Forall quiet_event post) w).
    rewrite run_phases.
    apply ends_bind_ok, wp_modify, ends_bind_ok, wp_modify, ends_bind_ok.
    unfold load_dataset at 1.
    apply wp_bind, wp_log, wp_bind, wp_log, wp_bind, wp_log, wp_ret.
    apply ends_bind_ok, wp_log, ends_bind_ok, wp_modify, ends_bind_ok.
    eapply wp_mono; [|by apply wp_epochs_log].
    intros [] w1 (pre & segs & Hl & Hpre & Hsegs). simpl in Hl.
    assert (preserves (log_frame (Forall quiet_event))
              (prediction_of_run cmd ds_train;; ret 0)) as Hpred.
    { apply preserves_bind;
        [apply _|apply log_frame_prediction_of_run; [apply _|]|intros _; pres_ret].
      intros e He. by repeat constructor. }
    destruct (Hpred w1) as (post & Hl' & Hpost). unfold ends.
    exists ([EvConsole (Loading (train_file_name cmd));
             EvReadIndex (train_file_name cmd ++ ".index");
             EvConsole (Loaded (n_examples (index ds_train)));
             EvCreateModel (n_fields (index ds_train))
               (n_indices (index ds_train)) (n_index_bits (index ds_train))] ++ pre),
      segs, post.
    split_and!; [|apply Forall_app; split; [by repeat constructor|done]|done|done].
    etransitivity; [exact Hl'|]. rewrite Hl. by rewrite <- !app_assoc.
Qed.

End DropoutClaims.

Lemma train_multiplier_and_gradient_witness :
  let mult := (IZR (2 ^ 1) / (IZR (2 ^ 1) - 1))%R in
  let y := labels (Demo.demo_index 3 20) in
  dropout_multiplier 1 = mult
  /\ (exists evs,
        w_log (@train_on_dataset nat (Demo.constant_model 64) demo_platform
                 (Demo.demo_dataset 3 20) 1 (Demo.start demo_platform 0%nat 2)).2
        = [] ++ evs
        /\ @train_trace nat (Demo.constant_model 64) y mult evs)
  /\ exists res w' evs,
       @train_on_dataset nat (Demo.constant_model 64) demo_platform
         (Demo.demo_dataset 3 20) 1 (Demo.start demo_platform 0%nat 2)
       = (Ok res, w')
       /\ w_log w' = [] ++ evs
       /\ @train_trace nat (Demo.constant_model 64) y mult evs
       /\ predicted evs ≡ₚ zrange 0 (Z.to_nat 3)
       /\ updated evs = predicted evs
       /\ forall ei, 0 <= ei < 3 ->
            exists pre post (m : nat) fs mask,
              let norm := compute_norm fs in
              let t := @predict nat (Demo.constant_model 64) m fs norm mask mult in
              evs = pre ++ EvPredict ei norm mask mult t
                           :: EvUpdate ei norm (gradient_scale (y ei) t) mask mult
                           :: post.
Proof.
  destruct (@train_multiplier_and_gradient nat (Demo.constant_model 64) demo_platform
              (Demo.demo_dataset 3 20) 1 (Demo.start demo_platform 0%nat 2)
              ltac:(lia)) as (Hmult & Hany & Hall).
  split; [exact Hmult|]. split; [exact Hany|]. apply Hall.
  - simpl. lia.
  - simpl. unfold batch_size. lia.
  - simpl. lia.
  - intros n. apply round_robin_valid. simpl. lia.
  - done.
Defined.

Lemma run_dropout_is_constant_witness :
  let y := labels (Demo.demo_index 3 20) in
  dropout_multiplier 1 = 2%R
  /\ (forall n h mask, @drawn_mask uniform_platform 1 n h mask ->
        forall p, (p < n)%nat ->
          exists v, @rdrand uniform_platform (h + p) = Some v
                    /\ forall b, 0 <= b < 64 -> Z.testbit (mask p) b = Z.testbit v b)
  /\ (forall v b, 0 <= v < 2 ^ 64 -> 0 <= b < 64 ->
        let v' := Z.lxor v (2 ^ b) in
        0 <= v' < 2 ^ 64
        /\ Z.testbit v' b = negb (Z.testbit v b)
        /\ Z.lxor v' (2 ^ b) = v)
  /\ (exists evs,
        w_log (@run nat (Demo.constant_model 64) uniform_platform val_command
                 (Demo.start uniform_platform 0%nat 1)).2 = [] ++ evs
        /\ @run_trace nat (Demo.constant_model 64) uniform_platform y evs)
  /\ exists pre segs post,
       w_log (@run nat (Demo.constant_model 64) uniform_platform val_command
                (Demo.start uniform_platform 0%nat 1)).2
       = [] ++ pre ++ concat segs ++ post
       /\ Forall no_batch pre
       /\ Forall2 (@epoch_log nat (Demo.constant_model 64) uniform_platform y 3)
                  (zrange 0 (Z.to_nat 1)) segs
       /\ Forall quiet_event post.
Proof.
  destruct (@run_dropout_is_constant nat (Demo.constant_model 64) uniform_platform
              val_command (Demo.start uniform_platform 0%nat 1))
    as (Hmult & Hone & Hhalf & Hany & Hall).
  split; [exact Hmult|]. split; [exact Hone|]. split; [exact Hhalf|].
  split; [exact Hany|]. apply Hall.
  - simpl. lia.
  - simpl. unfold batch_size. lia.
  - intros _. simpl. unfold batch_size. split_and!; [done|lia|lia].
  - simpl. lia.
  - intros l n. apply round_robin_valid. simpl. lia.
  - done.
Defined.
